(** * Spreadsheet evaluation core: axis indexes, dependency graph, splice
      transformation and the [Table] coordinator.

    Shallow embedding of [src/axis-index.ts], [src/cell-store.ts],
    [src/dep-graph.ts], [src/range-watchers.ts], [src/parser.ts],
    [src/transform.ts], [src/types.ts] and [src/sheet.ts].

    Modelling conventions.
    - JavaScript numbers used as positions, counts, offsets and cell values
      are mathematical integers ([Z]).
    - An axis identifier [`id${n}`] is represented by its counter [n]; the
      template string is injective in [n] and never falsy.
    - [addressKey] builds ["row:col"]; identifiers hold no colon, so the key
      is represented by the pair and [parseAddressKey] is its inverse.
    - A JavaScript [Map] or [Set] iterates in insertion order, and that
      order decides the order of recalculation: maps are association lists
      and sets are duplicate-free lists, both in insertion order.
    - Loops whose bound is not structural ([while (queue.length > 0)], the
      recursive [visit]) take a fuel computed from the graph; the fuel is
      shown to be sufficient. *)

From Stdlib Require Import Ascii String DecimalString.
From Stdlib Require Import ZArith Arith Bool Lia List.
From Stdlib Require Import Permutation.
From Stdlib Require DecimalPos.
Import ListNotations.
Local Open Scope Z_scope.

Set Implicit Arguments.

(* ================================================================== *)
(** * JavaScript containers *)
(* ================================================================== *)

Module JS.

(** [Array.prototype.splice(start, deleteCount, ...items)] with the
    clamping of its two numeric arguments. *)
Definition splice {A : Type} (l : list A) (start deleteCount : Z)
    (items : list A) : list A :=
  let len := Z.of_nat (length l) in
  let s := if start <? 0 then Z.max (len + start) 0 else Z.min start len in
  let d := Z.min (Z.max deleteCount 0) (len - s) in
  firstn (Z.to_nat s) l ++ items ++ skipn (Z.to_nat (s + d)) l.

Section Containers.
Variables K V : Type.
Variable eqb : K -> K -> bool.

(** [Set]: membership, [add], [delete]. *)
Definition has (s : list K) (k : K) : bool := existsb (eqb k) s.
Definition add (s : list K) (k : K) : list K :=
  if has s k then s else s ++ [k].
Definition delete (s : list K) (k : K) : list K :=
  filter (fun x => negb (eqb k x)) s.

(** [Map]: [get], [set] (an existing key keeps its place), [delete]. *)
Fixpoint get (m : list (K * V)) (k : K) : option V :=
  match m with
  | [] => None
  | (k', v) :: rest => if eqb k k' then Some v else get rest k
  end.
Fixpoint set (m : list (K * V)) (k : K) (v : V) : list (K * V) :=
  match m with
  | [] => [(k, v)]
  | (k', v') :: rest =>
      if eqb k k' then (k', v) :: rest else (k', v') :: set rest k v
  end.
Definition mdelete (m : list (K * V)) (k : K) : list (K * V) :=
  filter (fun e => negb (eqb k (fst e))) m.
End Containers.

End JS.

(* ================================================================== *)
(** * types.ts *)
(* ================================================================== *)

Definition AxisId := nat.

Record Address := mkAddress { row : AxisId; col : AxisId }.
Arguments mkAddress (row col)%_nat.

Inductive Scalar :=
| Num (n : Z)
| ErrRef      (* '#REF!' *)
| ErrCycle.   (* '#CYCLE!' *)

Inductive RowColMode := rel | abs.

Record Anchor := mkAnchor {
  base : Address;
  rowMode : RowColMode;
  colMode : RowColMode;
  dRow : Z;
  dCol : Z
}.

Record RangeRef := mkRange { start : Anchor; end_ : Anchor }.

Inductive Formula :=
| Ref (ref : Anchor)
| Sum (range : RangeRef).

Inductive Cell :=
| CValue (value : Scalar)
| CFormula (ast : Formula) (cached : option Scalar).

Inductive Axis := AxRow | AxCol.

Record Splice := mkSplice { axis : Axis; atPos : Z; del : Z; ins : Z }.

Record Position := mkPos { r : Z; c : Z }.

Definition Key := (AxisId * AxisId)%type.

Definition addressKey (addr : Address) : Key := (row addr, col addr).
Definition parseAddressKey (key : Key) : Address := mkAddress (fst key) (snd key).
Definition keyEqb (a b : Key) : bool :=
  Nat.eqb (fst a) (fst b) && Nat.eqb (snd a) (snd b).
Definition addressEquals (a b : Address) : bool :=
  Nat.eqb (row a) (row b) && Nat.eqb (col a) (col b).

Definition isNumber (s : Scalar) : bool :=
  match s with Num _ => true | _ => false end.

(* ================================================================== *)
(** * axis-index.ts *)
(* ================================================================== *)

Module AxisIndex.

Record Segment := mkSeg { startPos : Z; ids : list AxisId }.

Record t := mk { segments : list Segment; nextId : nat }.

Definition segLen (seg : Segment) : Z := Z.of_nat (length (ids seg)).

(** [generateId] called [n] times from counter [from]. *)
Definition mint (from : nat) (count : Z) : list AxisId :=
  seq from (Z.to_nat count).

Definition create (initialCount : Z) : t :=
  mk [mkSeg 1 (mint 0 initialCount)] (Z.to_nat initialCount).

Fixpoint posToId_segs (segs : list Segment) (pos : Z) : option AxisId :=
  match segs with
  | [] => None
  | seg :: rest =>
      let endPos := startPos seg + segLen seg - 1 in
      if (startPos seg <=? pos) && (pos <=? endPos)
      then nth_error (ids seg) (Z.to_nat (pos - startPos seg))
      else posToId_segs rest pos
  end.

Definition posToId (ax : t) (pos : Z) : option AxisId :=
  posToId_segs (segments ax) pos.

(** [Array.prototype.indexOf]; [None] stands for [-1]. *)
Fixpoint indexOf (l : list AxisId) (id : AxisId) : option nat :=
  match l with
  | [] => None
  | x :: rest =>
      if Nat.eqb x id then Some O
      else match indexOf rest id with
           | Some i => Some (S i)
           | None => None
           end
  end.

Fixpoint idToPos_segs (segs : list Segment) (id : AxisId) : option Z :=
  match segs with
  | [] => None
  | seg :: rest =>
      match indexOf (ids seg) id with
      | Some idx => Some (startPos seg + Z.of_nat idx)
      | None => idToPos_segs rest id
      end
  end.

Definition idToPos (ax : t) (id : AxisId) : option Z :=
  idToPos_segs (segments ax) id.

Definition shiftSeg (d : Z) (seg : Segment) : Segment :=
  mkSeg (startPos seg + d) (ids seg).

(** The search loop of [insert]: [None] when no segment took the new
    identifiers ([inserted] stays false). *)
Fixpoint insert_segs (segs : list Segment) (atPos count : Z)
    (newIds : list AxisId) : option (list Segment) :=
  match segs with
  | [] => None
  | seg :: rest =>
      let segEnd := startPos seg + segLen seg - 1 in
      if (startPos seg <=? atPos) && (atPos <=? segEnd + 1)
      then
        let offset := atPos - startPos seg in
        Some (mkSeg (startPos seg) (JS.splice (ids seg) offset 0 newIds)
                :: map (shiftSeg count) rest)
      else
        match insert_segs rest atPos count newIds with
        | Some rest' => Some (seg :: rest')
        | None => None
        end
  end.

Definition insert (ax : t) (atPos count : Z) : t * list AxisId :=
  let newIds := mint (nextId ax) count in
  let next := (nextId ax + Z.to_nat count)%nat in
  match insert_segs (segments ax) atPos count newIds with
  | Some segs => (mk segs next, newIds)
  | None =>
      let nextPos :=
        match last (map Some (segments ax)) None with
        | Some lastSeg => startPos lastSeg + segLen lastSeg
        | None => 1
        end in
      (mk (segments ax ++ [mkSeg nextPos newIds]) next, newIds)
  end.

(** The loop of [remove].  The inner loop
    [for j > i: segments[j].startPos -= count] is carried as the pending
    shift [sh] of the segments not yet visited. *)
Fixpoint remove_segs (sh : Z) (segs : list Segment) (from to : Z)
    : list Segment :=
  match segs with
  | [] => []
  | seg0 :: rest =>
      let seg := shiftSeg sh seg0 in
      let count := to - from + 1 in
      let segEnd := startPos seg + segLen seg - 1 in
      if to <? startPos seg then
        mkSeg (startPos seg - count) (ids seg) :: remove_segs sh rest from to
      else if segEnd <? from then
        seg :: remove_segs sh rest from to
      else
        let delStart := Z.max from (startPos seg) in
        let delEnd := Z.min to segEnd in
        let delOffset := delStart - startPos seg in
        let delCount := delEnd - delStart + 1 in
        let ids' := JS.splice (ids seg) delOffset delCount [] in
        let rest' := remove_segs (sh - count) rest from to in
        match ids' with
        | [] => rest'
        | _ => mkSeg (startPos seg) ids' :: rest'
        end
  end.

Definition remove (ax : t) (from to : Z) : t :=
  mk (remove_segs 0 (segments ax) from to) (nextId ax).

Definition segmentCount (ax : t) : nat := length (segments ax).

Definition maxPos (ax : t) : Z :=
  match last (map Some (segments ax)) None with
  | None => 0
  | Some lastSeg => startPos lastSeg + segLen lastSeg - 1
  end.

Definition totalIds (ax : t) : nat :=
  fold_left (fun sum seg => (sum + length (ids seg))%nat) (segments ax) O.

End AxisIndex.

(* ================================================================== *)
(** * cell-store.ts *)
(* ================================================================== *)

Module CellStore.

Definition t := list (Key * Cell).

Definition empty : t := [].
Definition get (s : t) (addr : Address) : option Cell :=
  JS.get keyEqb s (addressKey addr).
Definition set (s : t) (addr : Address) (cell : Cell) : t :=
  JS.set keyEqb s (addressKey addr) cell.
Definition del (s : t) (addr : Address) : t :=
  JS.mdelete keyEqb s (addressKey addr).
Definition has (s : t) (addr : Address) : bool :=
  match get s addr with Some _ => true | None => false end.
Definition entries (s : t) : list (Key * Cell) := s.
Definition size (s : t) : nat := length s.

End CellStore.

(* ================================================================== *)
(** * dep-graph.ts *)
(* ================================================================== *)

Module DepGraph.

Definition AdjMap := list (Key * list Key).

(** [outgoing]: from -> set of to;  [incoming]: to -> set of from. *)
Record t := mk { outgoing : AdjMap; incoming : AdjMap }.

Definition empty : t := mk [] [].

(** [if (!m.has(k)) m.set(k, new Set()); m.get(k).add(v)] *)
Definition addTo (m : AdjMap) (k v : Key) : AdjMap :=
  match JS.get keyEqb m k with
  | Some s => JS.set keyEqb m k (JS.add keyEqb s v)
  | None => JS.set keyEqb m k [v]
  end.

(** [const s = m.get(k); if (s) { s.delete(v); if (s.size === 0) m.delete(k) }] *)
Definition dropFrom (m : AdjMap) (k v : Key) : AdjMap :=
  match JS.get keyEqb m k with
  | Some s =>
      match JS.delete keyEqb s v with
      | [] => JS.mdelete keyEqb m k
      | s' => JS.set keyEqb m k s'
      end
  | None => m
  end.

Definition addEdge (g : t) (from to : Address) : t :=
  let fromKey := addressKey from in
  let toKey := addressKey to in
  mk (addTo (outgoing g) fromKey toKey) (addTo (incoming g) toKey fromKey).

Definition replaceAllInbound (g : t) (node : Address) (newFrom : list Address) : t :=
  let ofKey := addressKey node in
  let out1 :=
    match JS.get keyEqb (incoming g) ofKey with
    | Some oldIncoming =>
        fold_left (fun out fromKey => dropFrom out fromKey ofKey)
                  oldIncoming (outgoing g)
    | None => outgoing g
    end in
  fold_left (fun g' from => addEdge g' from node) newFrom
            (mk out1 (JS.set keyEqb (incoming g) ofKey [])).

Definition removeAll (g : t) (node : Address) : t :=
  let ofKey := addressKey node in
  let g1 :=
    match JS.get keyEqb (outgoing g) ofKey with
    | Some outSet =>
        mk (JS.mdelete keyEqb (outgoing g) ofKey)
           (fold_left (fun inc toKey => dropFrom inc toKey ofKey)
                      outSet (incoming g))
    | None => g
    end in
  match JS.get keyEqb (incoming g1) ofKey with
  | Some inSet =>
      mk (fold_left (fun out fromKey => dropFrom out fromKey ofKey)
                    inSet (outgoing g1))
         (JS.mdelete keyEqb (incoming g1) ofKey)
  | None => g1
  end.

(** Number of stored adjacency entries; bounds the pushes of a search. *)
Definition edgeCount (m : AdjMap) : nat :=
  fold_right (fun e n => (length (snd e) + n)%nat) O m.

(** The [while (queue.length > 0)] loop of [affectedFrom]. *)
Fixpoint affectedLoop (fuel : nat) (out : AdjMap) (queue affected : list Key)
    : option (list Key) :=
  match fuel with
  | O => None
  | S f =>
      match queue with
      | [] => Some affected
      | key :: q =>
          if JS.has keyEqb affected key then affectedLoop f out q affected
          else
            let affected' := affected ++ [key] in
            let q' :=
              match JS.get keyEqb out key with
              | Some dependents =>
                  q ++ filter (fun dep => negb (JS.has keyEqb affected' dep))
                              dependents
              | None => q
              end in
            affectedLoop f out q' affected'
      end
  end.

Definition searchFuel (g : t) (queue : list Key) : nat :=
  S (length queue + edgeCount (outgoing g)).

Definition affectedFrom (g : t) (changed : list Key) : list Key :=
  match affectedLoop (searchFuel g changed) (outgoing g) changed [] with
  | Some affected => affected
  | None => []
  end.

(** The search loop of [wouldCreateCycle]. *)
Fixpoint cycleLoop (fuel : nat) (out : AdjMap) (fromKey : Key)
    (queue visited : list Key) : option bool :=
  match fuel with
  | O => None
  | S f =>
      match queue with
      | [] => Some false
      | current :: q =>
          if keyEqb current fromKey then Some true
          else if JS.has keyEqb visited current
          then cycleLoop f out fromKey q visited
          else
            let visited' := visited ++ [current] in
            let q' :=
              match JS.get keyEqb out current with
              | Some deps =>
                  q ++ filter (fun dep => negb (JS.has keyEqb visited' dep)) deps
              | None => q
              end in
            cycleLoop f out fromKey q' visited'
      end
  end.

Definition wouldCreateCycle (g : t) (from to : Address) : bool :=
  let fromKey := addressKey from in
  let toKey := addressKey to in
  match cycleLoop (searchFuel g [toKey]) (outgoing g) fromKey [toKey] [] with
  | Some b => b
  | None => false
  end.

Definition getDependencies (g : t) (node : Address) : list Key :=
  match JS.get keyEqb (incoming g) (addressKey node) with
  | Some s => s
  | None => []
  end.

Definition getDependents (g : t) (node : Address) : list Key :=
  match JS.get keyEqb (outgoing g) (addressKey node) with
  | Some s => s
  | None => []
  end.

End DepGraph.

(* ================================================================== *)
(** * range-watchers.ts *)
(* ================================================================== *)

Module RangeWatchers.

Record t := mk {
  watchers : list (Key * list Key);
  formulaRanges : list (Key * list RangeRef)
}.

Definition empty : t := mk [] [].

Definition addWatch (w : t) (range : RangeRef) (formulaAt : Address) : t :=
  let formulaKey := addressKey formulaAt in
  let old := match JS.get keyEqb (formulaRanges w) formulaKey with
             | Some rs => rs
             | None => []
             end in
  mk (watchers w) (JS.set keyEqb (formulaRanges w) formulaKey (old ++ [range])).

Definition removeWatches (w : t) (formulaAt : Address) : t :=
  let formulaKey := addressKey formulaAt in
  mk (filter (fun e => match snd e with [] => false | _ => true end)
        (map (fun e => (fst e, JS.delete keyEqb (snd e) formulaKey))
             (watchers w)))
     (JS.mdelete keyEqb (formulaRanges w) formulaKey).

Definition registerCell (w : t) (cellAddr formulaAt : Address) : t :=
  mk (DepGraph.addTo (watchers w) (addressKey cellAddr) (addressKey formulaAt))
     (formulaRanges w).

Definition watchersOf (w : t) (addr : Address) : list Key :=
  match JS.get keyEqb (watchers w) (addressKey addr) with
  | Some s => s
  | None => []
  end.

Definition getRanges (w : t) (formulaAt : Address) : list RangeRef :=
  match JS.get keyEqb (formulaRanges w) (addressKey formulaAt) with
  | Some rs => rs
  | None => []
  end.

End RangeWatchers.

(* ================================================================== *)
(** * parser.ts *)
(* ================================================================== *)

Module Parser.

Definition code (ch : ascii) : Z := Z.of_nat (nat_of_ascii ch).
Definition fromCharCode (n : Z) : ascii := ascii_of_nat (Z.to_nat n).

Definition isUpper (ch : ascii) : bool := (65 <=? code ch) && (code ch <=? 90).
Definition isDigit (ch : ascii) : bool := (48 <=? code ch) && (code ch <=? 57).
(** The ASCII members of the white space stripped by [trim]. *)
Definition isSpace (ch : ascii) : bool :=
  ((9 <=? code ch) && (code ch <=? 13)) || (code ch =? 32).
Definition toUpper (ch : ascii) : ascii :=
  if (97 <=? code ch) && (code ch <=? 122) then fromCharCode (code ch - 32) else ch.

Fixpoint dropWhile (p : ascii -> bool) (s : list ascii) : list ascii :=
  match s with
  | [] => []
  | ch :: rest => if p ch then dropWhile p rest else s
  end.

Fixpoint span (p : ascii -> bool) (s : list ascii) : list ascii * list ascii :=
  match s with
  | [] => ([], [])
  | ch :: rest =>
      if p ch then let (a, b) := span p rest in (ch :: a, b) else ([], s)
  end.

Definition trim (s : list ascii) : list ascii :=
  rev (dropWhile isSpace (rev (dropWhile isSpace s))).

(** The loop of [colToLetter]; [col] strictly decreases, so [col] steps
    are enough. *)
Fixpoint colToLetter_loop (fuel : nat) (col : Z) (letter : list ascii)
    : list ascii :=
  match fuel with
  | O => letter
  | S f =>
      if 0 <? col then
        let remainder := (col - 1) mod 26 in
        colToLetter_loop f ((col - 1) / 26) (fromCharCode (65 + remainder) :: letter)
      else letter
  end.

Definition colToLetter (col : Z) : list ascii :=
  colToLetter_loop (Z.to_nat col) col [].

Definition letterToCol (letter : list ascii) : Z :=
  fold_left (fun col ch => col * 26 + (code ch - 65 + 1)) letter 0.

(** [parseInt(digits, 10)] on a string of decimal digits. *)
Definition parseInt (digits : list ascii) : Z :=
  fold_left (fun n ch => n * 10 + (code ch - 48)) digits 0.

(** [ref.match(/^(\$?)([A-Z]+)(\$?)(\d+)$/)]: the four groups. *)
Definition matchReference (s : list ascii)
    : option (bool * list ascii * bool * list ascii) :=
  let (colAbs, s1) := match s with
                      | "$"%char :: rest => (true, rest)
                      | _ => (false, s)
                      end in
  let (letters, s2) := span isUpper s1 in
  match letters with
  | [] => None
  | _ =>
      let (rowAbs, s3) := match s2 with
                          | "$"%char :: rest => (true, rest)
                          | _ => (false, s2)
                          end in
      match s3 with
      | [] => None
      | _ => if forallb isDigit s3
             then Some (colAbs, letters, rowAbs, s3)
             else None
      end
  end.

Definition parseReference (ref : list ascii) (basePos : Position)
    (rowAxis colAxis : AxisIndex.t) : option Anchor :=
  match matchReference ref with
  | None => None
  | Some (colAbs, colLetter, rowAbs, digits) =>
      let rowNum := parseInt digits in
      let colPos := letterToCol colLetter in
      match AxisIndex.posToId rowAxis (r basePos),
            AxisIndex.posToId colAxis (c basePos) with
      | Some baseRowId, Some baseColId =>
          Some (mkAnchor (mkAddress baseRowId baseColId)
                  (if rowAbs then abs else rel)
                  (if colAbs then abs else rel)
                  (rowNum - r basePos)
                  (colPos - c basePos))
      | _, _ => None
      end
  end.

(** [expr.match(/^SUM\(([^:]+):([^)]+)\)$/i)]: the two groups. *)
Definition matchSum (expr : list ascii) : option (list ascii * list ascii) :=
  match expr with
  | s :: u :: m :: "("%char :: rest =>
      if (Ascii.eqb (toUpper s) "S"%char && Ascii.eqb (toUpper u) "U"%char
          && Ascii.eqb (toUpper m) "M"%char)%bool
      then
        let (g1, rest1) := span (fun ch => negb (Ascii.eqb ch ":"%char)) rest in
        match g1, rest1 with
        | _ :: _, ":"%char :: rest2 =>
            let (g2, rest3) := span (fun ch => negb (Ascii.eqb ch ")"%char)) rest2 in
            match g2, rest3 with
            | _ :: _, [")"%char] => Some (g1, g2)
            | _, _ => None
            end
        | _, _ => None
        end
      else None
  | _ => None
  end.

(** [None] stands for the result ['#REF!']. *)
Definition parseFormula (src : string) (basePos : Position)
    (rowAxis colAxis : AxisIndex.t) : option Formula :=
  match trim (list_ascii_of_string src) with
  | "="%char :: rest =>
      let expr := trim rest in
      match matchSum expr with
      | Some (g1, g2) =>
          match parseReference (trim g1) basePos rowAxis colAxis,
                parseReference (trim g2) basePos rowAxis colAxis with
          | Some s, Some e => Some (Sum (mkRange s e))
          | _, _ => None
          end
      | None =>
          match parseReference expr basePos rowAxis colAxis with
          | Some anchor => Some (Ref anchor)
          | None => None
          end
      end
  | _ => None
  end.

(** [None] stands for ['#REF!'].  Both branches of the source's
    conditional on the mode add the offset to the base position. *)
Definition anchorToAddress (anchor : Anchor) (rowAxis colAxis : AxisIndex.t)
    : option Address :=
  match AxisIndex.idToPos rowAxis (row (base anchor)),
        AxisIndex.idToPos colAxis (col (base anchor)) with
  | Some baseRowPos, Some baseColPos =>
      let targetRowPos :=
        match rowMode anchor with
        | abs => baseRowPos + dRow anchor
        | rel => baseRowPos + dRow anchor
        end in
      let targetColPos :=
        match colMode anchor with
        | abs => baseColPos + dCol anchor
        | rel => baseColPos + dCol anchor
        end in
      match AxisIndex.posToId rowAxis targetRowPos,
            AxisIndex.posToId colAxis targetColPos with
      | Some targetRowId, Some targetColId =>
          Some (mkAddress targetRowId targetColId)
      | _, _ => None
      end
  | _, _ => None
  end.

Definition refText : list ascii := list_ascii_of_string "#REF!".

(** [String(n)] for an integer. *)
Definition numberToString (n : Z) : list ascii :=
  list_ascii_of_string (NilZero.string_of_int (Z.to_int n)).

Definition formatAnchor (anchor : Anchor) (rowAxis colAxis : AxisIndex.t)
    : list ascii :=
  match anchorToAddress anchor rowAxis colAxis with
  | None => refText
  | Some addr =>
      match AxisIndex.idToPos rowAxis (row addr),
            AxisIndex.idToPos colAxis (col addr) with
      | Some rowPos, Some colPos =>
          let colPrefix := match colMode anchor with abs => ["$"%char] | rel => [] end in
          let rowPrefix := match rowMode anchor with abs => ["$"%char] | rel => [] end in
          colPrefix ++ colToLetter colPos ++ rowPrefix ++ numberToString rowPos
      | _, _ => refText
      end
  end.

Definition formatFormula (formula : Formula) (rowAxis colAxis : AxisIndex.t)
    : string :=
  match formula with
  | Ref a => string_of_list_ascii ("="%char :: formatAnchor a rowAxis colAxis)
  | Sum rg =>
      string_of_list_ascii
        (list_ascii_of_string "=SUM(" ++ formatAnchor (start rg) rowAxis colAxis
           ++ [":"%char] ++ formatAnchor (end_ rg) rowAxis colAxis ++ [")"%char])
  end.

End Parser.

(* ================================================================== *)
(** * transform.ts *)
(* ================================================================== *)

Module Transform.

(** The inner function [applySpliceToPos]; [None] stands for ['#REF!']. *)
Definition applySpliceToPos (splice : Splice) (pos : Z) : option Z :=
  if 0 <? del splice then
    if (atPos splice <=? pos) && (pos <? atPos splice + del splice) then None
    else if atPos splice + del splice <=? pos
         then Some (pos - del splice + ins splice)
         else Some pos
  else if 0 <? ins splice then
    if atPos splice <=? pos then Some (pos + ins splice) else Some pos
  else Some pos.

Definition transformAnchor (anchor : Anchor) (splice : Splice)
    (rowAxis colAxis : AxisIndex.t) : option Anchor :=
  let isRowSplice := match axis splice with AxRow => true | AxCol => false end in
  match (if isRowSplice
         then AxisIndex.idToPos rowAxis (row (base anchor))
         else AxisIndex.idToPos colAxis (col (base anchor))) with
  | None => None
  | Some basePos =>
      let mode := if isRowSplice then rowMode anchor else colMode anchor in
      let dOffset := if isRowSplice then dRow anchor else dCol anchor in
      let targetPos := basePos + dOffset in
      let newBasePos := applySpliceToPos splice basePos in
      let newTargetPos :=
        match mode with
        | rel => applySpliceToPos splice targetPos
        | abs => Some targetPos
        end in
      match newBasePos, newTargetPos with
      | Some nb, Some nt =>
          let newDOffset := nt - nb in
          if isRowSplice
          then Some (mkAnchor (base anchor) (rowMode anchor) (colMode anchor)
                       newDOffset (dCol anchor))
          else Some (mkAnchor (base anchor) (rowMode anchor) (colMode anchor)
                       (dRow anchor) newDOffset)
      | _, _ => None
      end
  end.

Definition transformRange (range : RangeRef) (splice : Splice)
    (rowAxis colAxis : AxisIndex.t) : option RangeRef :=
  match transformAnchor (start range) splice rowAxis colAxis,
        transformAnchor (end_ range) splice rowAxis colAxis with
  | Some newStart, Some newEnd =>
      let isRowSplice := match axis splice with AxRow => true | AxCol => false end in
      match (if isRowSplice
             then AxisIndex.idToPos rowAxis (row (base newStart))
             else AxisIndex.idToPos colAxis (col (base newStart))),
            (if isRowSplice
             then AxisIndex.idToPos rowAxis (row (base newEnd))
             else AxisIndex.idToPos colAxis (col (base newEnd))) with
      | Some startBasePos, Some endBasePos =>
          let startOffset := if isRowSplice then dRow newStart else dCol newStart in
          let endOffset := if isRowSplice then dRow newEnd else dCol newEnd in
          let finalStartPos := startBasePos + startOffset in
          let finalEndPos := endBasePos + endOffset in
          if finalEndPos <? finalStartPos then None
          else Some (mkRange newStart newEnd)
      | _, _ => None
      end
  | _, _ => None
  end.

End Transform.

(* ================================================================== *)
(** * sheet.ts *)
(* ================================================================== *)

Module Table.

(** The class [Sheet]; a [Table] owns exactly one sheet, so the state of
    a table is the state of its sheet. *)
Record Sheet := mkSheet {
  rows : AxisIndex.t;
  cols : AxisIndex.t;
  cells : CellStore.t;
  deps : DepGraph.t;
  ranges : RangeWatchers.t
}.

Definition create (initialRows initialCols : Z) : Sheet :=
  mkSheet (AxisIndex.create initialRows) (AxisIndex.create initialCols)
          CellStore.empty DepGraph.empty RangeWatchers.empty.

Definition withCells (t : Sheet) (cs : CellStore.t) : Sheet :=
  mkSheet (rows t) (cols t) cs (deps t) (ranges t).
Definition withDeps (t : Sheet) (g : DepGraph.t) : Sheet :=
  mkSheet (rows t) (cols t) (cells t) g (ranges t).
Definition withRanges (t : Sheet) (w : RangeWatchers.t) : Sheet :=
  mkSheet (rows t) (cols t) (cells t) (deps t) w.
Definition withRows (t : Sheet) (ax : AxisIndex.t) : Sheet :=
  mkSheet ax (cols t) (cells t) (deps t) (ranges t).
Definition withCols (t : Sheet) (ax : AxisIndex.t) : Sheet :=
  mkSheet (rows t) ax (cells t) (deps t) (ranges t).

Definition posToAddr (t : Sheet) (pos : Position) : option Address :=
  match AxisIndex.posToId (rows t) (r pos), AxisIndex.posToId (cols t) (c pos) with
  | Some rowId, Some colId => Some (mkAddress rowId colId)
  | _, _ => None
  end.

Definition addrToPos (t : Sheet) (addr : Address) : option Position :=
  match AxisIndex.idToPos (rows t) (row addr), AxisIndex.idToPos (cols t) (col addr) with
  | Some r, Some c => Some (mkPos r c)
  | _, _ => None
  end.

(** The values taken by [for (let i = lo; i <= hi; i++)]. *)
Definition zrange (lo hi : Z) : list Z :=
  map (fun i => lo + Z.of_nat i) (seq 0 (Z.to_nat (hi - lo + 1))).

Definition expandRange (t : Sheet) (range : RangeRef) : list Address :=
  match Parser.anchorToAddress (start range) (rows t) (cols t),
        Parser.anchorToAddress (end_ range) (rows t) (cols t) with
  | Some startAddr, Some endAddr =>
      match addrToPos t startAddr, addrToPos t endAddr with
      | Some startPos, Some endPos =>
          flat_map
            (fun r =>
               flat_map
                 (fun c => match posToAddr t (mkPos r c) with
                           | Some addr => [addr]
                           | None => []
                           end)
                 (zrange (Z.min (c startPos) (c endPos))
                         (Z.max (c startPos) (c endPos))))
            (zrange (Z.min (r startPos) (r endPos))
                    (Z.max (r startPos) (r endPos)))
      | _, _ => []
      end
  | _, _ => []
  end.

Definition collectDependencies (t : Sheet) (formula : Formula) : list Address :=
  match formula with
  | Ref a =>
      match Parser.anchorToAddress a (rows t) (cols t) with
      | Some addr => [addr]
      | None => []
      end
  | Sum rg => expandRange t rg
  end.

(** [evalFormula] returns the scalar; its [Sum] branch also rewrites the
    inbound edges of the formula and registers range watches. *)
Definition evalFormula (t : Sheet) (formula : Formula) (formulaAddr : Address)
    : Scalar * Sheet :=
  match formula with
  | Ref a =>
      match Parser.anchorToAddress a (rows t) (cols t) with
      | None => (ErrRef, t)
      | Some targetAddr =>
          match CellStore.get (cells t) targetAddr with
          | None => (Num 0, t)
          | Some (CValue v) =>
              (match v with Num n => Num n | _ => Num 0 end, t)
          | Some (CFormula _ cached) =>
              (match cached with Some (Num n) => Num n | _ => Num 0 end, t)
          end
      end
  | Sum rg =>
      let cs := expandRange t rg in
      let g := DepGraph.replaceAllInbound (deps t) formulaAddr cs in
      let w := fold_left (fun w cellAddr =>
                            RangeWatchers.registerCell w cellAddr formulaAddr)
                         cs (ranges t) in
      let sum :=
        fold_left
          (fun sum cellAddr =>
             match CellStore.get (cells t) cellAddr with
             | None => sum
             | Some (CValue (Num n)) => sum + n
             | Some (CValue _) => sum
             | Some (CFormula _ (Some (Num n))) => sum + n
             | Some (CFormula _ _) => sum
             end)
          cs 0 in
      (Num sum, withRanges (withDeps t g) w)
  end.

Record TopoState := mkTopo {
  sorted : list Key;
  visited : list Key;
  temp : list Key
}.

(** The closure [visit] of [topologicalSort]. *)
Fixpoint visit (fuel : nat) (g : DepGraph.t) (nodes : list Key) (key : Key)
    (st : TopoState) : option TopoState :=
  match fuel with
  | O => None
  | S f =>
      if JS.has keyEqb (visited st) key then Some st
      else if JS.has keyEqb (temp st) key then Some st
      else
        let st1 := mkTopo (sorted st) (visited st) (JS.add keyEqb (temp st) key) in
        let ds := DepGraph.getDependencies g (parseAddressKey key) in
        match fold_left
                (fun acc depKey =>
                   match acc with
                   | None => None
                   | Some s =>
                       if JS.has keyEqb nodes depKey
                       then visit f g nodes depKey s
                       else Some s
                   end)
                ds (Some st1) with
        | None => None
        | Some st2 =>
            Some (mkTopo (sorted st2 ++ [key])
                         (JS.add keyEqb (visited st2) key)
                         (JS.delete keyEqb (temp st2) key))
        end
  end.

Definition topoLoop (fuel : nat) (g : DepGraph.t) (nodes : list Key)
    (keys : list Key) (st : TopoState) : option TopoState :=
  fold_left
    (fun acc key => match acc with
                    | None => None
                    | Some s => visit fuel g nodes key s
                    end)
    keys (Some st).

Definition topologicalSort (g : DepGraph.t) (nodes : list Key) : list Key :=
  match topoLoop (S (length nodes)) g nodes nodes (mkTopo [] [] []) with
  | Some st => sorted st
  | None => []
  end.

(** One iteration of the loop of [recalc]. *)
Definition recalcStep (t : Sheet) (key : Key) : Sheet :=
  let addr := parseAddressKey key in
  match CellStore.get (cells t) addr with
  | Some (CFormula ast _) =>
      let (value, t1) := evalFormula t ast addr in
      withCells t1 (CellStore.set (cells t1) addr (CFormula ast (Some value)))
  | _ => t
  end.

(** The list [sorted] that [recalc] iterates over. *)
Definition recalcOrder (t : Sheet) (dirty : list Key) : list Key :=
  topologicalSort (deps t) (DepGraph.affectedFrom (deps t) dirty).

Definition recalc (t : Sheet) (dirty : list Key) : Sheet :=
  fold_left recalcStep (recalcOrder t dirty) t.

Definition setValue (t : Sheet) (pos : Position) (value : Z) : Sheet :=
  match posToAddr t pos with
  | None => t
  | Some addr =>
      let t1 :=
        match CellStore.get (cells t) addr with
        | Some (CFormula _ _) =>
            withRanges (withDeps t (DepGraph.removeAll (deps t) addr))
                       (RangeWatchers.removeWatches (ranges t) addr)
        | _ => t
        end in
      let t2 := withCells t1 (CellStore.set (cells t1) addr (CValue (Num value))) in
      recalc t2 [addressKey addr]
  end.

(** The part of [setFormula] that follows a successful parse. *)
Definition installFormula (t : Sheet) (addr : Address) (formula : Formula)
    : Sheet :=
  let t1 := withRanges (withDeps t (DepGraph.removeAll (deps t) addr))
                       (RangeWatchers.removeWatches (ranges t) addr) in
  let ds := collectDependencies t1 formula in
  if existsb (fun dep => DepGraph.wouldCreateCycle (deps t1) dep addr) ds
  then withCells t1 (CellStore.set (cells t1) addr
                       (CFormula formula (Some ErrCycle)))
  else
    let t2 := withDeps t1 (fold_left (fun g dep => DepGraph.addEdge g dep addr)
                                     ds (deps t1)) in
    let t3 := match formula with
              | Sum rg => withRanges t2 (RangeWatchers.addWatch (ranges t2) rg addr)
              | Ref _ => t2
              end in
    let t4 := withCells t3 (CellStore.set (cells t3) addr (CFormula formula None)) in
    recalc t4 [addressKey addr].

Definition setFormula (t : Sheet) (pos : Position) (src : string) : Sheet :=
  match posToAddr t pos with
  | None => t
  | Some addr =>
      match Parser.parseFormula src pos (rows t) (cols t) with
      | None => withCells t (CellStore.set (cells t) addr (CValue ErrRef))
      | Some formula => installFormula t addr formula
      end
  end.

(** [None] stands for [undefined]. *)
Definition getValue (t : Sheet) (pos : Position) : option Scalar :=
  match posToAddr t pos with
  | None => None
  | Some addr =>
      match CellStore.get (cells t) addr with
      | None => None
      | Some (CValue v) => Some v
      | Some (CFormula _ cached) => cached
      end
  end.

Definition scalarToString (v : Scalar) : string :=
  match v with
  | Num n => string_of_list_ascii (Parser.numberToString n)
  | ErrRef => "#REF!"
  | ErrCycle => "#CYCLE!"
  end.

Definition getSource (t : Sheet) (pos : Position) : string :=
  match posToAddr t pos with
  | None => EmptyString
  | Some addr =>
      match CellStore.get (cells t) addr with
      | None => EmptyString
      | Some (CValue v) => scalarToString v
      | Some (CFormula ast _) => Parser.formatFormula ast (rows t) (cols t)
      end
  end.

Definition transformFormula (formula : Formula) (splice : Splice)
    (rowAxis colAxis : AxisIndex.t) : option Formula :=
  match formula with
  | Ref a =>
      match Transform.transformAnchor a splice rowAxis colAxis with
      | Some newRef => Some (Ref newRef)
      | None => None
      end
  | Sum rg =>
      match Transform.transformRange rg splice rowAxis colAxis with
      | Some newRange => Some (Sum newRange)
      | None => None
      end
  end.

(** One iteration of the first loop of [applySplice], on the entry
    [(key, cell)] of the store; the second component is [dirty].  The
    loop only overwrites the entry it is visiting, so the cell read from
    the iterator is the cell stored when the loop started. *)
Definition spliceStep (splice : Splice) (acc : Sheet * list Key)
    (entry : Key * Cell) : Sheet * list Key :=
  let (t, dirty) := acc in
  let (key, cell) := entry in
  match cell with
  | CValue _ => acc
  | CFormula formula cached =>
      let addr := parseAddressKey key in
      match transformFormula formula splice (rows t) (cols t) with
      | None =>
          (withDeps (withCells t (CellStore.set (cells t) addr (CValue ErrRef)))
                    (DepGraph.removeAll (deps t) addr),
           JS.add keyEqb dirty key)
      | Some newFormula =>
          (withCells t (CellStore.set (cells t) addr (CFormula newFormula cached)),
           JS.add keyEqb dirty key)
      end
  end.

Definition spliceAxis (ax : AxisIndex.t) (splice : Splice) : AxisIndex.t :=
  let ax1 := if 0 <? ins splice
             then fst (AxisIndex.insert ax (atPos splice) (ins splice))
             else ax in
  if 0 <? del splice
  then AxisIndex.remove ax1 (atPos splice) (atPos splice + del splice - 1)
  else ax1.

Definition applySplice (t : Sheet) (splice : Splice) : Sheet :=
  let (t1, dirty) :=
    fold_left (spliceStep splice) (CellStore.entries (cells t)) (t, []) in
  let t2 := match axis splice with
            | AxRow => withRows t1 (spliceAxis (rows t1) splice)
            | AxCol => withCols t1 (spliceAxis (cols t1) splice)
            end in
  recalc t2 dirty.

Definition insertRows (t : Sheet) (atPos count : Z) : Sheet :=
  applySplice t (mkSplice AxRow atPos 0 count).
Definition deleteRows (t : Sheet) (from to : Z) : Sheet :=
  let count := to - from + 1 in
  applySplice t (mkSplice AxRow from count 0).
Definition insertCols (t : Sheet) (atPos count : Z) : Sheet :=
  applySplice t (mkSplice AxCol atPos 0 count).
Definition deleteCols (t : Sheet) (from to : Z) : Sheet :=
  let count := to - from + 1 in
  applySplice t (mkSplice AxCol from count 0).

End Table.

(* ================================================================== *)
(** * Vocabulary of the properties *)
(* ================================================================== *)

(** States of an axis index reachable from the constructor by [insert] and
    [remove]. *)
Inductive axisReachable : AxisIndex.t -> Prop :=
| reach_create : forall n, axisReachable (AxisIndex.create n)
| reach_insert : forall ax atPos count,
    axisReachable ax -> axisReachable (fst (AxisIndex.insert ax atPos count))
| reach_remove : forall ax from to,
    axisReachable ax -> axisReachable (AxisIndex.remove ax from to).

(** The steady state of an axis: one segment starting at position 1 whose
    identifiers are pairwise distinct and were minted by this index. *)
Definition steady (ax : AxisIndex.t) : Prop :=
  exists l, AxisIndex.segments ax = [AxisIndex.mkSeg 1 l]
            /\ NoDup l
            /\ Forall (fun i => (i < AxisIndex.nextId ax)%nat) l.

(** The splices built by [insertRows], [deleteRows], [insertCols] and
    [deleteCols] at a 1-based position: they insert or delete, never both. *)
Definition publicSplice (s : Splice) : Prop :=
  1 <= atPos s /\ (del s = 0 \/ ins s = 0).

Definition axisOf (ax : Axis) (rowAxis colAxis : AxisIndex.t) : AxisIndex.t :=
  match ax with AxRow => rowAxis | AxCol => colAxis end.

Definition baseIdOn (ax : Axis) (a : Anchor) : AxisId :=
  match ax with AxRow => row (base a) | AxCol => col (base a) end.

Definition modeOn (ax : Axis) (a : Anchor) : RowColMode :=
  match ax with AxRow => rowMode a | AxCol => colMode a end.

Definition offsetOn (ax : Axis) (a : Anchor) : Z :=
  match ax with AxRow => dRow a | AxCol => dCol a end.

(** Position of the anchor's target along one axis: position of the base
    plus the offset. *)
Definition targetPosOn (ax : Axis) (a : Anchor) (rowAxis colAxis : AxisIndex.t)
    : option Z :=
  match AxisIndex.idToPos (axisOf ax rowAxis colAxis) (baseIdOn ax a) with
  | Some basePos => Some (basePos + offsetOn ax a)
  | None => None
  end.

(** Identifier the anchor resolves to along one axis. *)
Definition targetIdOn (ax : Axis) (a : Anchor) (rowAxis colAxis : AxisIndex.t)
    : option AxisId :=
  match targetPosOn ax a rowAxis colAxis with
  | Some p => AxisIndex.posToId (axisOf ax rowAxis colAxis) p
  | None => None
  end.

(** The two axis indexes after the index phase of [applySplice]. *)
Definition rowsAfter (s : Splice) (rowAxis : AxisIndex.t) : AxisIndex.t :=
  match axis s with AxRow => Table.spliceAxis rowAxis s | AxCol => rowAxis end.
Definition colsAfter (s : Splice) (colAxis : AxisIndex.t) : AxisIndex.t :=
  match axis s with AxRow => colAxis | AxCol => Table.spliceAxis colAxis s end.

(** Scalar a cell shows: its value, or the cached result of its formula. *)
Definition storedScalar (cell : Cell) : option Scalar :=
  match cell with
  | CValue v => Some v
  | CFormula _ cached => cached
  end.

Definition storeKeys (s : CellStore.t) : list Key := map fst s.

(** Two cells that differ at most in the cached value of a formula. *)
Definition sameUpToCache (c c' : Cell) : Prop :=
  match c, c' with
  | CValue v, CValue v' => v = v'
  | CFormula f _, CFormula f' _ => f = f'
  | _, _ => False
  end.

Definition storeUpToCache (s s' : CellStore.t) : Prop :=
  forall k, match JS.get keyEqb s k, JS.get keyEqb s' k with
            | Some c, Some c' => sameUpToCache c c'
            | None, None => True
            | _, _ => False
            end.

(** Position of the anchor's target on both axes. *)
Definition anchorTargetPosition (a : Anchor) (rowAxis colAxis : AxisIndex.t)
    : option Position :=
  match targetPosOn AxRow a rowAxis colAxis, targetPosOn AxCol a rowAxis colAxis with
  | Some tr, Some tc => Some (mkPos tr tc)
  | _, _ => None
  end.

(** Coordinate of a position along one axis. *)
Definition coordOn (ax : Axis) (pos : Position) : Z :=
  match ax with AxRow => r pos | AxCol => c pos end.

(** Stored entries whose key has not been reached yet: the pushes a
    breadth-first search can still make. *)
Definition pending (out : DepGraph.AdjMap) (reached : list Key) : nat :=
  fold_right (fun e n => if JS.has keyEqb reached (fst e) then n
                         else (length (snd e) + n)%nat) O out.

(** Nodes a depth-first visit may still enter. *)
Definition remaining (nodes : list Key) (st : Table.TopoState) : nat :=
  length (filter (fun n => negb (JS.has keyEqb (Table.visited st) n)
                           && negb (JS.has keyEqb (Table.temp st) n)) nodes).

Definition sortedCoversVisited (st : Table.TopoState) : Prop :=
  forall k, In k (Table.visited st) -> In k (Table.sorted st).

(** What one call of [visit] guarantees when it returns. *)
Definition visitPost (key : Key) (st st' : Table.TopoState) : Prop :=
  Table.temp st' = Table.temp st
  /\ (forall k, In k (Table.visited st) -> In k (Table.visited st'))
  /\ (forall k, In k (Table.sorted st) -> In k (Table.sorted st'))
  /\ (In key (Table.temp st) \/ In key (Table.visited st'))
  /\ (sortedCoversVisited st -> sortedCoversVisited st').

(** What the first loop of [applySplice] leaves in place of a cell. *)
Definition spliceCell (s : Splice) (rowAxis colAxis : AxisIndex.t) (cell : Cell) : Cell :=
  match cell with
  | CValue v => CValue v
  | CFormula f cached =>
      match Table.transformFormula f s rowAxis colAxis with
      | Some f' => CFormula f' cached
      | None => CValue ErrRef
      end
  end.

(** Segments that follow one another without gap or overlap from
    position [p]. *)
Fixpoint contiguous (p : Z) (segs : list AxisIndex.Segment) : Prop :=
  match segs with
  | [] => True
  | seg :: rest =>
      AxisIndex.startPos seg = p /\ contiguous (p + AxisIndex.segLen seg) rest
  end.

(** Sheets reachable through the public operations of [Table]. *)
Inductive tableReachable : Table.Sheet -> Prop :=
| reach_new : forall initialRows initialCols,
    tableReachable (Table.create initialRows initialCols)
| reach_setValue : forall t pos v,
    tableReachable t -> tableReachable (Table.setValue t pos v)
| reach_setFormula : forall t pos src,
    tableReachable t -> tableReachable (Table.setFormula t pos src)
| reach_insertRows : forall t atPos count,
    tableReachable t -> tableReachable (Table.insertRows t atPos count)
| reach_deleteRows : forall t from to,
    tableReachable t -> tableReachable (Table.deleteRows t from to)
| reach_insertCols : forall t atPos count,
    tableReachable t -> tableReachable (Table.insertCols t atPos count)
| reach_deleteCols : forall t from to,
    tableReachable t -> tableReachable (Table.deleteCols t from to).

(** The graph holds the edge from the cell at [from] to the cell keyed
    [toKey]. *)
Definition hasEdge (g : DepGraph.t) (from : Address) (toKey : Key) : Prop :=
  In toKey (DepGraph.getDependents g from).

(** Members of the set stored under a key, none when the key is absent. *)
Definition membersAt (m : DepGraph.AdjMap) (k : Key) : list Key :=
  match JS.get keyEqb m k with Some s => s | None => [] end.

(** Every address of the rectangle of the Sum stored under [kF] has an
    edge to it. *)
Definition edgesComplete (t : Table.Sheet) (kF : Key) : Prop :=
  forall rg cached,
    JS.get keyEqb (Table.cells t) kF = Some (CFormula (Sum rg) cached) ->
    forall x, In x (Table.expandRange t rg) -> hasEdge (Table.deps t) x kF.

(** Every stored Sum with a numeric cached value has an edge from every
    empty address of its rectangle. *)
Definition sumWatched (t : Table.Sheet) : Prop :=
  forall kF rg n,
    JS.get keyEqb (Table.cells t) kF = Some (CFormula (Sum rg) (Some (Num n))) ->
    forall x, In x (Table.expandRange t rg) ->
              CellStore.get (Table.cells t) x = None ->
              hasEdge (Table.deps t) x kF.


(* ================================================================== *)
(** * Vocabulary of the further properties *)
(* ================================================================== *)

Unset Implicit Arguments.

(** The optional group [(\$?)] of the reference pattern: whether the text
    starts with a dollar sign, and the text after it. *)
Definition optionalDollar (s : list ascii) : bool * list ascii :=
  match s with
  | "$"%char :: rest => (true, rest)
  | _ => (false, s)
  end.

(** Characters of a printed reference: dollar sign, capital letters and
    decimal digits. *)
Definition refChar (ch : ascii) : bool :=
  Parser.isUpper ch || Parser.isDigit ch || Ascii.eqb ch "$"%char.

(** The anchors a formula holds. *)
Definition anchorsOf (f : Formula) : list Anchor :=
  match f with
  | Ref a => [a]
  | Sum rg => [start rg; end_ rg]
  end.

(** Every identifier an axis index holds, segment by segment. *)
Definition allIds (ax : AxisIndex.t) : list AxisId :=
  flat_map AxisIndex.ids (AxisIndex.segments ax).

(** States an axis index can move to from [ax] by further [insert] and
    [remove] calls. *)
Inductive axisEvolves (ax : AxisIndex.t) : AxisIndex.t -> Prop :=
| evolve_here : axisEvolves ax ax
| evolve_insert : forall ax' atPos count,
    axisEvolves ax ax' -> axisEvolves ax (fst (AxisIndex.insert ax' atPos count))
| evolve_remove : forall ax' from to,
    axisEvolves ax ax' -> axisEvolves ax (AxisIndex.remove ax' from to).

(** The two adjacency maps of a graph describe the same edges. *)
Definition mirrored (g : DepGraph.t) : Prop :=
  forall a b, In b (membersAt (DepGraph.outgoing g) a)
              <-> In a (membersAt (DepGraph.incoming g) b).

(** Graphs built from the empty graph by the mutators of [DepGraph]. *)
Inductive graphReachable : DepGraph.t -> Prop :=
| graph_empty : graphReachable DepGraph.empty
| graph_addEdge : forall g from to,
    graphReachable g -> graphReachable (DepGraph.addEdge g from to)
| graph_replaceAllInbound : forall g node newFrom,
    graphReachable g -> graphReachable (DepGraph.replaceAllInbound g node newFrom)
| graph_removeAll : forall g node,
    graphReachable g -> graphReachable (DepGraph.removeAll g node).

(** A key reached from another along the edges of an adjacency map. *)
Inductive reaches (out : DepGraph.AdjMap) : Key -> Key -> Prop :=
| reaches_here : forall k, reaches out k k
| reaches_step : forall a b c,
    reaches out a b -> In c (membersAt out b) -> reaches out a c.

(** [d] stands before [k] in a list. *)
Definition before (l : list Key) (d k : Key) : Prop :=
  exists l1 l2 l3, l = l1 ++ d :: l2 ++ k :: l3.

(** The cell keyed [a] reads the cell keyed [b] through one or more
    recorded dependencies. *)
Inductive readsChain (g : DepGraph.t) : Key -> Key -> Prop :=
| chain_one : forall a b,
    In b (DepGraph.getDependencies g (parseAddressKey a)) -> readsChain g a b
| chain_more : forall a b c,
    In b (DepGraph.getDependencies g (parseAddressKey a)) ->
    readsChain g b c -> readsChain g a c.

(** What the depth-first visit keeps true of its state: the output has
    no duplicates, lists exactly the visited nodes, all of them among
    [nodes], and places every node after the nodes it reads, unless the
    two read each other in a cycle. *)
Definition topoInv (g : DepGraph.t) (nodes : list Key) (st : Table.TopoState) : Prop :=
  NoDup (Table.sorted st)
  /\ (forall k, In k (Table.sorted st) <-> In k (Table.visited st))
  /\ (forall k, In k (Table.sorted st) -> In k nodes)
  /\ (forall k d, In k (Table.sorted st) ->
                  In d (DepGraph.getDependencies g (parseAddressKey k)) ->
                  In d nodes ->
                  before (Table.sorted st) d k \/ readsChain g d k).

(** How one visit relates the state it returns to the state it was
    given. *)
Definition visitKeeps (g : DepGraph.t) (nodes : list Key)
    (st st' : Table.TopoState) : Prop :=
  Table.temp st' = Table.temp st
  /\ (exists ext, Table.sorted st' = Table.sorted st ++ ext)
  /\ (forall x, In x (Table.visited st) -> In x (Table.visited st'))
  /\ (forall x, In x (Table.visited st') ->
                In x (Table.visited st) \/ ~ In x (Table.temp st))
  /\ (topoInv g nodes st -> topoInv g nodes st').

(** Watcher tables built from the empty one by the mutators of
    [RangeWatchers]. *)
Inductive watchReachable : RangeWatchers.t -> Prop :=
| watch_empty : watchReachable RangeWatchers.empty
| watch_addWatch : forall w range formulaAt,
    watchReachable w -> watchReachable (RangeWatchers.addWatch w range formulaAt)
| watch_removeWatches : forall w formulaAt,
    watchReachable w -> watchReachable (RangeWatchers.removeWatches w formulaAt)
| watch_registerCell : forall w cellAddr formulaAt,
    watchReachable w -> watchReachable (RangeWatchers.registerCell w cellAddr formulaAt).

(** The splice deletes position [p]. *)
Definition spliceDeletes (s : Splice) (p : Z) : Prop :=
  0 < del s /\ atPos s <= p < atPos s + del s.

(** Every stored formula has a cached value. *)
Definition evaluated (s : CellStore.t) : Prop :=
  forall k f, JS.get keyEqb s k <> Some (CFormula f None).

(** Every anchor of a stored formula has the cell holding the formula as
    its base. *)
Definition based (s : CellStore.t) : Prop :=
  forall k f cached a,
    JS.get keyEqb s k = Some (CFormula f cached) ->
    In a (anchorsOf f) -> addressKey (base a) = k.

Set Implicit Arguments.

(* ================================================================== *)
(** * Concrete sheets used by the examples *)
(* ================================================================== *)

Module Scenario.
Import Table.

(** [new AxisIndex(3); insert(10, 3)]: the insert lands past the end and
    is appended as a second segment. *)
Definition twoSegments : AxisIndex.t :=
  fst (AxisIndex.insert (AxisIndex.create 3) 10 3).
Definition twoSegmentsRemoved : AxisIndex.t :=
  AxisIndex.remove twoSegments 2 2.

(** Rows appended past the end, a value in row 4 and [=A4] in row 5. *)
Definition relBefore : Sheet :=
  setFormula (setValue (insertRows (create 3 1) 10 3) (mkPos 4 1) 10)
             (mkPos 5 1) "=A4".
Definition relAfter : Sheet := deleteRows relBefore 2 2.
Definition relAnchor : Anchor := mkAnchor (mkAddress 4%nat 0%nat) rel rel (-1) 0.

(** Spec scenario 2: an absolute reference across a row insertion. *)
Definition absBefore : Sheet :=
  setFormula (setValue (create 5 3) (mkPos 1 1) 10) (mkPos 2 1) "=$A$1".
Definition absAfter : Sheet := insertRows absBefore 1 1.
Definition absAnchor : Anchor := mkAnchor (mkAddress 1%nat 0%nat) abs abs (-1) 0.

(** An absolute reference to a row below the edit point. *)
Definition absBelowBefore : Sheet := setFormula (create 6 1) (mkPos 1 1) "=$A$5".
Definition absBelowAfter : Sheet := insertRows absBelowBefore 3 1.
Definition absBelowAnchor : Anchor := mkAnchor (mkAddress 0%nat 0%nat) abs abs 4 0.

(** Spec scenario 3: SUM over empty cells, then a write into the range. *)
Definition sumBefore : Sheet := setFormula (create 5 3) (mkPos 5 1) "=SUM(A1:A4)".
Definition sumAfter : Sheet := setValue sumBefore (mkPos 2 1) 7.
Definition sumRange : RangeRef :=
  mkRange (mkAnchor (mkAddress 4%nat 0%nat) rel rel (-4) 0)
          (mkAnchor (mkAddress 4%nat 0%nat) rel rel (-1) 0).

(** A SUM whose rectangle holds its own cell is stored under the cycle
    policy. *)
Definition selfSumBefore : Sheet := setFormula (create 5 3) (mkPos 3 1) "=SUM(A1:A5)".
Definition selfSumAfter : Sheet := setValue selfSumBefore (mkPos 1 1) 7.
Definition selfSumRange : RangeRef :=
  mkRange (mkAnchor (mkAddress 2%nat 0%nat) rel rel (-2) 0)
          (mkAnchor (mkAddress 2%nat 0%nat) rel rel 2 0).

(** Spec scenario 4: two formulas that read each other. *)
Definition cycleFirst : Sheet := setFormula (create 5 3) (mkPos 1 1) "=A2".
Definition cycleSecond : Sheet := setFormula cycleFirst (mkPos 2 1) "=A1".

(** A formula written into a cell that a SUM reads. *)
Definition overwriteBefore : Sheet :=
  setFormula (setValue (create 5 2) (mkPos 1 2) 3) (mkPos 5 1) "=SUM(A1:A4)".
Definition overwriteAfter : Sheet := setFormula overwriteBefore (mkPos 1 1) "=B1".

(** A value cell, then every row deleted. *)
Definition wipeBefore : Sheet := setValue (create 3 3) (mkPos 1 1) 5.
Definition wipeAfter : Sheet := deleteRows wipeBefore 1 3.

(** A reference to a cell holding an error sentinel. *)
Definition errSheet : Sheet := setFormula (create 3 3) (mkPos 1 1) "oops".
Definition errReader : Sheet := setFormula errSheet (mkPos 2 1) "=A1".
Definition errAnchor : Anchor := mkAnchor (mkAddress 1%nat 0%nat) rel rel (-1) 0.

(** A self-reference, then an insert undone by a delete. *)
Definition selfRef : Sheet := setFormula (create 3 1) (mkPos 1 1) "=A1".


End Scenario.

(** Small graphs, watcher tables and sheets used by the examples of the
    further properties. *)
Module Sample.
Import Table.

(** Two edges in a row: A1 is read by A2, A2 is read by A3. *)
Definition chainGraph : DepGraph.t :=
  DepGraph.addEdge (DepGraph.addEdge DepGraph.empty (mkAddress 0 0) (mkAddress 1 0))
                   (mkAddress 1 0) (mkAddress 2 0).

(** One producer read by two cells, then the producers of the first of
    them replaced. *)
Definition fanGraph : DepGraph.t :=
  DepGraph.addEdge (DepGraph.addEdge DepGraph.empty (mkAddress 0 0) (mkAddress 2 0))
                   (mkAddress 0 0) (mkAddress 3 0).
Definition fanReplaced : DepGraph.t :=
  DepGraph.replaceAllInbound fanGraph (mkAddress 2 0) [mkAddress 1 0].

(** One cell watched by two formulas. *)
Definition twoWatchers : RangeWatchers.t :=
  RangeWatchers.registerCell
    (RangeWatchers.registerCell RangeWatchers.empty (mkAddress 0 0) (mkAddress 4 0))
    (mkAddress 0 0) (mkAddress 5 0).

(** A value in A1 and [=A1] in B1. *)
Definition readerSheet : Sheet :=
  setFormula (setValue (create 5 3) (mkPos 1 1) 5) (mkPos 1 2) "=A1".


End Sample.

(* ================================================================== *)
(** * The examples, evaluated *)
(* ================================================================== *)

Section Evaluated.
Import Table Scenario.

Local Ltac evaluate := vm_compute; repeat split; try reflexivity; try discriminate.

(** C9 (defect in [AxisIndex.remove]).  On the index built by
    [new AxisIndex(3); insert(10, 3); remove({from: 2, to: 2})] the
    second segment is shifted twice and overlaps the first: identifier
    [id3] is live and reports position 2, while position 2 is live and
    reports [id2].  The position/identifier mapping of a reachable index
    is not a bijection. *)
Theorem C9_remove_shifts_later_segment_twice :
  axisReachable twoSegmentsRemoved
  /\ AxisIndex.segments twoSegmentsRemoved
     = [AxisIndex.mkSeg 1 [0; 2]%nat; AxisIndex.mkSeg 2 [3; 4; 5]%nat]
  /\ AxisIndex.idToPos twoSegmentsRemoved 3%nat = Some 2
  /\ AxisIndex.posToId twoSegmentsRemoved 2 = Some 2%nat.
Proof.
  split.
  - unfold twoSegmentsRemoved, twoSegments.
    apply reach_remove, reach_insert, reach_create.
  - evaluate.
Qed.

(** C1 (same defect in [AxisIndex.remove]).  Rows are appended past the
    end, row 5 holds [=A4] and row 2 is deleted.  The relative anchor
    named [id3] before the splice; its base [id4] and [id3] both survive;
    the offset is recomputed once (it stays -1); yet after the splice the
    anchor resolves to [id2] and the formula reads 0 instead of 10. *)
Theorem C1_relative_anchor_loses_its_cell :
  CellStore.get (cells relBefore) (mkAddress 4 0)
    = Some (CFormula (Ref relAnchor) (Some (Num 10)))
  /\ targetIdOn AxRow relAnchor (rows relBefore) (cols relBefore) = Some 3%nat
  /\ Transform.transformAnchor relAnchor (mkSplice AxRow 2 1 0)
       (rows relBefore) (cols relBefore) = Some relAnchor
  /\ AxisIndex.idToPos (rows relAfter) 4%nat = Some 3
  /\ AxisIndex.idToPos (rows relAfter) 3%nat = Some 2
  /\ CellStore.get (cells relAfter) (mkAddress 4 0)
    = Some (CFormula (Ref relAnchor) (Some (Num 0)))
  /\ targetIdOn AxRow relAnchor (rows relAfter) (cols relAfter) = Some 2%nat.
Proof. evaluate. Qed.

(** C4 (defect in [Table.setFormula]).  After [setFormula(1,1,"=A2")] the
    graph holds the edge from (2,1) to (1,1), so the producer (1,1) of
    [setFormula(2,1,"=A1")] closes a cycle.  [setFormula] calls
    [removeAll] on (2,1) before it asks [wouldCreateCycle], which deletes
    that edge: the formula is stored with cached value 0, not [#CYCLE!],
    and the edge from (1,1) to (2,1) is installed. *)
Theorem C4_mutual_reference_is_not_detected :
  DepGraph.wouldCreateCycle (deps cycleFirst) (mkAddress 0 0) (mkAddress 1 0) = true
  /\ CellStore.get (cells cycleSecond) (mkAddress 1 0)
     = Some (CFormula (Ref (mkAnchor (mkAddress 1 0) rel rel (-1) 0)) (Some (Num 0)))
  /\ deps cycleSecond
     = DepGraph.mk [((0, 0), [(1, 0)])]%nat [((1, 0), [(0, 0)])]%nat.
Proof. evaluate. Qed.

(** C10 (defect in [Table.setFormula]).  A1 lies in the rectangle of the
    SUM stored at (5,1).  Writing the formula [=B1] into A1 calls
    [removeAll] on A1, which also deletes the edge from A1 to the SUM:
    after the operation the SUM has a numeric cached value, A1 is still in
    its resolved rectangle, and the graph has no edge from A1 to it; the
    SUM keeps 0 although A1 now shows 3. *)
Theorem C10_overwriting_a_summed_cell_drops_its_edge :
  CellStore.get (cells overwriteAfter) (mkAddress 4 0)
    = Some (CFormula (Sum sumRange) (Some (Num 0)))
  /\ In (mkAddress 0 0) (expandRange overwriteAfter sumRange)
  /\ ~ In (0, 0)%nat (DepGraph.getDependencies (deps overwriteAfter) (mkAddress 4 0))
  /\ ~ In (4, 0)%nat (DepGraph.getDependents (deps overwriteAfter) (mkAddress 0 0))
  /\ getValue overwriteAfter (mkPos 1 1) = Some (Num 3).
Proof.
  evaluate.
  - left; reflexivity.
  - intro H; vm_compute in H; intuition discriminate.
  - intro H; vm_compute in H; intuition discriminate.
Qed.

(** C2, refuted as stated: after a value is stored in row 1 and every row
    is deleted, the row index is empty and the store still holds the cell
    keyed by the retired identifier. *)
Lemma C2_store_keeps_retired_cells :
  AxisIndex.segments (rows wipeAfter) = []
  /\ AxisIndex.idToPos (rows wipeAfter) 0%nat = None
  /\ cells wipeAfter = [((0, 0)%nat, CValue (Num 5))].
Proof. evaluate. Qed.

(** C3, refuted as stated: A1 holds [#REF!], the anchor resolves to A1,
    and evaluating the reference yields 0, not the error. *)
Lemma C3_error_cell_reads_as_zero :
  Parser.anchorToAddress errAnchor (rows errReader) (cols errReader)
    = Some (mkAddress 0 0)
  /\ CellStore.get (cells errReader) (mkAddress 0 0) = Some (CValue ErrRef)
  /\ fst (evalFormula errReader (Ref errAnchor) (mkAddress 1 0)) = Num 0
  /\ fst (evalFormula errReader (Ref errAnchor) (mkAddress 1 0)) <> ErrRef
  /\ getValue errReader (mkPos 2 1) = Some (Num 0).
Proof. evaluate. Qed.

(** C5, refuted as stated: in spec scenario 2 the cell at (3,1) prints as
    [=$A$1] and reads 0, the content of the new row 1, not 10. *)
Lemma C5_pinned_reference_reads_new_row :
  getSource absAfter (mkPos 3 1) = "=$A$1"%string
  /\ getValue absAfter (mkPos 3 1) = Some (Num 0)
  /\ getValue absAfter (mkPos 3 1) <> Some (Num 10)
  /\ getValue absAfter (mkPos 2 1) = Some (Num 10).
Proof. evaluate. Qed.

(** C6, refuted as stated: an absolute anchor targets row 5 and one row
    is inserted at row 3.  The position map sends 5 to 6; the transformed
    anchor resolves at position 5. *)
Lemma C6_absolute_target_is_not_mapped :
  targetPosOn AxRow absBelowAnchor (rows absBelowBefore) (cols absBelowBefore)
    = Some 5
  /\ Transform.applySpliceToPos (mkSplice AxRow 3 0 1) 5 = Some 6
  /\ CellStore.get (cells absBelowAfter) (mkAddress 0 0)
     = Some (CFormula (Ref absBelowAnchor) (Some (Num 0)))
  /\ targetPosOn AxRow absBelowAnchor (rows absBelowAfter) (cols absBelowAfter)
     = Some 5
  /\ targetPosOn AxRow absBelowAnchor (rows absBelowAfter) (cols absBelowAfter)
     <> Some 6.
Proof. evaluate. Qed.


(** C8, refuted as stated: the SUM at (3,1) over A1:A5 is stored under the
    cycle policy, without edges.  A1 is empty and inside its rectangle;
    writing 7 into A1 leaves the SUM at [#CYCLE!], while evaluating it
    would give 7. *)
Lemma C8_cycle_stored_sum_is_not_reevaluated :
  CellStore.get (cells selfSumBefore) (mkAddress 2 0)
    = Some (CFormula (Sum selfSumRange) (Some ErrCycle))
  /\ In (mkAddress 0 0) (expandRange selfSumBefore selfSumRange)
  /\ CellStore.get (cells selfSumBefore) (mkAddress 0 0) = None
  /\ CellStore.get (cells selfSumAfter) (mkAddress 2 0)
     = Some (CFormula (Sum selfSumRange) (Some ErrCycle))
  /\ ~ In (2, 0)%nat (recalcOrder selfSumBefore [(0, 0)%nat])
  /\ fst (evalFormula selfSumAfter (Sum selfSumRange) (mkAddress 2 0)) = Num 7.
Proof.
  evaluate.
  - left; reflexivity.
  - intro H; vm_compute in H; intuition discriminate.
Qed.

End Evaluated.

(* ================================================================== *)
(** * Facts about the axis index *)
(* ================================================================== *)

Unset Implicit Arguments.

Section AxisFacts.
Import AxisIndex.
Local Arguments Z.add _ _ : simpl never.
Local Arguments Z.sub _ _ : simpl never.
Local Arguments Z.opp _ : simpl never.
Local Arguments Z.ltb _ _ : simpl never.
Local Arguments Z.leb _ _ : simpl never.
Local Arguments Z.min _ _ : simpl never.
Local Arguments Z.max _ _ : simpl never.
Local Arguments Z.of_nat _ : simpl never.
Local Arguments Z.to_nat _ : simpl never.

Lemma indexOf_Some_lt : forall l id i, indexOf l id = Some i -> (i < length l)%nat.
Proof.
  induction l as [|x l IH]; simpl; intros id i H; [discriminate|].
  destruct (Nat.eqb x id).
  - inversion H; lia.
  - destruct (indexOf l id) as [j|] eqn:E; [|discriminate].
    inversion H; subst. specialize (IH _ _ E). lia.
Qed.

Lemma indexOf_Some_nth : forall l id i, indexOf l id = Some i -> nth_error l i = Some id.
Proof.
  induction l as [|x l IH]; simpl; intros id i H; [discriminate|].
  destruct (Nat.eqb x id) eqn:Ex.
  - inversion H; subst. apply Nat.eqb_eq in Ex. subst. reflexivity.
  - destruct (indexOf l id) as [j|] eqn:E; [|discriminate].
    inversion H; subst. simpl. auto.
Qed.

Lemma indexOf_None_iff : forall l id, indexOf l id = None <-> ~ In id l.
Proof.
  induction l as [|x l IH]; simpl; intros id.
  - split; auto.
  - destruct (Nat.eqb x id) eqn:Ex.
    + apply Nat.eqb_eq in Ex. split; [discriminate|]. intros H; exfalso; apply H; auto.
    + apply Nat.eqb_neq in Ex. destruct (indexOf l id) eqn:E.
      * split; [discriminate|]. intros H. exfalso.
        assert (Hn : ~ In id l) by (intro; apply H; auto).
        apply IH in Hn. congruence.
      * split; auto. intros _ [H|H]; [congruence|]. apply (proj1 (IH id)); auto.
Qed.

Lemma indexOf_app : forall a b id,
  indexOf (a ++ b) id =
  match indexOf a id with
  | Some i => Some i
  | None => match indexOf b id with
            | Some j => Some (length a + j)%nat
            | None => None
            end
  end.
Proof.
  induction a as [|x a IH]; simpl; intros b id.
  - destruct (indexOf b id); reflexivity.
  - destruct (Nat.eqb x id); [reflexivity|].
    rewrite IH. destruct (indexOf a id); [reflexivity|].
    destruct (indexOf b id); reflexivity.
Qed.

Lemma indexOf_firstn : forall o l id i,
  indexOf l id = Some i ->
  indexOf (firstn o l) id = if (i <? o)%nat then Some i else None.
Proof.
  induction o as [|o IH]; intros l id i H.
  - simpl. destruct i; reflexivity.
  - destruct l as [|x l]; [discriminate|]. simpl in *.
    destruct (Nat.eqb x id); [inversion H; reflexivity|].
    destruct (indexOf l id) as [j|] eqn:E; [|discriminate].
    inversion H; subst. rewrite (IH _ _ _ E).
    change (S j <? S o)%nat with (j <? o)%nat.
    destruct (j <? o)%nat; reflexivity.
Qed.

Lemma in_skipn_in : forall (A : Type) d (l : list A) x, In x (skipn d l) -> In x l.
Proof.
  intros A d l x H. rewrite <- (firstn_skipn d l). apply in_or_app. right. exact H.
Qed.

Lemma indexOf_skipn : forall d l id i,
  NoDup l -> indexOf l id = Some i ->
  indexOf (skipn d l) id = if (i <? d)%nat then None else Some (i - d)%nat.
Proof.
  induction d as [|d IH]; intros l id i ND H.
  - simpl. rewrite Nat.sub_0_r. exact H.
  - destruct l as [|x l]; [discriminate|]. simpl in H. simpl skipn.
    inversion ND as [|? ? Hx ND']; subst.
    destruct (Nat.eqb x id) eqn:Ex.
    + inversion H; subst. apply Nat.eqb_eq in Ex; subst.
      simpl. apply indexOf_None_iff. intro Hin. apply Hx.
      eapply in_skipn_in; eauto.
    + destruct (indexOf l id) as [j|] eqn:E; [|discriminate].
      inversion H; subst. rewrite (IH _ _ _ ND' E).
      change (S j <? S d)%nat with (j <? d)%nat.
      destruct (j <? d)%nat; reflexivity.
Qed.

Lemma splice_insert : forall (l new : list AxisId) o,
  0 <= o <= Z.of_nat (length l) ->
  JS.splice l o 0 new = firstn (Z.to_nat o) l ++ new ++ skipn (Z.to_nat o) l.
Proof.
  intros l new o Ho. unfold JS.splice.
  destruct (o <? 0) eqn:E; [apply Z.ltb_lt in E; lia|].
  rewrite Z.min_l by lia.
  replace (Z.min (Z.max 0 0) (Z.of_nat (length l) - o)) with 0 by lia.
  rewrite Z.add_0_r. reflexivity.
Qed.

Lemma splice_delete : forall (l : list AxisId) o d,
  0 <= o -> 0 <= d -> o + d <= Z.of_nat (length l) ->
  JS.splice l o d [] = firstn (Z.to_nat o) l ++ skipn (Z.to_nat (o + d)) l.
Proof.
  intros l o d Ho Hd Hod. unfold JS.splice.
  destruct (o <? 0) eqn:E; [apply Z.ltb_lt in E; lia|].
  rewrite Z.min_l by lia.
  replace (Z.min (Z.max d 0) (Z.of_nat (length l) - o)) with d by lia.
  reflexivity.
Qed.

Lemma idToPos_one_segment : forall p l n id,
  idToPos (mk [mkSeg p l] n) id =
  match indexOf l id with Some i => Some (p + Z.of_nat i) | None => None end.
Proof. intros. unfold idToPos. simpl. destruct (indexOf l id); reflexivity. Qed.

Lemma indexOf_mint_fresh : forall l n count id i,
  Forall (fun j => (j < n)%nat) l -> indexOf l id = Some i ->
  indexOf (mint n count) id = None.
Proof.
  intros l n count id i HF H. apply indexOf_None_iff. unfold mint.
  intro Hin. apply in_seq in Hin.
  apply indexOf_Some_nth in H. apply nth_error_In in H.
  rewrite Forall_forall in HF. specialize (HF _ H). lia.
Qed.

Lemma steady_idToPos_bounds : forall l id i,
  indexOf l id = Some i -> 1 <= 1 + Z.of_nat i <= Z.of_nat (length l).
Proof. intros l id i H. apply indexOf_Some_lt in H. lia. Qed.

Lemma spliceAxis_idToPos : forall ax s id p,
  steady ax -> publicSplice s ->
  idToPos ax id = Some p ->
  idToPos (Table.spliceAxis ax s) id = Transform.applySpliceToPos s p.
Proof.
  intros [segs n] s id p (l & Hseg & ND & HF) [Hat Hpub] Hp.
  simpl in Hseg, HF. subst segs.
  rewrite idToPos_one_segment in Hp.
  destruct (indexOf l id) as [i|] eqn:Ei; [|discriminate].
  inversion Hp; subst p; clear Hp.
  pose proof (indexOf_Some_lt _ _ _ Ei) as Hlt.
  unfold Table.spliceAxis, Transform.applySpliceToPos.
  destruct (0 <? del s) eqn:Hdel; destruct (0 <? ins s) eqn:Hins;
    try apply Z.ltb_lt in Hdel; try apply Z.ltb_ge in Hdel;
    try apply Z.ltb_lt in Hins; try apply Z.ltb_ge in Hins; try lia.
  - (* delete *)
    unfold remove. simpl segments. unfold idToPos. simpl.
    unfold shiftSeg, segLen. simpl.
    destruct (atPos s + del s - 1 <? 1 + 0) eqn:E1; [apply Z.ltb_lt in E1; lia|].
    destruct (1 + 0 + Z.of_nat (length l) - 1 <? atPos s) eqn:E2.
    + apply Z.ltb_lt in E2. simpl. rewrite Ei.
      destruct ((atPos s <=? 1 + Z.of_nat i) && (1 + Z.of_nat i <? atPos s + del s)) eqn:E3.
      { apply andb_true_iff in E3. destruct E3 as [E3 _]. apply Z.leb_le in E3. lia. }
      destruct (atPos s + del s <=? 1 + Z.of_nat i) eqn:E4; [apply Z.leb_le in E4; lia|].
      f_equal; lia.
    + apply Z.ltb_ge in E2.
      rewrite splice_delete by lia.
      set (ids' := firstn _ l ++ skipn _ l).
      assert (Hidx : indexOf ids' id =
                if (i <? Z.to_nat (atPos s - 1))%nat then Some i
                else if (i <? Z.to_nat (atPos s - 1 + (Z.min (atPos s + del s - 1) (Z.of_nat (length l)) - atPos s + 1)))%nat
                     then None
                     else Some (i - Z.to_nat ((Z.min (atPos s + del s - 1) (Z.of_nat (length l)) - atPos s + 1)))%nat).
      { unfold ids'. rewrite indexOf_app.
        replace (Z.max (atPos s) (1 + 0) - (1 + 0)) with (atPos s - 1) by lia.
        replace (Z.min (atPos s + del s - 1) (1 + 0 + Z.of_nat (length l) - 1))
          with (Z.min (atPos s + del s - 1) (Z.of_nat (length l))) by lia.
        replace (Z.max (atPos s) (1 + 0)) with (atPos s) by lia.
        rewrite (indexOf_firstn _ _ _ _ Ei).
        destruct (i <? Z.to_nat (atPos s - 1))%nat eqn:F1; [reflexivity|].
        rewrite (indexOf_skipn _ _ _ _ ND Ei).
        destruct (i <? Z.to_nat (atPos s - 1 + (Z.min (atPos s + del s - 1) (Z.of_nat (length l)) - atPos s + 1)))%nat eqn:F2;
          [reflexivity|].
        rewrite length_firstn. apply Nat.ltb_ge in F1, F2. f_equal; lia. }
      assert (Hres : idToPos_segs (match ids' with [] => [] | _ :: _ => [mkSeg (1 + 0) ids'] end) id
                     = match indexOf ids' id with Some j => Some (1 + Z.of_nat j) | None => None end).
      { destruct ids' eqn:Eids; simpl; [reflexivity|].
        destruct (Nat.eqb a id); [reflexivity|].
        destruct (indexOf l0 id); reflexivity. }
      rewrite Hres, Hidx. clear Hres Hidx.
      destruct (i <? Z.to_nat (atPos s - 1))%nat eqn:F1.
      * apply Nat.ltb_lt in F1.
        destruct ((atPos s <=? 1 + Z.of_nat i) && (1 + Z.of_nat i <? atPos s + del s)) eqn:E3.
        { apply andb_true_iff in E3. destruct E3 as [E3 _]. apply Z.leb_le in E3. lia. }
        destruct (atPos s + del s <=? 1 + Z.of_nat i) eqn:E4; [apply Z.leb_le in E4; lia|].
        reflexivity.
      * apply Nat.ltb_ge in F1.
        destruct (i <? Z.to_nat (atPos s - 1 + (Z.min (atPos s + del s - 1) (Z.of_nat (length l)) - atPos s + 1)))%nat eqn:F2.
        -- apply Nat.ltb_lt in F2.
           destruct ((atPos s <=? 1 + Z.of_nat i) && (1 + Z.of_nat i <? atPos s + del s)) eqn:E3; [reflexivity|].
           apply andb_false_iff in E3. destruct E3 as [E3|E3];
             [apply Z.leb_gt in E3 | apply Z.ltb_ge in E3]; lia.
        -- apply Nat.ltb_ge in F2.
           destruct ((atPos s <=? 1 + Z.of_nat i) && (1 + Z.of_nat i <? atPos s + del s)) eqn:E3.
           { apply andb_true_iff in E3. destruct E3 as [E3 E3']. apply Z.leb_le in E3. apply Z.ltb_lt in E3'. lia. }
           destruct (atPos s + del s <=? 1 + Z.of_nat i) eqn:E4.
           ++ apply Z.leb_le in E4. f_equal; lia.
           ++ apply Z.leb_gt in E4. lia.
  - (* insert *)
    unfold insert. simpl segments. simpl nextId. simpl insert_segs.
    unfold segLen. simpl ids. simpl startPos.
    destruct ((1 <=? atPos s) && (atPos s <=? 1 + Z.of_nat (length l) - 1 + 1)) eqn:E1.
    + apply andb_true_iff in E1. destruct E1 as [E1 E1']. apply Z.leb_le in E1, E1'.
      simpl fst. rewrite idToPos_one_segment.
      rewrite splice_insert by lia.
      rewrite indexOf_app, (indexOf_firstn _ _ _ _ Ei).
      destruct (i <? Z.to_nat (atPos s - 1))%nat eqn:F1.
      * apply Nat.ltb_lt in F1.
        destruct (atPos s <=? 1 + Z.of_nat i) eqn:E4; [apply Z.leb_le in E4; lia|reflexivity].
      * apply Nat.ltb_ge in F1.
        rewrite indexOf_app, (indexOf_mint_fresh _ _ _ _ _ HF Ei).
        rewrite (indexOf_skipn _ _ _ _ ND Ei).
        replace (i <? Z.to_nat (atPos s - 1))%nat with false by (symmetry; apply Nat.ltb_ge; lia).
        destruct (atPos s <=? 1 + Z.of_nat i) eqn:E4; [|apply Z.leb_gt in E4; lia].
        rewrite length_firstn. unfold mint. rewrite length_seq. f_equal; lia.
    + apply andb_false_iff in E1. destruct E1 as [E1|E1]; [apply Z.leb_gt in E1; lia|].
      apply Z.leb_gt in E1. simpl fst. unfold idToPos. simpl. rewrite Ei.
      destruct (atPos s <=? 1 + Z.of_nat i) eqn:E4; [apply Z.leb_le in E4; lia|reflexivity].
  - rewrite idToPos_one_segment, Ei. reflexivity.
Qed.

End AxisFacts.

(* ================================================================== *)
(** * Facts about maps and the store *)
(* ================================================================== *)

Section StoreFacts.

Lemma keyEqb_eq : forall a b : Key, keyEqb a b = true <-> a = b.
Proof.
  intros [a1 a2] [b1 b2]. unfold keyEqb. simpl.
  rewrite andb_true_iff, !Nat.eqb_eq. split.
  - intros [-> ->]; reflexivity.
  - intros H; inversion H; auto.
Qed.

Lemma keyEqb_refl : forall a : Key, keyEqb a a = true.
Proof. intros a. apply keyEqb_eq. reflexivity. Qed.

Lemma keyEqb_neq : forall a b : Key, keyEqb a b = false <-> a <> b.
Proof.
  intros a b. split.
  - intros H E. apply keyEqb_eq in E. congruence.
  - intros H. destruct (keyEqb a b) eqn:E; [|reflexivity].
    apply keyEqb_eq in E. contradiction.
Qed.

Lemma key_parse_roundtrip : forall k : Key, addressKey (parseAddressKey k) = k.
Proof. intros [a b]. reflexivity. Qed.

Lemma get_set : forall (V : Type) (m : list (Key * V)) k v k',
  JS.get keyEqb (JS.set keyEqb m k v) k' =
  if keyEqb k' k then Some v else JS.get keyEqb m k'.
Proof.
  intros V m k v k'. induction m as [|[k0 v0] m IH]; simpl.
  - reflexivity.
  - destruct (keyEqb k k0) eqn:E.
    + apply keyEqb_eq in E. subst k0. simpl.
      destruct (keyEqb k' k); reflexivity.
    + simpl. destruct (keyEqb k' k0) eqn:E'.
      * apply keyEqb_eq in E'. subst k0.
        destruct (keyEqb k' k) eqn:E''; [|reflexivity].
        apply keyEqb_eq in E''. subst. rewrite keyEqb_refl in E. discriminate.
      * exact IH.
Qed.

Lemma get_Some_in_keys : forall (V : Type) (m : list (Key * V)) k v,
  JS.get keyEqb m k = Some v -> In k (map fst m).
Proof.
  intros V m k v. induction m as [|[k0 v0] m IH]; simpl; [discriminate|].
  destruct (keyEqb k k0) eqn:E.
  - apply keyEqb_eq in E. auto.
  - auto.
Qed.

Lemma set_keys_present : forall (V : Type) (m : list (Key * V)) k v,
  In k (map fst m) -> map fst (JS.set keyEqb m k v) = map fst m.
Proof.
  intros V m k v. induction m as [|[k0 v0] m IH]; simpl; [tauto|].
  intros [H|H].
  - subst. rewrite keyEqb_refl. reflexivity.
  - destruct (keyEqb k k0); simpl; [reflexivity|]. f_equal. auto.
Qed.

Lemma get_in_NoDup : forall (V : Type) (m : list (Key * V)) k v,
  NoDup (map fst m) -> In (k, v) m -> JS.get keyEqb m k = Some v.
Proof.
  intros V m k v. induction m as [|[k0 v0] m IH]; simpl; [tauto|].
  intros ND [H|H].
  - inversion H; subst. rewrite keyEqb_refl. reflexivity.
  - inversion ND as [|? ? Hn ND']; subst.
    destruct (keyEqb k k0) eqn:E.
    + apply keyEqb_eq in E. subst. exfalso. apply Hn.
      change k0 with (fst (k0, v)). apply in_map. exact H.
    + auto.
Qed.

End StoreFacts.

(* ================================================================== *)
(** * Frame facts about the coordinator *)
(* ================================================================== *)

Section TableFrame.
Import Table.

Lemma sameUpToCache_refl : forall cell, sameUpToCache cell cell.
Proof. intros cell; destruct cell; simpl; reflexivity. Qed.

Lemma storeUpToCache_refl : forall s, storeUpToCache s s.
Proof.
  intros s k. destruct (JS.get keyEqb s k); [apply sameUpToCache_refl|exact I].
Qed.

Lemma storeUpToCache_trans : forall s1 s2 s3,
  storeUpToCache s1 s2 -> storeUpToCache s2 s3 -> storeUpToCache s1 s3.
Proof.
  intros s1 s2 s3 H12 H23 k. specialize (H12 k). specialize (H23 k).
  destruct (JS.get keyEqb s1 k) as [c1|], (JS.get keyEqb s2 k) as [c2|],
           (JS.get keyEqb s3 k) as [c3|]; try tauto.
  destruct c1, c2, c3; simpl in *; try tauto; congruence.
Qed.

Lemma evalFormula_frame : forall t f a,
  rows (snd (evalFormula t f a)) = rows t
  /\ cols (snd (evalFormula t f a)) = cols t
  /\ cells (snd (evalFormula t f a)) = cells t.
Proof.
  intros t f a. destruct f as [an|rg]; simpl.
  - destruct (Parser.anchorToAddress an (rows t) (cols t)); simpl; auto.
    destruct (CellStore.get (cells t) a0) as [[v|f c]|]; simpl; auto.
  - auto.
Qed.

Lemma recalcStep_frame : forall t key,
  rows (recalcStep t key) = rows t
  /\ cols (recalcStep t key) = cols t
  /\ storeKeys (cells (recalcStep t key)) = storeKeys (cells t)
  /\ storeUpToCache (cells t) (cells (recalcStep t key)).
Proof.
  intros t key. unfold recalcStep.
  destruct (CellStore.get (cells t) (parseAddressKey key)) as [[v|f c]|] eqn:E;
    [repeat split; auto using storeUpToCache_refl | |
     repeat split; auto using storeUpToCache_refl].
  destruct (evalFormula_frame t f (parseAddressKey key)) as (Hr & Hc & Hs).
  destruct (evalFormula t f (parseAddressKey key)) as [v t1]. simpl in *.
  unfold CellStore.get, CellStore.set in *. rewrite key_parse_roundtrip in *.
  rewrite Hs. repeat split; auto.
  - unfold storeKeys. apply set_keys_present. eapply get_Some_in_keys; eauto.
  - intros k. rewrite get_set. destruct (keyEqb k key) eqn:Ek.
    + apply keyEqb_eq in Ek. subst. rewrite E. simpl. reflexivity.
    + destruct (JS.get keyEqb (cells t) k); [apply sameUpToCache_refl|exact I].
Qed.

Lemma recalcLoop_frame : forall keys t,
  rows (fold_left recalcStep keys t) = rows t
  /\ cols (fold_left recalcStep keys t) = cols t
  /\ storeKeys (cells (fold_left recalcStep keys t)) = storeKeys (cells t)
  /\ storeUpToCache (cells t) (cells (fold_left recalcStep keys t)).
Proof.
  induction keys as [|k keys IH]; intros t; simpl.
  - repeat split; auto using storeUpToCache_refl.
  - destruct (IH (recalcStep t k)) as (H1 & H2 & H3 & H4).
    destruct (recalcStep_frame t k) as (G1 & G2 & G3 & G4).
    repeat split; try congruence.
    eapply storeUpToCache_trans; eauto.
Qed.

Lemma recalc_frame : forall t dirty,
  rows (recalc t dirty) = rows t
  /\ cols (recalc t dirty) = cols t
  /\ storeKeys (cells (recalc t dirty)) = storeKeys (cells t)
  /\ storeUpToCache (cells t) (cells (recalc t dirty)).
Proof. intros. unfold recalc. apply recalcLoop_frame. Qed.

Lemma spliceStep_frame : forall s t d e,
  In (fst e) (storeKeys (cells t)) ->
  rows (fst (spliceStep s (t, d) e)) = rows t
  /\ cols (fst (spliceStep s (t, d) e)) = cols t
  /\ storeKeys (cells (fst (spliceStep s (t, d) e))) = storeKeys (cells t).
Proof.
  intros s t d [key cell] Hin. simpl in Hin. unfold spliceStep.
  destruct cell as [v|f c]; simpl; auto.
  destruct (transformFormula f s (rows t) (cols t)); simpl;
    unfold CellStore.set; rewrite key_parse_roundtrip;
    repeat split; auto; apply set_keys_present; exact Hin.
Qed.

Lemma spliceLoop_frame : forall s entries t d,
  incl (map fst entries) (storeKeys (cells t)) ->
  rows (fst (fold_left (spliceStep s) entries (t, d))) = rows t
  /\ cols (fst (fold_left (spliceStep s) entries (t, d))) = cols t
  /\ storeKeys (cells (fst (fold_left (spliceStep s) entries (t, d))))
     = storeKeys (cells t).
Proof.
  intros s entries. induction entries as [|e entries IH]; intros t d Hincl; simpl.
  - auto.
  - assert (He : In (fst e) (storeKeys (cells t))) by (apply Hincl; simpl; auto).
    destruct (spliceStep_frame s t d e He) as (G1 & G2 & G3).
    destruct (spliceStep s (t, d) e) as [t1 d1] eqn:E. simpl in *.
    assert (Hincl' : incl (map fst entries) (storeKeys (cells t1))).
    { rewrite G3. intros x Hx. apply Hincl. simpl. auto. }
    destruct (IH t1 d1 Hincl') as (H1 & H2 & H3).
    repeat split; congruence.
Qed.

Lemma applySplice_frame : forall t s,
  rows (applySplice t s) = rowsAfter s (rows t)
  /\ cols (applySplice t s) = colsAfter s (cols t)
  /\ storeKeys (cells (applySplice t s)) = storeKeys (cells t).
Proof.
  intros t s. unfold applySplice.
  destruct (spliceLoop_frame s (CellStore.entries (cells t)) t []) as (H1 & H2 & H3).
  { unfold CellStore.entries, storeKeys. apply incl_refl. }
  destruct (fold_left (spliceStep s) (CellStore.entries (cells t)) (t, [])) as [t1 dirty].
  simpl in *.
  unfold rowsAfter, colsAfter.
  destruct (axis s);
    match goal with |- context [recalc ?x dirty] =>
      destruct (recalc_frame x dirty) as (R1 & R2 & R3 & _) end;
    simpl in *; repeat split; congruence.
Qed.

End TableFrame.

(* ================================================================== *)
(** * The splice transformation against the index *)
(* ================================================================== *)

Section SpliceFacts.
Import Table.

Lemma transformAnchor_inv : forall a s rowAxis colAxis a',
  Transform.transformAnchor a s rowAxis colAxis = Some a' ->
  exists bp nb nt,
    AxisIndex.idToPos (axisOf (axis s) rowAxis colAxis) (baseIdOn (axis s) a) = Some bp
    /\ Transform.applySpliceToPos s bp = Some nb
    /\ match modeOn (axis s) a with
       | rel => Transform.applySpliceToPos s (bp + offsetOn (axis s) a)
       | abs => Some (bp + offsetOn (axis s) a)
       end = Some nt
    /\ a' = match axis s with
            | AxRow => mkAnchor (base a) (rowMode a) (colMode a) (nt - nb) (dCol a)
            | AxCol => mkAnchor (base a) (rowMode a) (colMode a) (dRow a) (nt - nb)
            end.
Proof.
  intros a s rowAxis colAxis a' H. unfold Transform.transformAnchor in H.
  destruct (axis s); simpl in *.
  - destruct (AxisIndex.idToPos rowAxis (row (base a))) as [bp|] eqn:Eb; [|discriminate].
    destruct (Transform.applySpliceToPos s bp) as [nb|] eqn:En; [|discriminate].
    destruct (match rowMode a with
              | rel => Transform.applySpliceToPos s (bp + dRow a)
              | abs => Some (bp + dRow a)
              end) as [nt|] eqn:E; [|discriminate].
    inversion H; subst. exists bp, nb, nt. repeat split; auto.
  - destruct (AxisIndex.idToPos colAxis (col (base a))) as [bp|] eqn:Eb; [|discriminate].
    destruct (Transform.applySpliceToPos s bp) as [nb|] eqn:En; [|discriminate].
    destruct (match colMode a with
              | rel => Transform.applySpliceToPos s (bp + dCol a)
              | abs => Some (bp + dCol a)
              end) as [nt|] eqn:E; [|discriminate].
    inversion H; subst. exists bp, nb, nt. repeat split; auto.
Qed.

(** Position of the base after the index phase of a splice. *)
Lemma basePos_after_splice : forall t s a bp nb,
  steady (axisOf (axis s) (rows t) (cols t)) -> publicSplice s ->
  AxisIndex.idToPos (axisOf (axis s) (rows t) (cols t)) (baseIdOn (axis s) a) = Some bp ->
  Transform.applySpliceToPos s bp = Some nb ->
  AxisIndex.idToPos
    (axisOf (axis s) (rows (applySplice t s)) (cols (applySplice t s)))
    (baseIdOn (axis s) a) = Some nb.
Proof.
  intros t s a bp nb Hst Hpub Hbp Hnb.
  destruct (applySplice_frame t s) as (Hr & Hc & _).
  rewrite Hr, Hc. unfold rowsAfter, colsAfter.
  destruct (axis s); simpl in *;
    erewrite spliceAxis_idToPos by eauto; exact Hnb.
Qed.

(** C2, amended.  No structural operation removes a cell from the store:
    after any splice (so after [insertRows], [deleteRows], [insertCols]
    and [deleteCols]) the store holds exactly the keys it held before, in
    the same order, the keys of retired identifiers included.  Deleting
    every position of an axis leaves the size of the store unchanged. *)
Theorem C2_splice_keeps_every_store_key : forall (t : Sheet) (s : Splice),
  storeKeys (cells (applySplice t s)) = storeKeys (cells t).
Proof. intros t s. apply applySplice_frame. Qed.

(** C3, amended.  A reference whose anchor resolves to a stored cell that
    shows an error sentinel evaluates to 0 and leaves the sheet as it is:
    error values do not propagate through [Ref].  The only error a
    reference evaluates to is [#REF!], and exactly when its anchor does not
    resolve. *)
Theorem C3_reference_to_error_cell_reads_zero :
  forall (t : Sheet) (a : Anchor) (formulaAddr addr : Address) (cell : Cell) (e : Scalar),
    Parser.anchorToAddress a (rows t) (cols t) = Some addr ->
    CellStore.get (cells t) addr = Some cell ->
    storedScalar cell = Some e ->
    isNumber e = false ->
    evalFormula t (Ref a) formulaAddr = (Num 0, t)
    /\ (forall a' : Anchor,
          fst (evalFormula t (Ref a') formulaAddr) = ErrRef
          <-> Parser.anchorToAddress a' (rows t) (cols t) = None)
    /\ (forall a' : Anchor, fst (evalFormula t (Ref a') formulaAddr) <> ErrCycle).
Proof.
  intros t a fa addr cell e Ha Hc Hs He. split; [|split].
  - simpl. rewrite Ha, Hc. destruct cell as [v|f cached]; simpl in Hs.
    + inversion Hs; subst. destruct e; [discriminate|reflexivity|reflexivity].
    + subst cached. destruct e; [discriminate|reflexivity|reflexivity].
  - intros a'. simpl.
    destruct (Parser.anchorToAddress a' (rows t) (cols t)) as [ad|]; simpl.
    + split; [|discriminate].
      destruct (CellStore.get (cells t) ad) as [[v|f cached]|]; simpl;
        try destruct v; try destruct cached as [[| |]|]; discriminate.
    + split; reflexivity.
  - intros a'. simpl.
    destruct (Parser.anchorToAddress a' (rows t) (cols t)) as [ad|]; simpl;
      [|discriminate].
    destruct (CellStore.get (cells t) ad) as [[v|f cached]|]; simpl;
      try destruct v; try destruct cached as [[| |]|]; discriminate.
Qed.

(** The reference in row 2 of the error scenario: A1 holds [#REF!]. *)
Lemma C3_reference_to_error_cell_reads_zero_witness :
  Parser.anchorToAddress Scenario.errAnchor
    (rows Scenario.errReader) (cols Scenario.errReader) = Some (mkAddress 0 0)
  /\ CellStore.get (cells Scenario.errReader) (mkAddress 0 0) = Some (CValue ErrRef)
  /\ evalFormula Scenario.errReader (Ref Scenario.errAnchor) (mkAddress 1 0)
     = (Num 0, Scenario.errReader).
Proof.
  split; [reflexivity|]. split; [reflexivity|].
  apply (C3_reference_to_error_cell_reads_zero Scenario.errReader Scenario.errAnchor
           (mkAddress 1 0) (mkAddress 0 0) (CValue ErrRef) ErrRef);
    reflexivity.
Defined.

(** C5, amended.  On an axis held as one segment starting at position 1,
    for a splice built by a public operation at an edit point of at least
    1, and for an anchor whose mode along the splice axis is absolute and
    which survives the transformation: after the splice the target position
    of the transformed anchor along that axis is exactly its pre-splice
    target position, and base and modes are unchanged.  The target is
    pinned to the position, not to the cell that stood there. *)
Theorem C5_absolute_target_position_is_pinned :
  forall (t : Sheet) (s : Splice) (a a' : Anchor) (tp : Z),
    steady (axisOf (axis s) (rows t) (cols t)) ->
    publicSplice s ->
    modeOn (axis s) a = abs ->
    targetPosOn (axis s) a (rows t) (cols t) = Some tp ->
    Transform.transformAnchor a s (rows t) (cols t) = Some a' ->
    targetPosOn (axis s) a' (rows (applySplice t s)) (cols (applySplice t s)) = Some tp
    /\ base a' = base a /\ rowMode a' = rowMode a /\ colMode a' = colMode a.
Proof.
  intros t s a a' tp Hst Hpub Hmode Htp Htr.
  destruct (transformAnchor_inv _ _ _ _ _ Htr) as (bp & nb & nt & Hbp & Hnb & Hnt & Ha').
  pose proof (basePos_after_splice t s a bp nb Hst Hpub Hbp Hnb) as Hafter.
  rewrite Hmode in Hnt. inversion Hnt; subst nt; clear Hnt.
  unfold targetPosOn in Htp. rewrite Hbp in Htp. inversion Htp; subst tp; clear Htp.
  split.
  - unfold targetPosOn.
    replace (baseIdOn (axis s) a') with (baseIdOn (axis s) a)
      by (subst a'; destruct (axis s); reflexivity).
    rewrite Hafter. f_equal. subst a'. destruct (axis s); simpl; lia.
  - subst a'. destruct (axis s); simpl; auto.
Qed.

(** Spec scenario 2: the anchor of [=$A$1] across [insertRows(1,1)]. *)
Lemma C5_absolute_target_position_is_pinned_witness :
  steady (rows Scenario.absBefore)
  /\ targetPosOn AxRow Scenario.absAnchor
       (rows Scenario.absBefore) (cols Scenario.absBefore) = Some 1
  /\ targetPosOn AxRow (mkAnchor (mkAddress 1 0) abs abs (-2) 0)
       (rows (applySplice Scenario.absBefore (mkSplice AxRow 1 0 1)))
       (cols (applySplice Scenario.absBefore (mkSplice AxRow 1 0 1))) = Some 1.
Proof.
  assert (Hst : steady (rows Scenario.absBefore)).
  { exists [0; 1; 2; 3; 4]%nat. split; [reflexivity|]. split.
    - repeat constructor; simpl; intuition discriminate.
    - repeat constructor. }
  split; [exact Hst|]. split; [reflexivity|].
  apply (C5_absolute_target_position_is_pinned Scenario.absBefore
           (mkSplice AxRow 1 0 1) Scenario.absAnchor
           (mkAnchor (mkAddress 1 0) abs abs (-2) 0) 1).
  - exact Hst.
  - unfold publicSplice; simpl; lia.
  - reflexivity.
  - reflexivity.
  - reflexivity.
Defined.

(** C6, amended.  Under the same conditions the address the transformed
    anchor resolves to after the splice is the address found at the
    anchor's pre-splice target position, unchanged: the position map of
    the splice is not applied to the target of an absolute anchor.  The
    resolved position is the image of the pre-splice position under that
    map only when the position lies before the edit point or the splice
    is empty. *)
Theorem C6_absolute_target_keeps_its_position :
  forall (t : Sheet) (s : Splice) (a a' : Anchor) (pos : Position),
    steady (axisOf (axis s) (rows t) (cols t)) ->
    publicSplice s ->
    modeOn (axis s) a = abs ->
    anchorTargetPosition a (rows t) (cols t) = Some pos ->
    Transform.transformAnchor a s (rows t) (cols t) = Some a' ->
    Parser.anchorToAddress a' (rows (applySplice t s)) (cols (applySplice t s))
      = posToAddr (applySplice t s) pos
    /\ (Transform.applySpliceToPos s (coordOn (axis s) pos)
          = Some (coordOn (axis s) pos)
        <-> coordOn (axis s) pos < atPos s \/ (ins s <= 0 /\ del s <= 0)).
Proof.
  intros t s a a' pos Hst Hpub Hmode Hpos Htr.
  destruct (transformAnchor_inv _ _ _ _ _ Htr) as (bp & nb & nt & Hbp & Hnb & Hnt & Ha').
  pose proof (basePos_after_splice t s a bp nb Hst Hpub Hbp Hnb) as Hafter.
  rewrite Hmode in Hnt. inversion Hnt; subst nt; clear Hnt.
  destruct (applySplice_frame t s) as (Hr & Hc & _).
  unfold anchorTargetPosition, targetPosOn in Hpos. simpl in Hpos.
  destruct (AxisIndex.idToPos (rows t) (row (base a))) as [br|] eqn:Ebr; [|discriminate].
  destruct (AxisIndex.idToPos (cols t) (col (base a))) as [bc|] eqn:Ebc; [|discriminate].
  inversion Hpos; subst pos; clear Hpos.
  split.
  - unfold Parser.anchorToAddress, posToAddr.
    destruct (axis s) eqn:Eax; simpl in *; subst a'; simpl.
    + rewrite Hafter. rewrite Hc. unfold colsAfter. rewrite Eax.
      rewrite Ebc. rewrite Ebr in Hbp. inversion Hbp; subst bp.
      replace (nb + (br + dRow a - nb)) with (br + dRow a) by lia.
      destruct (rowMode a), (colMode a); reflexivity.
    + rewrite Hafter. rewrite Hr. unfold rowsAfter. rewrite Eax.
      rewrite Ebr. rewrite Ebc in Hbp. inversion Hbp; subst bp.
      replace (nb + (bc + dCol a - nb)) with (bc + dCol a) by lia.
      destruct (rowMode a), (colMode a); reflexivity.
  - destruct Hpub as [Hat Hid]. unfold Transform.applySpliceToPos.
    set (p := coordOn (axis s) (mkPos (br + dRow a) (bc + dCol a))).
    destruct (0 <? del s) eqn:Hdel; [apply Z.ltb_lt in Hdel | apply Z.ltb_ge in Hdel].
    + destruct ((atPos s <=? p) && (p <? atPos s + del s)) eqn:E1.
      * apply andb_true_iff in E1. destruct E1 as [E1 E2].
        apply Z.leb_le in E1. split; [discriminate|lia].
      * destruct (atPos s + del s <=? p) eqn:E2.
        -- apply Z.leb_le in E2. split; [intros H; inversion H; lia|lia].
        -- apply Z.leb_gt in E2. apply andb_false_iff in E1.
           split; [intros _; left|reflexivity].
           destruct E1 as [E1|E1]; [apply Z.leb_gt in E1 | apply Z.ltb_ge in E1]; lia.
    + destruct (0 <? ins s) eqn:Hins; [apply Z.ltb_lt in Hins | apply Z.ltb_ge in Hins].
      * destruct (atPos s <=? p) eqn:E1.
        -- apply Z.leb_le in E1. split; [intros H; inversion H; lia|lia].
        -- apply Z.leb_gt in E1. split; [intros _; left; lia|reflexivity].
      * split; [intros _; right; lia|reflexivity].
Qed.

(** The anchor of [=$A$5] across [insertRows(3,1)]. *)
Lemma C6_absolute_target_keeps_its_position_witness :
  steady (rows Scenario.absBelowBefore)
  /\ anchorTargetPosition Scenario.absBelowAnchor
       (rows Scenario.absBelowBefore) (cols Scenario.absBelowBefore)
     = Some (mkPos 5 1)
  /\ Parser.anchorToAddress Scenario.absBelowAnchor
       (rows (applySplice Scenario.absBelowBefore (mkSplice AxRow 3 0 1)))
       (cols (applySplice Scenario.absBelowBefore (mkSplice AxRow 3 0 1)))
     = posToAddr (applySplice Scenario.absBelowBefore (mkSplice AxRow 3 0 1))
         (mkPos 5 1).
Proof.
  assert (Hst : steady (rows Scenario.absBelowBefore)).
  { exists [0; 1; 2; 3; 4; 5]%nat. split; [reflexivity|]. split.
    - repeat constructor; simpl; intuition discriminate.
    - repeat constructor. }
  split; [exact Hst|]. split; [reflexivity|].
  apply (C6_absolute_target_keeps_its_position Scenario.absBelowBefore
           (mkSplice AxRow 3 0 1) Scenario.absBelowAnchor Scenario.absBelowAnchor
           (mkPos 5 1)).
  - exact Hst.
  - unfold publicSplice; simpl; lia.
  - reflexivity.
  - reflexivity.
  - reflexivity.
Defined.

End SpliceFacts.

(* ================================================================== *)
(** * The searches terminate within their fuel *)
(* ================================================================== *)

Section SearchFacts.
Import DepGraph.

Lemma has_In : forall (s : list Key) k, JS.has keyEqb s k = true <-> In k s.
Proof.
  intros s k. unfold JS.has. rewrite existsb_exists. split.
  - intros (x & Hx & E). apply keyEqb_eq in E. subst. exact Hx.
  - intros H. exists k. split; [exact H|apply keyEqb_refl].
Qed.

Lemma has_false_notin : forall (s : list Key) k, JS.has keyEqb s k = false <-> ~ In k s.
Proof.
  intros s k. rewrite <- has_In. destruct (JS.has keyEqb s k); split; congruence.
Qed.

Lemma has_app : forall (s1 s2 : list Key) k,
  JS.has keyEqb (s1 ++ s2) k = JS.has keyEqb s1 k || JS.has keyEqb s2 k.
Proof. intros. unfold JS.has. apply existsb_app. Qed.

Lemma pending_mono : forall out reached key,
  (pending out (reached ++ [key]) <= pending out reached)%nat.
Proof.
  intros out reached key. induction out as [|[k0 s0] out IH]; simpl; [lia|].
  rewrite has_app. destruct (JS.has keyEqb reached k0); simpl; [exact IH|].
  destruct (keyEqb k0 key || false); lia.
Qed.

Lemma pending_drop : forall out reached key dependents,
  JS.has keyEqb reached key = false ->
  JS.get keyEqb out key = Some dependents ->
  (pending out (reached ++ [key]) + length dependents <= pending out reached)%nat.
Proof.
  intros out reached key dependents Hn. induction out as [|[k0 s0] out IH]; simpl;
    [discriminate|].
  intros Hget. rewrite has_app. destruct (keyEqb key k0) eqn:E.
  - apply keyEqb_eq in E. subst k0. inversion Hget; subst s0. rewrite Hn. simpl.
    rewrite keyEqb_refl. simpl. pose proof (pending_mono out reached key). lia.
  - specialize (IH Hget). destruct (JS.has keyEqb reached k0); simpl; [exact IH|].
    assert (E' : keyEqb k0 key = false).
    { apply keyEqb_neq. intro; subst. rewrite keyEqb_refl in E. discriminate. }
    rewrite E'. simpl. lia.
Qed.

Lemma pending_nil : forall out, pending out [] = edgeCount out.
Proof. induction out as [|[k0 s0] out IH]; simpl; [reflexivity|]. rewrite IH. reflexivity. Qed.

(** The search of [affectedFrom] never runs out of the fuel it is given,
    and its result holds the keys already reached and the queued ones. *)
Lemma affectedLoop_total : forall fuel out queue affected,
  (length queue + pending out affected < fuel)%nat ->
  exists res, affectedLoop fuel out queue affected = Some res
              /\ (forall k, In k affected -> In k res)
              /\ (forall k, In k queue -> In k res).
Proof.
  induction fuel as [|fuel IH]; intros out queue affected Hm; [lia|].
  destruct queue as [|key q]; simpl.
  - exists affected. repeat split; auto. intros k [].
  - destruct (JS.has keyEqb affected key) eqn:Hh.
    + destruct (IH out q affected) as (res & Hres & Ha & Hq); [simpl in Hm; lia|].
      exists res. repeat split; auto.
      intros k [Hk|Hk]; [subst; apply Ha, has_In, Hh|auto].
    + destruct (JS.get keyEqb out key) as [dependents|] eqn:Hg.
      * pose proof (pending_drop out affected key dependents Hh Hg) as Hp.
        pose proof (filter_length_le
                      (fun dep => negb (JS.has keyEqb (affected ++ [key]) dep)) dependents) as Hf.
        destruct (IH out
                    (q ++ filter (fun dep => negb (JS.has keyEqb (affected ++ [key]) dep)) dependents)
                    (affected ++ [key])) as (res & Hres & Ha & Hq).
        { rewrite length_app. simpl in Hm. lia. }
        exists res. repeat split; auto.
        -- intros k Hk. apply Ha, in_or_app. auto.
        -- intros k [Hk|Hk].
           ++ subst. apply Ha, in_or_app. right. simpl. auto.
           ++ apply Hq, in_or_app. auto.
      * pose proof (pending_mono out affected key) as Hp.
        destruct (IH out q (affected ++ [key])) as (res & Hres & Ha & Hq);
          [simpl in Hm; lia|].
        exists res. repeat split; auto.
        -- intros k Hk. apply Ha, in_or_app. auto.
        -- intros k [Hk|Hk].
           ++ subst. apply Ha, in_or_app. right. simpl. auto.
           ++ auto.
Qed.

Lemma affectedFrom_total : forall g changed,
  exists res, affectedLoop (searchFuel g changed) (outgoing g) changed [] = Some res
              /\ affectedFrom g changed = res
              /\ (forall k, In k changed -> In k res).
Proof.
  intros g changed.
  destruct (affectedLoop_total (searchFuel g changed) (outgoing g) changed [])
    as (res & Hres & _ & Hq).
  { unfold searchFuel. rewrite pending_nil. lia. }
  exists res. unfold affectedFrom. rewrite Hres. auto.
Qed.

(** A direct dependent of a changed key is affected. *)
Lemma affectedFrom_dependent : forall g key dep,
  In dep (getDependents g (parseAddressKey key)) ->
  In dep (affectedFrom g [key]).
Proof.
  intros g key dep Hdep.
  destruct (affectedFrom_total g [key]) as (res & Hres & Heq & Hin).
  rewrite Heq. unfold searchFuel in Hres. simpl in Hres.
  unfold getDependents in Hdep. rewrite key_parse_roundtrip in Hdep.
  destruct (JS.get keyEqb (outgoing g) key) as [dependents|] eqn:Hg; [|destruct Hdep].
  destruct (keyEqb dep key) eqn:E.
  - apply keyEqb_eq in E. subst. apply Hin. simpl. auto.
  - destruct (affectedLoop_total (S (edgeCount (outgoing g))) (outgoing g)
                (filter (fun d => negb (JS.has keyEqb [key] d)) dependents) [key])
      as (res' & Hres' & _ & Hq').
    { pose proof (pending_drop (outgoing g) [] key dependents eq_refl Hg) as Hp.
      pose proof (filter_length_le (fun d => negb (JS.has keyEqb [key] d)) dependents) as Hf.
      rewrite pending_nil in Hp. simpl in Hp.
      lia. }
    simpl in Hres'. rewrite Hres' in Hres. inversion Hres; subst res'.
    apply Hq'. apply filter_In. split; [exact Hdep|].
    unfold JS.has. simpl. rewrite E. reflexivity.
Qed.

End SearchFacts.

Section SortFacts.
Import Table.

Lemma delete_add_fresh : forall (s : list Key) k,
  JS.has keyEqb s k = false -> JS.delete keyEqb (JS.add keyEqb s k) k = s.
Proof.
  intros s k H. unfold JS.add. rewrite H. unfold JS.delete.
  rewrite filter_app. simpl. rewrite keyEqb_refl. simpl. rewrite app_nil_r.
  apply has_false_notin in H.
  induction s as [|x s IH]; simpl; [reflexivity|].
  destruct (keyEqb k x) eqn:E.
  - apply keyEqb_eq in E. subst. exfalso. apply H. simpl. auto.
  - simpl. f_equal. apply IH. intro Hin. apply H. simpl. auto.
Qed.

Lemma in_add : forall (s : list Key) k x, In x (JS.add keyEqb s k) <-> In x s \/ x = k.
Proof.
  intros s k x. unfold JS.add. destruct (JS.has keyEqb s k) eqn:H.
  - apply has_In in H. split; [auto|]. intros [Hx|Hx]; [auto|subst; auto].
  - rewrite in_app_iff. simpl. split; intros [Hx|Hx]; auto.
    + destruct Hx as [Hx|[]]; auto.
Qed.

Lemma remaining_mono : forall nodes st st',
  temp st' = temp st ->
  (forall k, In k (visited st) -> In k (visited st')) ->
  (remaining nodes st' <= remaining nodes st)%nat.
Proof.
  intros nodes st st' Ht Hv. unfold remaining. rewrite Ht.
  induction nodes as [|n nodes IH]; simpl; [lia|].
  destruct (JS.has keyEqb (visited st) n) eqn:E1.
  - apply has_In in E1. apply Hv in E1. apply has_In in E1. rewrite E1. simpl. exact IH.
  - simpl. destruct (JS.has keyEqb (visited st') n); simpl;
      destruct (JS.has keyEqb (temp st) n); simpl; lia.
Qed.

Lemma remaining_enter : forall nodes st key,
  In key nodes ->
  JS.has keyEqb (visited st) key = false ->
  JS.has keyEqb (temp st) key = false ->
  (remaining nodes (mkTopo (sorted st) (visited st) (JS.add keyEqb (temp st) key))
   < remaining nodes st)%nat.
Proof.
  intros nodes st key Hin Hv Ht. unfold remaining. simpl.
  induction nodes as [|n nodes IH]; [destruct Hin|].
  assert (Hle : forall l,
    (length (filter (fun n0 => negb (JS.has keyEqb (visited st) n0)
                               && negb (JS.has keyEqb (JS.add keyEqb (temp st) key) n0)) l)
     <= length (filter (fun n0 => negb (JS.has keyEqb (visited st) n0)
                                  && negb (JS.has keyEqb (temp st) n0)) l))%nat).
  { induction l as [|x l IHl]; simpl; [lia|].
    destruct (JS.has keyEqb (visited st) x); simpl; [exact IHl|].
    destruct (JS.has keyEqb (temp st) x) eqn:E.
    - assert (E' : JS.has keyEqb (JS.add keyEqb (temp st) key) x = true).
      { apply has_In, in_add. left. apply has_In. exact E. }
      rewrite E'. simpl. exact IHl.
    - simpl. destruct (JS.has keyEqb (JS.add keyEqb (temp st) key) x); simpl; lia. }
  simpl. destruct Hin as [Hin|Hin].
  - subst n. rewrite Hv, Ht. simpl.
    assert (E' : JS.has keyEqb (JS.add keyEqb (temp st) key) key = true).
    { apply has_In, in_add. right. reflexivity. }
    rewrite E'. simpl. specialize (Hle nodes). lia.
  - specialize (IH Hin).
    destruct (JS.has keyEqb (visited st) n); simpl; [exact IH|].
    destruct (JS.has keyEqb (temp st) n) eqn:E.
    + assert (E' : JS.has keyEqb (JS.add keyEqb (temp st) key) n = true).
      { apply has_In, in_add. left. apply has_In. exact E. }
      rewrite E'. simpl. exact IH.
    + simpl. destruct (JS.has keyEqb (JS.add keyEqb (temp st) key) n); simpl; lia.
Qed.

(** [visit] returns whenever its fuel exceeds the number of nodes it may
    still enter. *)
Lemma visit_total : forall fuel g nodes key st,
  In key nodes ->
  (remaining nodes st < fuel)%nat ->
  exists st', visit fuel g nodes key st = Some st' /\ visitPost key st st'.
Proof.
  induction fuel as [|fuel IH]; intros g nodes key st Hin Hm; [lia|].
  simpl. destruct (JS.has keyEqb (visited st) key) eqn:Hv.
  { exists st. split; [reflexivity|]. unfold visitPost. repeat split; auto.
    right. apply has_In. exact Hv. }
  destruct (JS.has keyEqb (temp st) key) eqn:Ht.
  { exists st. split; [reflexivity|]. unfold visitPost. repeat split; auto.
    left. apply has_In. exact Ht. }
  set (st1 := mkTopo (sorted st) (visited st) (JS.add keyEqb (temp st) key)).
  pose proof (remaining_enter nodes st key Hin Hv Ht) as Hlt. fold st1 in Hlt.
  assert (Hfold : forall ds s,
    temp s = temp st1 ->
    (forall k, In k (visited st) -> In k (visited s)) ->
    (forall k, In k (sorted st) -> In k (sorted s)) ->
    (sortedCoversVisited st -> sortedCoversVisited s) ->
    exists st2,
      fold_left (fun acc depKey =>
                   match acc with
                   | None => None
                   | Some s0 => if JS.has keyEqb nodes depKey
                                then visit fuel g nodes depKey s0
                                else Some s0
                   end) ds (Some s) = Some st2
      /\ temp st2 = temp st1
      /\ (forall k, In k (visited st) -> In k (visited st2))
      /\ (forall k, In k (sorted st) -> In k (sorted st2))
      /\ (sortedCoversVisited st -> sortedCoversVisited st2)).
  { induction ds as [|d ds IHds]; intros s Hts Hvs Hss Hcs; simpl.
    - exists s. auto.
    - destruct (JS.has keyEqb nodes d) eqn:Hd.
      + assert (Hrem : (remaining nodes s < fuel)%nat).
        { assert ((remaining nodes s <= remaining nodes st1)%nat).
          { apply remaining_mono; [exact Hts|]. simpl. exact Hvs. }
          lia. }
        destruct (IH g nodes d s (proj1 (has_In _ _) Hd) Hrem)
          as (s' & Hs' & P1 & P2 & P3 & _ & P5).
        rewrite Hs'. apply IHds; [congruence| | |]; auto.
      + apply IHds; auto. }
  destruct (Hfold (DepGraph.getDependencies g (parseAddressKey key)) st1)
    as (st2 & Hst2 & Q1 & Q2 & Q3 & Q4); auto.
  rewrite Hst2. eexists. split; [reflexivity|].
  unfold visitPost. simpl. repeat split.
  - rewrite Q1. unfold st1. simpl. apply delete_add_fresh. exact Ht.
  - intros k Hk. apply in_add. left. auto.
  - intros k Hk. apply in_or_app. left. auto.
  - right. apply in_add. right. reflexivity.
  - intros Hc k Hk. apply in_add in Hk. apply in_or_app.
    destruct Hk as [Hk|Hk]; [left; apply (Q4 Hc); exact Hk|right; subst; simpl; auto].
Qed.

Lemma topoLoop_total : forall g nodes keys st,
  incl keys nodes ->
  temp st = [] ->
  sortedCoversVisited st ->
  exists st', topoLoop (S (length nodes)) g nodes keys st = Some st'
              /\ temp st' = []
              /\ sortedCoversVisited st'
              /\ (forall k, In k (sorted st) -> In k (sorted st'))
              /\ (forall k, In k keys -> In k (sorted st')).
Proof.
  intros g nodes keys. induction keys as [|key keys IH]; intros st Hincl Ht Hc.
  - exists st. unfold topoLoop. simpl. repeat split; auto. intros k [].
  - unfold topoLoop. cbn [fold_left].
    destruct (visit_total (S (length nodes)) g nodes key st) as (s1 & Hs1 & P1 & P2 & P3 & P4 & P5).
    { apply Hincl. simpl. auto. }
    { unfold remaining. pose proof (filter_length_le
        (fun n => negb (JS.has keyEqb (visited st) n) && negb (JS.has keyEqb (temp st) n)) nodes).
      lia. }
    rewrite Hs1.
    destruct (IH s1) as (st' & Hst' & R1 & R2 & R3 & R4).
    { intros x Hx. apply Hincl. simpl. auto. }
    { congruence. }
    { auto. }
    exists st'. unfold topoLoop in Hst'. rewrite Hst'. repeat split; auto.
    intros k [Hk|Hk]; [|auto]. subst k. apply R3. apply (P5 Hc).
    destruct P4 as [P4|P4]; [rewrite Ht in P4; destruct P4|exact P4].
Qed.

(** [topologicalSort] returns, and every node it was given is in the list. *)
Lemma topologicalSort_complete : forall g nodes k,
  In k nodes -> In k (topologicalSort g nodes).
Proof.
  intros g nodes k Hk. unfold topologicalSort.
  destruct (topoLoop_total g nodes nodes (mkTopo [] [] [])) as (st' & Hst' & _ & _ & _ & R).
  - apply incl_refl.
  - reflexivity.
  - intros x [].
  - rewrite Hst'. auto.
Qed.

End SortFacts.

(* ================================================================== *)
(** * Recalculation *)
(* ================================================================== *)

Section RecalcFacts.
Import Table.

Lemma address_key_roundtrip : forall a : Address, parseAddressKey (addressKey a) = a.
Proof. intros [x y]. reflexivity. Qed.

Lemma in_split_last : forall (x : Key) (l : list Key),
  In x l -> exists l1 l2, l = l1 ++ x :: l2 /\ ~ In x l2.
Proof.
  intros x l. induction l as [|y l IH]; intros H; [destruct H|].
  destruct (JS.has keyEqb l x) eqn:Eh;
    [apply has_In in Eh; rename Eh into Hin
    |apply has_false_notin in Eh; rename Eh into Hnin].
  - destruct (IH Hin) as (l1 & l2 & E & Hn). exists (y :: l1), l2. subst. auto.
  - destruct H as [H|H]; [|contradiction]. subst. exists [], l. auto.
Qed.

Lemma recalcStep_other : forall t key k,
  key <> k ->
  JS.get keyEqb (cells (recalcStep t key)) k = JS.get keyEqb (cells t) k.
Proof.
  intros t key k Hne. unfold recalcStep.
  destruct (CellStore.get (cells t) (parseAddressKey key)) as [[v|f cached]|]; auto.
  destruct (evalFormula_frame t f (parseAddressKey key)) as (_ & _ & Hs).
  destruct (evalFormula t f (parseAddressKey key)) as [v t1]. simpl in *.
  unfold CellStore.set. rewrite key_parse_roundtrip, get_set, Hs.
  assert (E : keyEqb k key = false) by (apply keyEqb_neq; congruence).
  rewrite E. reflexivity.
Qed.

Lemma recalcLoop_other : forall keys t k,
  ~ In k keys ->
  JS.get keyEqb (cells (fold_left recalcStep keys t)) k = JS.get keyEqb (cells t) k.
Proof.
  induction keys as [|key keys IH]; intros t k Hn; simpl; [reflexivity|].
  rewrite IH by (intro; apply Hn; simpl; auto).
  apply recalcStep_other. intro; subst. apply Hn. simpl. auto.
Qed.

Lemma recalcStep_formula : forall t key f cached,
  JS.get keyEqb (cells t) key = Some (CFormula f cached) ->
  JS.get keyEqb (cells (recalcStep t key)) key
    = Some (CFormula f (Some (fst (evalFormula t f (parseAddressKey key))))).
Proof.
  intros t key f cached H. unfold recalcStep, CellStore.get.
  rewrite key_parse_roundtrip, H.
  destruct (evalFormula_frame t f (parseAddressKey key)) as (_ & _ & Hs).
  destruct (evalFormula t f (parseAddressKey key)) as [v t1]. simpl in *.
  unfold CellStore.set. rewrite key_parse_roundtrip, get_set, keyEqb_refl. reflexivity.
Qed.

(** A write into an empty cell re-evaluates a Sum that has an edge from
    it: the formula is in the order [recalc] works through, and the cached
    value it has afterwards is the one [evalFormula] computed when [recalc]
    reached it. *)
Lemma setValue_reevaluates_watching_sum :
  forall (t : Sheet) (pos : Position) (v : Z) (addr formulaAddr : Address)
         (rg : RangeRef) (cached : option Scalar),
    posToAddr t pos = Some addr ->
    CellStore.get (cells t) addr = None ->
    CellStore.get (cells t) formulaAddr = Some (CFormula (Sum rg) cached) ->
    In (addressKey formulaAddr) (DepGraph.getDependents (deps t) addr) ->
    let written := withCells t (CellStore.set (cells t) addr (CValue (Num v))) in
    exists before after : list Key,
      recalcOrder written [addressKey addr]
        = before ++ addressKey formulaAddr :: after
      /\ ~ In (addressKey formulaAddr) after
      /\ CellStore.get (cells (setValue t pos v)) formulaAddr
         = Some (CFormula (Sum rg)
                   (Some (fst (evalFormula (fold_left recalcStep before written)
                                           (Sum rg) formulaAddr)))).
Proof.
  intros t pos v addr formulaAddr rg cached Hpos Hempty Hsum Hedge written.
  assert (Hne : addressKey formulaAddr <> addressKey addr).
  { intro E. unfold CellStore.get in *. rewrite E in Hsum. congruence. }
  assert (Hin : In (addressKey formulaAddr) (recalcOrder written [addressKey addr])).
  { unfold recalcOrder. apply topologicalSort_complete.
    apply affectedFrom_dependent. rewrite address_key_roundtrip. exact Hedge. }
  destruct (in_split_last _ _ Hin) as (before & after & Hsplit & Hlast).
  exists before, after. split; [exact Hsplit|]. split; [exact Hlast|].
  unfold setValue. rewrite Hpos, Hempty. fold written.
  unfold recalc. rewrite Hsplit, fold_left_app. simpl.
  unfold CellStore.get.
  rewrite recalcLoop_other by exact Hlast.
  set (tb := fold_left recalcStep before written).
  assert (Hcell : exists c', JS.get keyEqb (cells tb) (addressKey formulaAddr)
                             = Some (CFormula (Sum rg) c')).
  { destruct (recalcLoop_frame before written) as (_ & _ & _ & Hup).
    specialize (Hup (addressKey formulaAddr)). fold tb in Hup.
    unfold written in Hup at 1. simpl in Hup. unfold CellStore.set in Hup.
    rewrite get_set in Hup.
    assert (E : keyEqb (addressKey formulaAddr) (addressKey addr) = false)
      by (apply keyEqb_neq; exact Hne).
    rewrite E in Hup. unfold CellStore.get in Hsum. rewrite Hsum in Hup.
    destruct (JS.get keyEqb (cells tb) (addressKey formulaAddr)) as [[v'|f' c']|];
      simpl in Hup; try contradiction.
    subst f'. exists c'. reflexivity. }
  destruct Hcell as (c' & Hcell).
  rewrite (recalcStep_formula _ _ _ _ Hcell), address_key_roundtrip. reflexivity.
Qed.

End RecalcFacts.

(* ================================================================== *)
(** * Insert followed by delete *)
(* ================================================================== *)

Section SpliceCells.
Import Table.

Lemma get_None_notin : forall (V : Type) (m : list (Key * V)) k,
  ~ In k (map fst m) -> JS.get keyEqb m k = None.
Proof.
  intros V m k. induction m as [|[k0 v0] m IH]; simpl; [reflexivity|].
  intros H. destruct (keyEqb k k0) eqn:E.
  - apply keyEqb_eq in E. subst. exfalso. apply H. auto.
  - apply IH. intro Hin. apply H. auto.
Qed.

Lemma spliceStep_cells : forall s t d key cell,
  JS.get keyEqb (cells t) key = Some cell ->
  let t' := fst (spliceStep s (t, d) (key, cell)) in
  rows t' = rows t /\ cols t' = cols t
  /\ forall k, JS.get keyEqb (cells t') k
               = if keyEqb k key then Some (spliceCell s (rows t) (cols t) cell)
                 else JS.get keyEqb (cells t) k.
Proof.
  intros s t d key cell Hget. unfold spliceStep, spliceCell.
  destruct cell as [v|f cached]; simpl.
  - repeat split; auto. intros k. destruct (keyEqb k key) eqn:E; [|reflexivity].
    apply keyEqb_eq in E. subst. exact Hget.
  - destruct (transformFormula f s (rows t) (cols t)); simpl;
      unfold CellStore.set; rewrite key_parse_roundtrip;
      repeat split; auto; intros k; apply get_set.
Qed.

Lemma spliceLoop_cells : forall s entries t d,
  NoDup (map fst entries) ->
  (forall k cell, In (k, cell) entries -> JS.get keyEqb (cells t) k = Some cell) ->
  let t' := fst (fold_left (spliceStep s) entries (t, d)) in
  forall k, JS.get keyEqb (cells t') k
            = match JS.get keyEqb entries k with
              | Some cell => Some (spliceCell s (rows t) (cols t) cell)
              | None => JS.get keyEqb (cells t) k
              end.
Proof.
  intros s entries. induction entries as [|[key cell] entries IH];
    intros t d ND Hall; [simpl; reflexivity|].
  cbn [fold_left]. change (map fst ((key, cell) :: entries))
    with (key :: map fst entries) in ND.
  inversion ND as [|? ? Hnin ND']; subst.
  assert (Hget : JS.get keyEqb (cells t) key = Some cell) by (apply Hall; simpl; auto).
  destruct (spliceStep_cells s t d key cell Hget) as (Hr & Hc & Hk).
  destruct (spliceStep s (t, d) (key, cell)) as [t1 d1] eqn:E. simpl in Hr, Hc, Hk.
  intros k.
  assert (Hall' : forall k0 cell0, In (k0, cell0) entries ->
                                   JS.get keyEqb (cells t1) k0 = Some cell0).
  { intros k0 cell0 Hin. rewrite Hk.
    assert (En : keyEqb k0 key = false).
    { apply keyEqb_neq. intro; subst. apply Hnin.
      change key with (fst (key, cell0)). apply in_map. exact Hin. }
    rewrite En. apply Hall. simpl. auto. }
  specialize (IH t1 d1 ND' Hall' k). cbv zeta in IH. rewrite IH, Hr, Hc, Hk.
  cbn [JS.get]. destruct (keyEqb k key) eqn:Ek.
  - apply keyEqb_eq in Ek. subst k. rewrite (get_None_notin _ _ _ Hnin). reflexivity.
  - reflexivity.
Qed.

(** Cells after a splice: each cell is what the first loop made of it, up
    to the cached values that [recalc] rewrites. *)
Lemma applySplice_cells : forall t s,
  NoDup (storeKeys (cells t)) ->
  forall k,
    match JS.get keyEqb (cells t) k, JS.get keyEqb (cells (applySplice t s)) k with
    | Some cell, Some cell' => sameUpToCache (spliceCell s (rows t) (cols t) cell) cell'
    | None, None => True
    | _, _ => False
    end.
Proof.
  intros t s ND k. unfold applySplice.
  pose proof (spliceLoop_cells s (CellStore.entries (cells t)) t [] ND) as Hloop.
  simpl in Hloop.
  assert (Hall : forall k0 cell0, In (k0, cell0) (CellStore.entries (cells t)) ->
                                  JS.get keyEqb (cells t) k0 = Some cell0).
  { intros k0 cell0 Hin. apply get_in_NoDup; assumption. }
  specialize (Hloop Hall k).
  destruct (fold_left (spliceStep s) (CellStore.entries (cells t)) (t, [])) as [t1 dirty].
  simpl in Hloop. unfold CellStore.entries in Hloop.
  assert (Hup : storeUpToCache (cells t1)
                  (cells (recalc match axis s with
                                 | AxRow => withRows t1 (spliceAxis (rows t1) s)
                                 | AxCol => withCols t1 (spliceAxis (cols t1) s)
                                 end dirty))).
  { destruct (axis s);
      match goal with |- context [recalc ?x dirty] =>
        destruct (recalc_frame x dirty) as (_ & _ & _ & R) end; exact R. }
  specialize (Hup k). rewrite Hloop in Hup.
  destruct (JS.get keyEqb (cells t) k) as [cell|]; exact Hup.
Qed.

End SpliceCells.

Section RoundTrip.
Import Table.
Local Arguments Z.add _ _ : simpl never.
Local Arguments Z.sub _ _ : simpl never.
Local Arguments Z.ltb _ _ : simpl never.
Local Arguments Z.leb _ _ : simpl never.
Local Arguments Z.min _ _ : simpl never.
Local Arguments Z.max _ _ : simpl never.
Local Arguments Z.of_nat _ : simpl never.
Local Arguments Z.to_nat _ : simpl never.



Lemma transformRange_inv : forall rg s rowAxis colAxis rg',
  Transform.transformRange rg s rowAxis colAxis = Some rg' ->
  exists s' e', Transform.transformAnchor (start rg) s rowAxis colAxis = Some s'
                /\ Transform.transformAnchor (end_ rg) s rowAxis colAxis = Some e'
                /\ rg' = mkRange s' e'.
Proof.
  intros rg s rowAxis colAxis rg' H. unfold Transform.transformRange in H.
  destruct (Transform.transformAnchor (start rg) s rowAxis colAxis) as [s'|]; [|discriminate].
  destruct (Transform.transformAnchor (end_ rg) s rowAxis colAxis) as [e'|]; [|discriminate].
  exists s', e'. repeat split; auto.
  destruct (if match axis s with AxRow => true | AxCol => false end
            then AxisIndex.idToPos rowAxis (row (base s'))
            else AxisIndex.idToPos colAxis (col (base s'))); [|discriminate].
  destruct (if match axis s with AxRow => true | AxCol => false end
            then AxisIndex.idToPos rowAxis (row (base e'))
            else AxisIndex.idToPos colAxis (col (base e'))); [|discriminate].
  match type of H with (if ?b then _ else _) = _ => destruct b end;
    [discriminate|]. inversion H. reflexivity.
Qed.



End RoundTrip.

Section RoundTripTheorem.
Import Table.
Local Arguments Z.add _ _ : simpl never.
Local Arguments Z.sub _ _ : simpl never.
Local Arguments Z.ltb _ _ : simpl never.
Local Arguments Z.leb _ _ : simpl never.
Local Arguments Z.of_nat _ : simpl never.
Local Arguments Z.to_nat _ : simpl never.




Lemma axisOf_after : forall ax t s,
  axisOf ax (rows (applySplice t s)) (cols (applySplice t s))
  = axisOf ax (rowsAfter s (rows t)) (colsAfter s (cols t)).
Proof.
  intros ax t s. destruct (applySplice_frame t s) as (Hr & Hc & _).
  rewrite Hr, Hc. reflexivity.
Qed.



End RoundTripTheorem.

(* ================================================================== *)
(** * The steady axis *)
(* ================================================================== *)

Section SteadyAxis.
Import AxisIndex.
Local Arguments Z.add _ _ : simpl never.
Local Arguments Z.sub _ _ : simpl never.
Local Arguments Z.ltb _ _ : simpl never.
Local Arguments Z.leb _ _ : simpl never.
Local Arguments Z.min _ _ : simpl never.
Local Arguments Z.max _ _ : simpl never.
Local Arguments Z.of_nat _ : simpl never.
Local Arguments Z.to_nat _ : simpl never.

Lemma indexOf_nth_NoDup : forall l i id,
  NoDup l -> nth_error l i = Some id -> indexOf l id = Some i.
Proof.
  induction l as [|x l IH]; intros i id ND H.
  - destruct i; discriminate.
  - inversion ND as [|? ? Hx ND']; subst. destruct i as [|i]; simpl in *.
    + inversion H; subst. rewrite Nat.eqb_refl. reflexivity.
    + destruct (Nat.eqb x id) eqn:E.
      * apply Nat.eqb_eq in E. subst. exfalso. apply Hx. eapply nth_error_In; eauto.
      * rewrite (IH _ _ ND' H). reflexivity.
Qed.

Lemma create_steady : forall n, steady (create n).
Proof.
  intros n. exists (mint 0 n). unfold create, mint. simpl.
  split; [reflexivity|]. split; [apply seq_NoDup|].
  apply Forall_forall. intros x Hx. apply in_seq in Hx. lia.
Qed.

(** On a steady axis positions and identifiers are in bijection. *)
Lemma steady_axis_bijection : forall ax p id,
  steady ax -> (posToId ax p = Some id <-> idToPos ax id = Some p).
Proof.
  intros [segs n] p id (l & Hseg & ND & _). simpl in Hseg. subst segs.
  rewrite idToPos_one_segment. unfold posToId. simpl. unfold segLen. simpl.
  split.
  - destruct ((1 <=? p) && (p <=? 1 + Z.of_nat (length l) - 1)) eqn:E; [|discriminate].
    apply andb_true_iff in E. destruct E as [E1 E2]. apply Z.leb_le in E1, E2.
    intros H. rewrite (indexOf_nth_NoDup _ _ _ ND H). f_equal. lia.
  - destruct (indexOf l id) as [i|] eqn:Ei; [|discriminate].
    intros H. inversion H; subst p.
    pose proof (indexOf_Some_lt _ _ _ Ei) as Hlt.
    destruct ((1 <=? 1 + Z.of_nat i) && (1 + Z.of_nat i <=? 1 + Z.of_nat (length l) - 1)) eqn:E.
    + replace (Z.to_nat (1 + Z.of_nat i - 1)) with i by lia.
      apply indexOf_Some_nth. exact Ei.
    + apply andb_false_iff in E. destruct E as [E|E]; apply Z.leb_gt in E; lia.
Qed.

Lemma idToPos_contiguous_ge : forall segs p id q,
  contiguous p segs -> idToPos_segs segs id = Some q -> p <= q.
Proof.
  induction segs as [|seg segs IH]; intros p id q Hc H; simpl in *; [discriminate|].
  destruct Hc as [Hs Hc]. destruct (indexOf (ids seg) id) as [i|].
  - inversion H. lia.
  - specialize (IH _ _ _ Hc H). unfold segLen in IH. lia.
Qed.

Lemma idToPos_posToId_contiguous : forall segs p id q,
  contiguous p segs -> idToPos_segs segs id = Some q -> posToId_segs segs q = Some id.
Proof.
  induction segs as [|seg segs IH]; intros p id q Hc H; simpl in *; [discriminate|].
  destruct Hc as [Hs Hc]. destruct (indexOf (ids seg) id) as [i|] eqn:Ei.
  - inversion H; subst q. pose proof (indexOf_Some_lt _ _ _ Ei) as Hlt. unfold segLen.
    destruct ((startPos seg <=? startPos seg + Z.of_nat i)
              && (startPos seg + Z.of_nat i <=? startPos seg + Z.of_nat (length (ids seg)) - 1)) eqn:E.
    + replace (Z.to_nat (startPos seg + Z.of_nat i - startPos seg)) with i by lia.
      apply indexOf_Some_nth. exact Ei.
    + apply andb_false_iff in E. destruct E as [E|E]; apply Z.leb_gt in E; lia.
  - pose proof (idToPos_contiguous_ge _ _ _ _ Hc H) as Hge.
    destruct ((startPos seg <=? q) && (q <=? startPos seg + segLen seg - 1)) eqn:E.
    + apply andb_true_iff in E. destruct E as [_ E]. apply Z.leb_le in E. lia.
    + eapply IH; eauto.
Qed.

(** The index phase of a public splice leaves a steady axis contiguous. *)
Lemma spliceAxis_contiguous : forall ax s,
  steady ax -> publicSplice s ->
  contiguous 1 (segments (Table.spliceAxis ax s)).
Proof.
  intros [segs n] s (l & Hseg & ND & HF) [Hat Hpub]. simpl in Hseg. subst segs.
  unfold Table.spliceAxis.
  destruct (0 <? del s) eqn:Hdel; destruct (0 <? ins s) eqn:Hins;
    try apply Z.ltb_lt in Hdel; try apply Z.ltb_ge in Hdel;
    try apply Z.ltb_lt in Hins; try apply Z.ltb_ge in Hins; try lia.
  - unfold remove. simpl. unfold shiftSeg, segLen. simpl.
    destruct (atPos s + del s - 1 <? 1 + 0) eqn:E1; [apply Z.ltb_lt in E1; lia|].
    destruct (1 + 0 + Z.of_nat (length l) - 1 <? atPos s); [simpl; split; [lia|exact I]|].
    destruct (JS.splice l _ _ []); simpl; [exact I|]. split; [lia|exact I].
  - unfold insert. simpl. unfold segLen. simpl.
    destruct ((1 <=? atPos s) && (atPos s <=? 1 + Z.of_nat (length l) - 1 + 1)); simpl.
    + split; [reflexivity|exact I].
    + unfold segLen. simpl. repeat split.
  - simpl. split; [reflexivity|exact I].
Qed.

(** A live position keeps its identifier at its image under the position
    map of the splice. *)
Lemma spliceAxis_posToId : forall ax s p q id,
  steady ax -> publicSplice s ->
  posToId ax p = Some id ->
  Transform.applySpliceToPos s p = Some q ->
  posToId (Table.spliceAxis ax s) q = Some id.
Proof.
  intros ax s p q id Hst Hpub Hp Hq.
  apply (steady_axis_bijection ax p id Hst) in Hp.
  pose proof (spliceAxis_idToPos ax s id p Hst Hpub Hp) as Hid. rewrite Hq in Hid.
  eapply idToPos_posToId_contiguous; [apply spliceAxis_contiguous; eauto|exact Hid].
Qed.

End SteadyAxis.

Section RelativeAnchors.
Import Table.

(** Where the index is steady, a surviving relative anchor resolves after
    the splice to the identifier it resolved to before: the failure of C1
    comes from the index, not from the transformation. *)
Theorem relative_anchor_tracks_on_steady_axis :
  forall (t : Sheet) (s : Splice) (a a' : Anchor) (id : AxisId),
    steady (axisOf (axis s) (rows t) (cols t)) ->
    publicSplice s ->
    modeOn (axis s) a = rel ->
    targetIdOn (axis s) a (rows t) (cols t) = Some id ->
    Transform.transformAnchor a s (rows t) (cols t) = Some a' ->
    targetIdOn (axis s) a' (rows (applySplice t s)) (cols (applySplice t s)) = Some id.
Proof.
  intros t s a a' id Hst Hpub Hmode Hid Htr.
  destruct (transformAnchor_inv _ _ _ _ _ Htr) as (bp & nb & nt & Hbp & Hnb & Hnt & Ha').
  pose proof (basePos_after_splice t s a bp nb Hst Hpub Hbp Hnb) as Hafter.
  rewrite Hmode in Hnt.
  unfold targetIdOn, targetPosOn in *. rewrite Hbp in Hid.
  replace (baseIdOn (axis s) a') with (baseIdOn (axis s) a)
    by (subst a'; destruct (axis s); reflexivity).
  rewrite Hafter.
  replace (nb + offsetOn (axis s) a') with nt
    by (subst a'; destruct (axis s); simpl; lia).
  destruct (applySplice_frame t s) as (Hr & Hc & _). rewrite Hr, Hc.
  unfold rowsAfter, colsAfter.
  destruct (axis s); simpl in *;
    eapply spliceAxis_posToId; eauto.
Qed.

End RelativeAnchors.

Section SteadyKept.
Import AxisIndex.
Local Arguments Z.add _ _ : simpl never.
Local Arguments Z.sub _ _ : simpl never.
Local Arguments Z.ltb _ _ : simpl never.
Local Arguments Z.leb _ _ : simpl never.
Local Arguments Z.of_nat _ : simpl never.
Local Arguments Z.to_nat _ : simpl never.

(** An insertion inside the axis or right after its end keeps it steady. *)
Lemma insert_keeps_steady : forall ax atPos count,
  steady ax -> 1 <= atPos <= maxPos ax + 1 ->
  steady (fst (insert ax atPos count)).
Proof.
  intros [segs n] atPos count (l & Hseg & ND & HF) Hat. simpl in Hseg, HF. subst segs.
  unfold maxPos in Hat. simpl in Hat. unfold segLen in Hat. simpl in Hat.
  unfold insert. simpl. unfold segLen. simpl.
  destruct ((1 <=? atPos) && (atPos <=? 1 + Z.of_nat (length l) - 1 + 1)) eqn:E.
  2:{ apply andb_false_iff in E. destruct E as [E|E]; apply Z.leb_gt in E; lia. }
  simpl. rewrite splice_insert by lia.
  exists (firstn (Z.to_nat (atPos - 1)) l ++ mint n count ++ skipn (Z.to_nat (atPos - 1)) l).
  split; [reflexivity|].
  assert (Hfresh : forall a, In a l -> ~ In a (mint n count)).
  { intros a Ha Hm. unfold mint in Hm. apply in_seq in Hm.
    rewrite Forall_forall in HF. specialize (HF _ Ha). lia. }
  rewrite <- (firstn_skipn (Z.to_nat (atPos - 1)) l) in ND.
  split.
  - apply NoDup_app.
    + eapply NoDup_app_remove_r; eauto.
    + apply NoDup_app.
      * unfold mint. apply seq_NoDup.
      * eapply NoDup_app_remove_l; eauto.
      * intros a Ha Hs. apply (Hfresh a); [|exact Ha].
        eapply in_skipn_in; eauto.
    + intros a Ha Hin. apply in_app_or in Hin. destruct Hin as [Hin|Hin].
      * apply (Hfresh a); [|exact Hin].
        rewrite <- (firstn_skipn (Z.to_nat (atPos - 1)) l). apply in_or_app. auto.
      * clear - ND Ha Hin. induction (firstn (Z.to_nat (atPos - 1)) l) as [|x f IH].
        -- destruct Ha.
        -- simpl in ND. inversion ND as [|? ? Hx ND']; subst. destruct Ha as [Ha|Ha].
           ++ subst. apply Hx. apply in_or_app. auto.
           ++ auto.
  - apply Forall_forall. intros a Ha. cbn [nextId].
    apply in_app_or in Ha. rewrite Forall_forall in HF.
    destruct Ha as [Ha|Ha].
    + assert (In a l) by (rewrite <- (firstn_skipn (Z.to_nat (atPos - 1)) l);
                          apply in_or_app; auto).
      specialize (HF _ H). lia.
    + apply in_app_or in Ha. destruct Ha as [Ha|Ha].
      * unfold mint in Ha. apply in_seq in Ha. lia.
      * assert (In a l) by (eapply in_skipn_in; eauto).
        specialize (HF _ H). lia.
Qed.

End SteadyKept.

(* ================================================================== *)
(** * The cycle check of setFormula and the keys of reachable stores *)
(* ================================================================== *)

Section CycleCheck.
Import DepGraph.

Lemma get_mdelete : forall (V : Type) (m : list (Key * V)) k k',
  JS.get keyEqb (JS.mdelete keyEqb m k) k'
  = if keyEqb k' k then None else JS.get keyEqb m k'.
Proof.
  intros V m k k'. unfold JS.mdelete.
  induction m as [|[k0 v0] m IH]; simpl.
  - destruct (keyEqb k' k); reflexivity.
  - destruct (keyEqb k k0) eqn:E; simpl.
    + apply keyEqb_eq in E. subst k0. rewrite IH.
      destruct (keyEqb k' k); reflexivity.
    + destruct (keyEqb k' k0) eqn:E'.
      * apply keyEqb_eq in E'. subst k0.
        destruct (keyEqb k' k) eqn:E''; [|reflexivity].
        apply keyEqb_eq in E''. subst. rewrite keyEqb_refl in E. discriminate.
      * exact IH.
Qed.

Lemma dropFrom_keeps_absent : forall m k v k0,
  JS.get keyEqb m k0 = None -> JS.get keyEqb (dropFrom m k v) k0 = None.
Proof.
  intros m k v k0 H. unfold dropFrom.
  destruct (JS.get keyEqb m k) as [s|] eqn:E; [|exact H].
  destruct (JS.delete keyEqb s v).
  - rewrite get_mdelete. rewrite H. destruct (keyEqb k0 k); reflexivity.
  - rewrite get_set. destruct (keyEqb k0 k) eqn:E'; [|exact H].
    apply keyEqb_eq in E'. subst. congruence.
Qed.

Lemma dropLoop_keeps_absent : forall keys m v k0,
  JS.get keyEqb m k0 = None ->
  JS.get keyEqb (fold_left (fun out fromKey => dropFrom out fromKey v) keys m) k0 = None.
Proof.
  induction keys as [|k keys IH]; intros m v k0 H; simpl; [exact H|].
  apply IH. apply dropFrom_keeps_absent. exact H.
Qed.

(** After [removeAll] the node has no outgoing entry. *)
Lemma removeAll_no_outgoing : forall g node,
  JS.get keyEqb (outgoing (removeAll g node)) (addressKey node) = None.
Proof.
  intros g node. unfold removeAll.
  set (g1 := match JS.get keyEqb (outgoing g) (addressKey node) with
             | Some outSet => _
             | None => g
             end).
  assert (H1 : JS.get keyEqb (outgoing g1) (addressKey node) = None).
  { unfold g1. destruct (JS.get keyEqb (outgoing g) (addressKey node)) eqn:E; simpl.
    - rewrite get_mdelete, keyEqb_refl. reflexivity.
    - exact E. }
  destruct (JS.get keyEqb (incoming g1) (addressKey node)); simpl; [|exact H1].
  apply dropLoop_keeps_absent. exact H1.
Qed.

(** The search of [wouldCreateCycle] never runs out of its fuel. *)
Lemma cycleLoop_total : forall fuel out fromKey queue visited,
  (length queue + pending out visited < fuel)%nat ->
  exists b, cycleLoop fuel out fromKey queue visited = Some b.
Proof.
  induction fuel as [|fuel IH]; intros out fromKey queue visited Hm; [lia|].
  destruct queue as [|current q]; simpl; [eauto|].
  destruct (keyEqb current fromKey); [eauto|].
  destruct (JS.has keyEqb visited current) eqn:Hh.
  - apply IH. simpl in Hm. lia.
  - destruct (JS.get keyEqb out current) as [ds|] eqn:Hg.
    + pose proof (pending_drop out visited current ds Hh Hg) as Hp.
      pose proof (filter_length_le
                    (fun dep => negb (JS.has keyEqb (visited ++ [current]) dep)) ds) as Hf.
      apply IH. rewrite length_app. simpl in Hm. lia.
    + pose proof (pending_mono out visited current) as Hp.
      apply IH. simpl in Hm. lia.
Qed.

Lemma wouldCreateCycle_total : forall g from to,
  exists b, cycleLoop (searchFuel g [addressKey to]) (outgoing g) (addressKey from)
              [addressKey to] [] = Some b
            /\ wouldCreateCycle g from to = b.
Proof.
  intros g from to.
  destruct (cycleLoop_total (searchFuel g [addressKey to]) (outgoing g) (addressKey from)
              [addressKey to] []) as (b & Hb).
  { unfold searchFuel. rewrite pending_nil. lia. }
  exists b. unfold wouldCreateCycle. rewrite Hb. auto.
Qed.

(** Checked after [removeAll] on the consumer, [wouldCreateCycle] is the
    test whether producer and consumer are the same cell. *)
Lemma wouldCreateCycle_after_removeAll : forall g dep node,
  wouldCreateCycle (removeAll g node) dep node
  = keyEqb (addressKey node) (addressKey dep).
Proof.
  intros g dep node. unfold wouldCreateCycle, searchFuel. simpl.
  destruct (keyEqb (addressKey node) (addressKey dep)); [reflexivity|].
  rewrite removeAll_no_outgoing. reflexivity.
Qed.

End CycleCheck.

Section InstallFormula.
Import Table.

Lemma addressKey_inj : forall a b : Address, addressKey a = addressKey b -> a = b.
Proof. intros [a1 a2] [b1 b2] H. inversion H. reflexivity. Qed.

(** The cycle branch of [setFormula] is taken exactly when the formula's
    own cell is one of its producers: [removeAll] runs before the check and
    removes every path that starts at the cell. *)
Theorem installFormula_cycle_iff_self_reference :
  forall (t : Sheet) (addr : Address) (formula : Formula),
    existsb (fun dep => DepGraph.wouldCreateCycle
                          (DepGraph.removeAll (deps t) addr) dep addr)
            (collectDependencies t formula) = true
    <-> In addr (collectDependencies t formula).
Proof.
  intros t addr formula. rewrite existsb_exists. split.
  - intros (dep & Hin & H). rewrite wouldCreateCycle_after_removeAll in H.
    apply keyEqb_eq, addressKey_inj in H. subst. exact Hin.
  - intros Hin. exists addr. split; [exact Hin|].
    rewrite wouldCreateCycle_after_removeAll. apply keyEqb_refl.
Qed.

Lemma set_keeps_NoDup : forall (V : Type) (m : list (Key * V)) k v,
  NoDup (map fst m) -> NoDup (map fst (JS.set keyEqb m k v)).
Proof.
  intros V m k v. induction m as [|[k0 v0] m IH]; simpl; intros ND.
  - constructor; [intros []|constructor].
  - inversion ND as [|? ? Hn ND']; subst. destruct (keyEqb k k0) eqn:E; simpl.
    + constructor; assumption.
    + constructor; [|auto]. intro Hin. apply Hn.
      clear - Hin E. induction m as [|[k1 v1] m IH]; simpl in *.
      * destruct Hin as [Hin|[]]. subst. rewrite keyEqb_refl in E. discriminate.
      * destruct (keyEqb k k1); simpl in *; [exact Hin|].
        destruct Hin as [Hin|Hin]; auto.
Qed.

(** The store of a reachable sheet has pairwise distinct keys, as a [Map]
    has. *)
Theorem reachable_store_keys_distinct : forall t,
  tableReachable t -> NoDup (storeKeys (cells t)).
Proof.
  intros t H.
  induction H as [ir ic | t pos v H IH | t pos src H IH | t p k H IH
                 | t p q H IH | t p k H IH | t p q H IH].
  - constructor.
  - unfold setValue. destruct (posToAddr t pos) as [addr|]; [|exact IH].
    match goal with |- context [recalc ?x ?d] =>
      destruct (recalc_frame x d) as (_ & _ & Hk & _); rewrite Hk end.
    simpl. unfold CellStore.set, storeKeys.
    destruct (CellStore.get (cells t) addr) as [[v0|f0 c0]|]; simpl;
      apply set_keeps_NoDup; exact IH.
  - unfold setFormula. destruct (posToAddr t pos) as [addr|]; [|exact IH].
    destruct (Parser.parseFormula src pos (rows t) (cols t)) as [formula|].
    + unfold installFormula.
      match goal with |- context [if ?b then _ else _] => destruct b end.
      * simpl. apply set_keeps_NoDup. exact IH.
      * match goal with |- context [recalc ?x ?d] =>
          destruct (recalc_frame x d) as (_ & _ & Hk & _); rewrite Hk end.
        destruct formula; simpl; apply set_keeps_NoDup; exact IH.
    + simpl. apply set_keeps_NoDup. exact IH.
  - unfold insertRows. rewrite (proj2 (proj2 (applySplice_frame _ _))). exact IH.
  - unfold deleteRows. rewrite (proj2 (proj2 (applySplice_frame _ _))). exact IH.
  - unfold insertCols. rewrite (proj2 (proj2 (applySplice_frame _ _))). exact IH.
  - unfold deleteCols. rewrite (proj2 (proj2 (applySplice_frame _ _))). exact IH.
Qed.

End InstallFormula.

(* ================================================================== *)
(** * The printer's loop and the scenarios of the specification *)
(* ================================================================== *)

Section ParserFacts.
Import Parser.


End ParserFacts.

Section SpecScenarios.
Import Table.

(** Spec scenarios 1, 3, 5 and 6 run as the specification expects. *)
Example spec_scenarios_on_a_fresh_sheet :
  (let t := insertRows (setFormula (setValue (create 5 3) (mkPos 1 1) 10)
                                   (mkPos 2 1) "=A1") 1 1 in
   getSource t (mkPos 3 1) = "=A2"%string /\ getValue t (mkPos 3 1) = Some (Num 10))
  /\ getValue Scenario.sumAfter (mkPos 5 1) = Some (Num 7)
  /\ (let t := deleteCols (setFormula (setValue (create 5 3) (mkPos 1 2) 5)
                                      (mkPos 1 1) "=B1") 2 2 in
      CellStore.get (cells t) (mkAddress 0 0) = Some (CValue ErrRef)
      /\ deps t = DepGraph.empty)
  /\ (let t := insertRows (setFormula (setValue (create 6 3) (mkPos 1 1) 10)
                                      (mkPos 5 1) "=A1") 3 1 in
      CellStore.get (cells t) (mkAddress 4 0)
        = Some (CFormula (Ref (mkAnchor (mkAddress 4 0) rel rel (-5) 0)) (Some (Num 10)))
      /\ getSource t (mkPos 6 1) = "=A1"%string).
Proof. vm_compute. repeat split; reflexivity. Qed.

End SpecScenarios.

(* ================================================================== *)
(** * Edges into stored Sum formulas *)
(* ================================================================== *)

Section EdgeFacts.
Import DepGraph.

Lemma in_delete : forall (s : list Key) v x,
  In x (JS.delete keyEqb s v) <-> In x s /\ x <> v.
Proof.
  intros s v x. unfold JS.delete. rewrite filter_In. split.
  - intros [H1 H2]. split; [exact H1|]. intro E. subst.
    rewrite keyEqb_refl in H2. discriminate.
  - intros [H1 H2]. split; [exact H1|].
    apply negb_true_iff, keyEqb_neq. congruence.
Qed.

Lemma membersAt_dropFrom : forall m k v kx x,
  In x (membersAt m kx) -> x <> v -> In x (membersAt (dropFrom m k v) kx).
Proof.
  intros m k v kx x Hin Hne. unfold membersAt, dropFrom in *.
  destruct (JS.get keyEqb m k) as [s|] eqn:Ek; [|exact Hin].
  destruct (JS.delete keyEqb s v) as [|y s'] eqn:Ed.
  - rewrite get_mdelete. destruct (keyEqb kx k) eqn:E; [|exact Hin].
    apply keyEqb_eq in E. subst kx. rewrite Ek in Hin.
    assert (Hx : In x (JS.delete keyEqb s v)) by (apply in_delete; auto).
    rewrite Ed in Hx. destruct Hx.
  - rewrite get_set. destruct (keyEqb kx k) eqn:E; [|exact Hin].
    apply keyEqb_eq in E. subst kx. rewrite Ek in Hin.
    rewrite <- Ed. apply in_delete. auto.
Qed.

Lemma membersAt_dropLoop : forall keys m v kx x,
  In x (membersAt m kx) -> x <> v ->
  In x (membersAt (fold_left (fun out fromKey => dropFrom out fromKey v) keys m) kx).
Proof.
  induction keys as [|k keys IH]; intros m v kx x Hin Hne; simpl; [exact Hin|].
  apply IH; [|exact Hne]. apply membersAt_dropFrom; assumption.
Qed.

Lemma membersAt_addTo : forall m k v kx x,
  In x (membersAt m kx) -> In x (membersAt (addTo m k v) kx).
Proof.
  intros m k v kx x Hin. unfold membersAt, addTo in *.
  destruct (JS.get keyEqb m k) as [s|] eqn:Ek; rewrite get_set;
    destruct (keyEqb kx k) eqn:E; try exact Hin;
    apply keyEqb_eq in E; subst kx; rewrite Ek in Hin.
  - apply in_add. auto.
  - destruct Hin.
Qed.

Lemma membersAt_addTo_new : forall m k v, In v (membersAt (addTo m k v) k).
Proof.
  intros m k v. unfold membersAt, addTo.
  destruct (JS.get keyEqb m k) as [s|]; rewrite get_set, keyEqb_refl.
  - apply in_add. auto.
  - simpl. auto.
Qed.

Lemma hasEdge_membersAt : forall g from toKey,
  hasEdge g from toKey <-> In toKey (membersAt (outgoing g) (addressKey from)).
Proof. intros. unfold hasEdge, getDependents, membersAt. reflexivity. Qed.

Lemma addEdge_keeps_edge : forall g from to x kF,
  hasEdge g x kF -> hasEdge (addEdge g from to) x kF.
Proof.
  intros g from to x kF H. apply hasEdge_membersAt. apply hasEdge_membersAt in H.
  unfold addEdge. simpl. apply membersAt_addTo. exact H.
Qed.

Lemma addEdge_installs : forall g from to,
  hasEdge (addEdge g from to) from (addressKey to).
Proof.
  intros g from to. apply hasEdge_membersAt. unfold addEdge. simpl.
  apply membersAt_addTo_new.
Qed.

Lemma addLoop_keeps_edge : forall froms g to x kF,
  hasEdge g x kF ->
  hasEdge (fold_left (fun g' from => addEdge g' from to) froms g) x kF.
Proof.
  induction froms as [|f froms IH]; intros g to x kF H; simpl; [exact H|].
  apply IH. apply addEdge_keeps_edge. exact H.
Qed.

Lemma addLoop_installs : forall froms g to x,
  In x froms ->
  hasEdge (fold_left (fun g' from => addEdge g' from to) froms g) x (addressKey to).
Proof.
  induction froms as [|f froms IH]; intros g to x Hin; simpl; [destruct Hin|].
  destruct Hin as [Hin|Hin].
  - subst f. apply addLoop_keeps_edge. apply addEdge_installs.
  - apply IH. exact Hin.
Qed.

(** [replaceAllInbound] of a node leaves the edges into other nodes alone
    and installs an edge from every new producer. *)
Lemma replaceAllInbound_keeps_edge : forall g node newFrom x kF,
  kF <> addressKey node ->
  hasEdge g x kF -> hasEdge (replaceAllInbound g node newFrom) x kF.
Proof.
  intros g node newFrom x kF Hne H. unfold replaceAllInbound.
  apply addLoop_keeps_edge. apply hasEdge_membersAt. simpl.
  apply hasEdge_membersAt in H.
  destruct (JS.get keyEqb (incoming g) (addressKey node)); [|exact H].
  apply membersAt_dropLoop; assumption.
Qed.

Lemma replaceAllInbound_installs : forall g node newFrom x,
  In x newFrom -> hasEdge (replaceAllInbound g node newFrom) x (addressKey node).
Proof.
  intros g node newFrom x Hin. unfold replaceAllInbound.
  apply addLoop_installs. exact Hin.
Qed.

(** [removeAll] of a node leaves the edges between other nodes alone. *)
Lemma removeAll_keeps_edge : forall g node x kF,
  addressKey x <> addressKey node -> kF <> addressKey node ->
  hasEdge g x kF -> hasEdge (removeAll g node) x kF.
Proof.
  intros g node x kF Hx HF H. apply hasEdge_membersAt. apply hasEdge_membersAt in H.
  unfold removeAll.
  set (g1 := match JS.get keyEqb (outgoing g) (addressKey node) with
             | Some outSet => _
             | None => g
             end).
  assert (H1 : In kF (membersAt (outgoing g1) (addressKey x))).
  { unfold g1. destruct (JS.get keyEqb (outgoing g) (addressKey node)); [|exact H].
    simpl. unfold membersAt in *. rewrite get_mdelete.
    assert (E : keyEqb (addressKey x) (addressKey node) = false) by (apply keyEqb_neq; exact Hx).
    rewrite E. exact H. }
  destruct (JS.get keyEqb (incoming g1) (addressKey node)); [|exact H1].
  simpl. apply membersAt_dropLoop; assumption.
Qed.

End EdgeFacts.

Section WatchedSums.
Import Table.

Lemma expandRange_frame : forall t t' rg,
  rows t' = rows t -> cols t' = cols t -> expandRange t' rg = expandRange t rg.
Proof.
  intros [r1 c1 s1 g1 w1] [r2 c2 s2 g2 w2] rg Hr Hc. simpl in Hr, Hc. subst.
  reflexivity.
Qed.

Lemma recalcStep_keeps_edge : forall t k x kF,
  kF <> k -> hasEdge (deps t) x kF -> hasEdge (deps (recalcStep t k)) x kF.
Proof.
  intros t k x kF Hne H. unfold recalcStep.
  destruct (CellStore.get (cells t) (parseAddressKey k)) as [[v|f cached]|]; auto.
  destruct f as [a|rg]; simpl.
  - destruct (Parser.anchorToAddress a (rows t) (cols t)); simpl; auto.
    destruct (CellStore.get (cells t) a0) as [[v|f c0]|]; simpl; auto.
  - apply replaceAllInbound_keeps_edge; [|exact H].
    rewrite key_parse_roundtrip. exact Hne.
Qed.

Lemma recalcLoop_keeps_edge : forall keys t x kF,
  ~ In kF keys -> hasEdge (deps t) x kF ->
  hasEdge (deps (fold_left recalcStep keys t)) x kF.
Proof.
  induction keys as [|k keys IH]; intros t x kF Hn H; simpl; [exact H|].
  apply IH; [intro; apply Hn; simpl; auto|].
  apply recalcStep_keeps_edge; [intro; subst; apply Hn; simpl; auto|exact H].
Qed.

Lemma recalcStep_completes : forall t k f cached,
  JS.get keyEqb (cells t) k = Some (CFormula f cached) ->
  edgesComplete (recalcStep t k) k.
Proof.
  intros t k f cached Hget rg c' Hcell x Hx.
  destruct (recalcStep_frame t k) as (Hr & Hc & _ & _).
  rewrite (expandRange_frame t (recalcStep t k) rg Hr Hc) in Hx.
  rewrite (recalcStep_formula _ _ _ _ Hget) in Hcell. inversion Hcell; subst f.
  unfold recalcStep, CellStore.get. rewrite key_parse_roundtrip, Hget. simpl.
  replace k with (addressKey (parseAddressKey k)) at 2 by apply key_parse_roundtrip.
  apply replaceAllInbound_installs. exact Hx.
Qed.

Lemma recalcStep_keeps_complete : forall t k kF,
  edgesComplete t kF -> edgesComplete (recalcStep t k) kF.
Proof.
  intros t k kF Hcomp.
  destruct (JS.has keyEqb [k] kF) eqn:E.
  - apply has_In in E. destruct E as [E|[]]. subst kF.
    destruct (JS.get keyEqb (cells t) k) as [[v|f cached]|] eqn:Hget.
    + unfold recalcStep, CellStore.get. rewrite key_parse_roundtrip, Hget. exact Hcomp.
    + eapply recalcStep_completes; eauto.
    + unfold recalcStep, CellStore.get. rewrite key_parse_roundtrip, Hget. exact Hcomp.
  - apply has_false_notin in E.
    assert (Hne : k <> kF) by (intro; subst; apply E; simpl; auto).
    intros rg cached Hcell x Hx.
    destruct (recalcStep_frame t k) as (Hr & Hc & _ & _).
    rewrite (expandRange_frame t (recalcStep t k) rg Hr Hc) in Hx.
    rewrite (recalcStep_other t k kF Hne) in Hcell.
    apply recalcStep_keeps_edge; [congruence|].
    eapply Hcomp; eauto.
Qed.

Lemma recalcLoop_keeps_complete : forall keys t kF,
  edgesComplete t kF -> edgesComplete (fold_left recalcStep keys t) kF.
Proof.
  induction keys as [|k keys IH]; intros t kF H; simpl; [exact H|].
  apply IH. apply recalcStep_keeps_complete. exact H.
Qed.

Lemma recalcLoop_completes : forall keys t kF f cached,
  In kF keys ->
  JS.get keyEqb (cells t) kF = Some (CFormula f cached) ->
  edgesComplete (fold_left recalcStep keys t) kF.
Proof.
  induction keys as [|k keys IH]; intros t kF f cached Hin Hget; [destruct Hin|].
  simpl. destruct (JS.has keyEqb [k] kF) eqn:E.
  - apply has_In in E. destruct E as [E|[]]. subst k.
    apply recalcLoop_keeps_complete. eapply recalcStep_completes; eauto.
  - apply has_false_notin in E.
    assert (Hne : k <> kF) by (intro; subst; apply E; simpl; auto).
    destruct Hin as [Hin|Hin]; [contradiction|].
    eapply IH; [exact Hin|]. rewrite (recalcStep_other t k kF Hne). exact Hget.
Qed.

(** [recalc] establishes the invariant when the formulas it does not
    reach had their edges before. *)
Lemma recalc_sumWatched : forall t dirty,
  (forall kF rg n x,
     JS.get keyEqb (cells t) kF = Some (CFormula (Sum rg) (Some (Num n))) ->
     ~ In kF (recalcOrder t dirty) ->
     In x (expandRange t rg) ->
     CellStore.get (cells t) x = None ->
     hasEdge (deps t) x kF) ->
  sumWatched (recalc t dirty).
Proof.
  intros t dirty Hpre kF rg n Hcell x Hx Hempty.
  destruct (recalc_frame t dirty) as (Hr & Hc & _ & Hup).
  rewrite (expandRange_frame t (recalc t dirty) rg Hr Hc) in Hx.
  assert (Hempty' : CellStore.get (cells t) x = None).
  { specialize (Hup (addressKey x)). unfold CellStore.get in *. rewrite Hempty in Hup.
    destruct (JS.get keyEqb (cells t) (addressKey x)); [contradiction|reflexivity]. }
  unfold recalc in *.
  destruct (JS.has keyEqb (recalcOrder t dirty) kF) eqn:E.
  - apply has_In in E.
    assert (Hform : exists c0, JS.get keyEqb (cells t) kF = Some (CFormula (Sum rg) c0)).
    { specialize (Hup kF). rewrite Hcell in Hup.
      destruct (JS.get keyEqb (cells t) kF) as [[v|f c0]|]; simpl in Hup; try contradiction.
      subst f. eauto. }
    destruct Hform as (c0 & Hform).
    pose proof (recalcLoop_completes _ t kF _ _ E Hform) as Hcomp.
    eapply Hcomp; [exact Hcell|].
    rewrite (expandRange_frame t _ rg Hr Hc). exact Hx.
  - apply has_false_notin in E.
    rewrite (recalcLoop_other _ t kF E) in Hcell.
    apply recalcLoop_keeps_edge; [exact E|].
    eapply Hpre; eauto.
Qed.

Lemma get_Some_in_entries : forall (V : Type) (m : list (Key * V)) k v,
  JS.get keyEqb m k = Some v -> In (k, v) m.
Proof.
  intros V m k v. induction m as [|[k0 v0] m IH]; simpl; [discriminate|].
  destruct (keyEqb k k0) eqn:E.
  - apply keyEqb_eq in E. intros H. inversion H; subst. auto.
  - auto.
Qed.

Lemma in_add_left : forall (s : list Key) k x, In x s -> In x (JS.add keyEqb s k).
Proof. intros. apply in_add. auto. Qed.

Lemma spliceStep_dirty : forall s t d e k,
  In k d -> In k (snd (spliceStep s (t, d) e)).
Proof.
  intros s t d [key cell] k H. unfold spliceStep.
  destruct cell as [v|f cached]; simpl; [exact H|].
  destruct (transformFormula f s (rows t) (cols t)); simpl; apply in_add_left; exact H.
Qed.

(** The first loop of [applySplice] marks every formula cell dirty. *)
Lemma spliceLoop_dirty : forall s entries t d,
  (forall k, In k d -> In k (snd (fold_left (spliceStep s) entries (t, d))))
  /\ (forall k f cached, In (k, CFormula f cached) entries ->
                         In k (snd (fold_left (spliceStep s) entries (t, d)))).
Proof.
  intros s entries. induction entries as [|e entries IH]; intros t d.
  - simpl. split; [auto|]. intros k f cached [].
  - cbn [fold_left]. destruct (spliceStep s (t, d) e) as [t1 d1] eqn:E.
    destruct (IH t1 d1) as (IH1 & IH2). split.
    + intros k Hk. apply IH1.
      pose proof (spliceStep_dirty s t d e k Hk) as H. rewrite E in H. exact H.
    + intros k f cached [Hk|Hk]; [|eapply IH2; eauto].
      subst e. apply IH1. unfold spliceStep in E.
      destruct (transformFormula f s (rows t) (cols t));
        inversion E; subst; apply in_add; auto.
Qed.

(** A splice recalculates every formula cell, so it establishes the
    invariant whatever the sheet was. *)
Lemma splice_case : forall t s,
  tableReachable t -> sumWatched (applySplice t s).
Proof.
  intros t s Hreach. unfold applySplice.
  pose proof (reachable_store_keys_distinct t Hreach) as ND.
  pose proof (spliceLoop_cells s (CellStore.entries (cells t)) t [] ND) as Hcells.
  pose proof (spliceLoop_dirty s (CellStore.entries (cells t)) t []) as [_ Hdirty].
  assert (Hall : forall k0 cell0, In (k0, cell0) (CellStore.entries (cells t)) ->
                                  JS.get keyEqb (cells t) k0 = Some cell0).
  { intros k0 cell0 Hin. apply get_in_NoDup; assumption. }
  specialize (Hcells Hall). cbv zeta in Hcells.
  destruct (fold_left (spliceStep s) (CellStore.entries (cells t)) (t, [])) as [t1 dirty].
  simpl in Hcells, Hdirty.
  assert (Hmark : forall kF f cached,
            JS.get keyEqb (cells t1) kF = Some (CFormula f cached) -> In kF dirty).
  { intros kF f cached Hget. rewrite Hcells in Hget. unfold CellStore.entries in *.
    destruct (JS.get keyEqb (cells t) kF) as [cell|] eqn:E; [|discriminate].
    destruct cell as [v|f0 c0]; [discriminate|].
    eapply Hdirty. eapply get_Some_in_entries. exact E. }
  assert (Hreached : forall t2, cells t2 = cells t1 ->
            forall kF f cached,
              JS.get keyEqb (cells t2) kF = Some (CFormula f cached) ->
              In kF (recalcOrder t2 dirty)).
  { intros t2 Hc kF f cached Hget. rewrite Hc in Hget.
    unfold recalcOrder. apply topologicalSort_complete.
    destruct (affectedFrom_total (deps t2) dirty) as (res & _ & Heq & Hin).
    rewrite Heq. apply Hin. eapply Hmark; eauto. }
  destruct (axis s); apply recalc_sumWatched;
    intros kF rg n x Hget Hnot; exfalso; apply Hnot;
    eapply Hreached; eauto.
Qed.

Lemma setCell_sumWatched : forall t y cell g,
  sumWatched t ->
  (forall rg n, cell <> CFormula (Sum rg) (Some (Num n))) ->
  (forall x kF, addressKey x <> addressKey y -> kF <> addressKey y ->
                hasEdge (deps t) x kF -> hasEdge g x kF) ->
  forall kF rg n x,
    JS.get keyEqb (CellStore.set (cells t) y cell) kF
      = Some (CFormula (Sum rg) (Some (Num n))) ->
    In x (expandRange t rg) ->
    JS.get keyEqb (CellStore.set (cells t) y cell) (addressKey x) = None ->
    hasEdge g x kF.
Proof.
  intros t y cell g Hinv Hcell Hedge kF rg n x Hget Hx Hempty.
  unfold CellStore.set in *. rewrite get_set in Hget, Hempty.
  destruct (keyEqb kF (addressKey y)) eqn:E1.
  { inversion Hget. exfalso. eapply Hcell; eauto. }
  destruct (keyEqb (addressKey x) (addressKey y)) eqn:E2; [discriminate|].
  apply keyEqb_neq in E1, E2.
  apply Hedge; auto. eapply Hinv; eauto.
Qed.

(** After every public operation, every stored Sum whose cached value is
    a number has an edge from every empty address of its rectangle. *)
Theorem reachable_sum_watched : forall t, tableReachable t -> sumWatched t.
Proof.
  intros t H.
  induction H as [ir ic | t pos v H IH | t pos src H IH | t p k H IH
                 | t p q H IH | t p k H IH | t p q H IH].
  - intros kF rg n Hget. discriminate.
  - (* setValue *)
    unfold setValue. destruct (posToAddr t pos) as [y|]; [|exact IH].
    apply recalc_sumWatched. intros kF rg n x Hget _ Hx Hempty.
    destruct (CellStore.get (cells t) y) as [[v0|f0 c0]|] eqn:Eold; simpl in *.
    + eapply (setCell_sumWatched t y (CValue (Num v)) (deps t)); eauto.
      intros; discriminate.
    + eapply (setCell_sumWatched t y (CValue (Num v))
                (DepGraph.removeAll (deps t) y)); eauto.
      * intros; discriminate.
      * intros. apply removeAll_keeps_edge; assumption.
    + eapply (setCell_sumWatched t y (CValue (Num v)) (deps t)); eauto.
      intros; discriminate.
  - (* setFormula *)
    unfold setFormula. destruct (posToAddr t pos) as [y|]; [|exact IH].
    destruct (Parser.parseFormula src pos (rows t) (cols t)) as [formula|].
    + unfold installFormula.
      match goal with |- context [if ?b then _ else _] => destruct b end.
      * intros kF rg n Hget x Hx Hempty. simpl in *.
        eapply (setCell_sumWatched t y (CFormula formula (Some ErrCycle))
                  (DepGraph.removeAll (deps t) y)); eauto.
        -- intros; discriminate.
        -- intros. apply removeAll_keeps_edge; assumption.
      * apply recalc_sumWatched. intros kF rg n x Hget _ Hx Hempty.
        assert (Hgoal : hasEdge
                  (fold_left (fun g dep => DepGraph.addEdge g dep y)
                     (collectDependencies t formula) (DepGraph.removeAll (deps t) y)) x kF).
        { eapply (setCell_sumWatched t y (CFormula formula None) _).
          - exact IH.
          - intros; discriminate.
          - intros x0 kF0 Hx0 Hk0 He. apply addLoop_keeps_edge.
            apply removeAll_keeps_edge; assumption.
          - destruct formula; exact Hget.
          - destruct formula; exact Hx.
          - destruct formula; exact Hempty. }
        destruct formula; exact Hgoal.
    + intros kF rg n Hget x Hx Hempty. simpl in *.
      eapply (setCell_sumWatched t y (CValue ErrRef) (deps t)); eauto.
      intros; discriminate.
  - apply (splice_case t (mkSplice AxRow p 0 k)); assumption.
  - apply (splice_case t (mkSplice AxRow p (q - p + 1) 0)); assumption.
  - apply (splice_case t (mkSplice AxCol p 0 k)); assumption.
  - apply (splice_case t (mkSplice AxCol p (q - p + 1) 0)); assumption.
Qed.

(** C8, amended.  On every sheet reachable through the public operations,
    take a stored Sum formula whose cached value is a number (a Sum stored
    under the cycle policy shows [#CYCLE!] and has no edges) and an address
    inside its resolved rectangle that holds no cell.  Then [setValue] on
    that address re-evaluates the formula before it returns: the formula
    is in the order [recalc] works through, and the cached value it has
    afterwards is the one [evalFormula] computed when [recalc] reached it. *)
Theorem C8_write_into_watched_empty_cell_reevaluates :
  forall (t : Sheet) (pos : Position) (v : Z) (addr formulaAddr : Address)
         (rg : RangeRef) (n : Z),
    tableReachable t ->
    posToAddr t pos = Some addr ->
    CellStore.get (cells t) addr = None ->
    CellStore.get (cells t) formulaAddr = Some (CFormula (Sum rg) (Some (Num n))) ->
    In addr (expandRange t rg) ->
    let written := withCells t (CellStore.set (cells t) addr (CValue (Num v))) in
    exists before after : list Key,
      recalcOrder written [addressKey addr]
        = before ++ addressKey formulaAddr :: after
      /\ ~ In (addressKey formulaAddr) after
      /\ CellStore.get (cells (setValue t pos v)) formulaAddr
         = Some (CFormula (Sum rg)
                   (Some (fst (evalFormula (fold_left recalcStep before written)
                                           (Sum rg) formulaAddr)))).
Proof.
  intros t pos v addr formulaAddr rg n Hreach Hpos Hempty Hsum Hrect.
  apply (setValue_reevaluates_watching_sum t pos v addr formulaAddr rg (Some (Num n)));
    try assumption.
  exact (reachable_sum_watched t Hreach (addressKey formulaAddr) rg n Hsum addr Hrect Hempty).
Qed.

(** Spec scenario 3: [=SUM(A1:A4)] at (5,1), then 7 written into (2,1). *)
Lemma C8_write_into_watched_empty_cell_reevaluates_witness :
  tableReachable Scenario.sumBefore
  /\ posToAddr Scenario.sumBefore (mkPos 2 1) = Some (mkAddress 1 0)
  /\ CellStore.get (cells Scenario.sumBefore) (mkAddress 1 0) = None
  /\ getValue Scenario.sumBefore (mkPos 5 1) = Some (Num 0)
  /\ getValue Scenario.sumAfter (mkPos 5 1) = Some (Num 7)
  /\ exists before after : list Key,
       recalcOrder
         (withCells Scenario.sumBefore
            (CellStore.set (cells Scenario.sumBefore) (mkAddress 1 0) (CValue (Num 7))))
         [addressKey (mkAddress 1 0)]
       = before ++ addressKey (mkAddress 4 0) :: after
       /\ ~ In (addressKey (mkAddress 4 0)) after
       /\ CellStore.get (cells (setValue Scenario.sumBefore (mkPos 2 1) 7)) (mkAddress 4 0)
          = Some (CFormula (Sum Scenario.sumRange)
                    (Some (fst (evalFormula
                                  (fold_left recalcStep before
                                     (withCells Scenario.sumBefore
                                        (CellStore.set (cells Scenario.sumBefore)
                                           (mkAddress 1 0) (CValue (Num 7)))))
                                  (Sum Scenario.sumRange) (mkAddress 4 0))))).
Proof.
  assert (Hreach : tableReachable Scenario.sumBefore).
  { unfold Scenario.sumBefore. apply reach_setFormula, reach_new. }
  split; [exact Hreach|].
  split; [reflexivity|]. split; [reflexivity|]. split; [reflexivity|].
  split; [reflexivity|].
  apply (C8_write_into_watched_empty_cell_reevaluates Scenario.sumBefore (mkPos 2 1) 7
           (mkAddress 1 0) (mkAddress 4 0) Scenario.sumRange 0).
  - exact Hreach.
  - reflexivity.
  - reflexivity.
  - reflexivity.
  - vm_compute. right. left. reflexivity.
Defined.

End WatchedSums.

(* ================================================================== *)
(** * Column letters and decimal text *)
(* ================================================================== *)

Section ColumnLetters.
Import Parser.
Local Arguments Z.add _ _ : simpl never.
Local Arguments Z.sub _ _ : simpl never.
Local Arguments Z.mul _ _ : simpl never.
Local Arguments Z.ltb _ _ : simpl never.
Local Arguments Z.leb _ _ : simpl never.
Local Arguments Z.of_nat _ : simpl never.
Local Arguments Z.to_nat _ : simpl never.
Local Arguments Z.modulo _ _ : simpl never.
Local Arguments Z.div _ _ : simpl never.

Lemma code_range : forall ch, 0 <= code ch < 256.
Proof.
  intros ch. unfold code. pose proof (nat_ascii_bounded ch). lia.
Qed.

Lemma code_fromCharCode : forall n, 0 <= n < 256 -> code (fromCharCode n) = n.
Proof.
  intros n H. unfold code, fromCharCode.
  rewrite nat_ascii_embedding by lia. lia.
Qed.


Lemma colToLetter_loop_acc : forall fuel col acc,
  colToLetter_loop fuel col acc = colToLetter_loop fuel col [] ++ acc.
Proof.
  induction fuel as [|f IH]; intros col acc; simpl.
  - reflexivity.
  - destruct (0 <? col).
    + rewrite IH. rewrite (IH _ [_]). rewrite <- app_assoc. reflexivity.
    + reflexivity.
Qed.

Lemma letterToCol_snoc : forall s ch,
  letterToCol (s ++ [ch]) = letterToCol s * 26 + (code ch - 65 + 1).
Proof.
  intros s ch. unfold letterToCol. rewrite fold_left_app. reflexivity.
Qed.


Lemma colToLetter_loop_spec : forall fuel col,
  (Z.to_nat col <= fuel)%nat ->
  letterToCol (colToLetter_loop fuel col []) = Z.max 0 col
  /\ forallb isUpper (colToLetter_loop fuel col []) = true
  /\ (colToLetter_loop fuel col [] = [] <-> col <= 0).
Proof.
  induction fuel as [|f IH]; intros col Hf.
  - simpl. unfold letterToCol. simpl. repeat split; try lia.
  - simpl. destruct (0 <? col) eqn:E.
    + apply Z.ltb_lt in E.
      assert (Hq : 0 <= (col - 1) / 26) by (apply Z.div_pos; lia).
      assert (Hr : 0 <= (col - 1) mod 26 < 26) by (apply Z.mod_pos_bound; lia).
      assert (Hd : col - 1 = 26 * ((col - 1) / 26) + (col - 1) mod 26)
        by (apply Z.div_mod; lia).
      assert (Hf' : (Z.to_nat ((col - 1) / 26) <= f)%nat) by lia.
      destruct (IH _ Hf') as [I1 [I2 I3]].
      rewrite colToLetter_loop_acc.
      repeat split.
      * rewrite letterToCol_snoc, I1, code_fromCharCode by lia. lia.
      * rewrite forallb_app, I2. simpl. unfold isUpper.
        rewrite code_fromCharCode by lia.
        replace (65 <=? 65 + (col - 1) mod 26) with true by (symmetry; apply Z.leb_le; lia).
        replace (65 + (col - 1) mod 26 <=? 90) with true by (symmetry; apply Z.leb_le; lia).
        reflexivity.
      * intros H. apply app_eq_nil in H. destruct H as [_ H]. discriminate.
      * intros H. lia.
    + apply Z.ltb_ge in E. unfold letterToCol. simpl. repeat split; try lia.
Qed.



End ColumnLetters.

Section DecimalText.
Import Parser.
Local Arguments Z.add _ _ : simpl never.
Local Arguments Z.mul _ _ : simpl never.
Local Arguments Z.sub _ _ : simpl never.

Local Ltac code_value :=
  match goal with
  | |- context [code ?ch] =>
      let v := eval vm_compute in (code ch) in change (code ch) with v
  end.

Lemma parseInt_uint_acc : forall d acc,
  fold_left (fun n ch => n * 10 + (code ch - 48))
            (list_ascii_of_string (NilEmpty.string_of_uint d)) (Z.pos acc)
  = Z.pos (Pos.of_uint_acc d acc).
Proof.
  induction d; intros acc;
    cbn [NilEmpty.string_of_uint list_ascii_of_string fold_left Pos.of_uint_acc];
    try reflexivity; rewrite <- IHd; f_equal; code_value; lia.
Qed.

Lemma parseInt_uint : forall d,
  parseInt (list_ascii_of_string (NilEmpty.string_of_uint d)) = Z.of_N (Pos.of_uint d).
Proof.
  unfold parseInt.
  induction d;
    cbn [NilEmpty.string_of_uint list_ascii_of_string fold_left Pos.of_uint];
    try reflexivity;
    try (cbn [Z.of_N]; rewrite <- parseInt_uint_acc; f_equal; code_value; lia).
  rewrite <- IHd. f_equal.
Qed.

Lemma uint_digits : forall d,
  forallb isDigit (list_ascii_of_string (NilEmpty.string_of_uint d)) = true.
Proof.
  induction d; simpl; try reflexivity; exact IHd.
Qed.

Lemma to_uint_not_nil : forall p, Pos.to_uint p <> Decimal.Nil.
Proof.
  intros p H. pose proof (DecimalPos.Unsigned.of_to p) as E.
  rewrite H in E. discriminate.
Qed.

Lemma numberToString_pos : forall p,
  numberToString (Z.pos p)
  = list_ascii_of_string (NilEmpty.string_of_uint (Pos.to_uint p)).
Proof.
  intros p. unfold numberToString. simpl.
  pose proof (to_uint_not_nil p) as H.
  destruct (Pos.to_uint p); try reflexivity. contradiction.
Qed.

Lemma numberToString_spec : forall n,
  0 <= n ->
  parseInt (numberToString n) = n
  /\ forallb isDigit (numberToString n) = true
  /\ numberToString n <> [].
Proof.
  intros n Hn. destruct n as [|p|p]; try lia.
  - repeat split; try reflexivity. discriminate.
  - rewrite numberToString_pos. repeat split.
    + rewrite parseInt_uint, DecimalPos.Unsigned.of_to. reflexivity.
    + apply uint_digits.
    + pose proof (to_uint_not_nil p) as H.
      destruct (Pos.to_uint p); try contradiction; discriminate.
Qed.

End DecimalText.

(* ================================================================== *)
(** * Printed references and formulas *)
(* ================================================================== *)

Section ReferenceText.
Import Parser.
Local Arguments Z.add _ _ : simpl never.
Local Arguments Z.sub _ _ : simpl never.
Local Arguments Z.mul _ _ : simpl never.
Local Arguments Z.ltb _ _ : simpl never.
Local Arguments Z.leb _ _ : simpl never.

Lemma matchReference_unfold : forall s,
  matchReference s =
  let (colAbs, s1) := optionalDollar s in
  let (letters, s2) := span isUpper s1 in
  match letters with
  | [] => None
  | _ =>
      let (rowAbs, s3) := optionalDollar s2 in
      match s3 with
      | [] => None
      | _ => if forallb isDigit s3
             then Some (colAbs, letters, rowAbs, s3)
             else None
      end
  end.
Proof. reflexivity. Qed.

Lemma optionalDollar_other : forall ch rest,
  Ascii.eqb ch "$"%char = false -> optionalDollar (ch :: rest) = (false, ch :: rest).
Proof.
  intros ch rest H.
  destruct ch as [[] [] [] [] [] [] [] []]; try reflexivity; discriminate H.
Qed.

Lemma upper_not_dollar : forall ch, isUpper ch = true -> Ascii.eqb ch "$"%char = false.
Proof.
  intros ch H. destruct (Ascii.eqb_spec ch "$"%char) as [E|E]; [|reflexivity].
  subst ch. discriminate H.
Qed.

Lemma digit_not_dollar : forall ch, isDigit ch = true -> Ascii.eqb ch "$"%char = false.
Proof.
  intros ch H. destruct (Ascii.eqb_spec ch "$"%char) as [E|E]; [|reflexivity].
  subst ch. discriminate H.
Qed.

Lemma digit_not_upper : forall ch, isDigit ch = true -> isUpper ch = false.
Proof.
  intros ch H. unfold isDigit, isUpper in *.
  apply andb_true_iff in H. destruct H as [H1 H2].
  apply Z.leb_le in H1. apply Z.leb_le in H2.
  apply andb_false_iff. left. apply Z.leb_gt. lia.
Qed.

Lemma span_app_stop : forall (p : ascii -> bool) l rest,
  forallb p l = true ->
  match rest with [] => True | ch :: _ => p ch = false end ->
  span p (l ++ rest) = (l, rest).
Proof.
  induction l as [|x l IH]; intros rest Hl Hr; simpl.
  - destruct rest as [|ch rest']; [reflexivity|]. simpl. rewrite Hr. reflexivity.
  - simpl in Hl. apply andb_true_iff in Hl. destruct Hl as [Hx Hl].
    rewrite Hx, (IH rest Hl Hr). reflexivity.
Qed.

(** The reference pattern reads back the four parts of a printed
    reference. *)
Lemma matchReference_printed : forall (colAbs rowAbs : bool) letters digits,
  letters <> [] -> forallb isUpper letters = true ->
  digits <> [] -> forallb isDigit digits = true ->
  matchReference ((if colAbs then ["$"%char] else []) ++ letters
                  ++ (if rowAbs then ["$"%char] else []) ++ digits)
  = Some (colAbs, letters, rowAbs, digits).
Proof.
  intros colAbs rowAbs letters digits HL HLu HD HDd.
  destruct letters as [|l0 letters]; [contradiction|].
  destruct digits as [|d0 digits]; [contradiction|].
  assert (Hl0 : isUpper l0 = true)
    by (simpl in HLu; apply andb_true_iff in HLu; tauto).
  assert (Hd0 : isDigit d0 = true)
    by (simpl in HDd; apply andb_true_iff in HDd; tauto).
  rewrite matchReference_unfold.
  assert (E1 : optionalDollar ((if colAbs then ["$"%char] else []) ++ (l0 :: letters)
                 ++ (if rowAbs then ["$"%char] else []) ++ d0 :: digits)
               = (colAbs, (l0 :: letters)
                          ++ (if rowAbs then ["$"%char] else []) ++ d0 :: digits)).
  { destruct colAbs; [reflexivity|].
    simpl. apply optionalDollar_other. apply upper_not_dollar. exact Hl0. }
  rewrite E1.
  rewrite (span_app_stop isUpper (l0 :: letters) _ HLu).
  2:{ destruct rowAbs; simpl; [reflexivity|]. apply digit_not_upper. exact Hd0. }
  assert (E2 : optionalDollar ((if rowAbs then ["$"%char] else []) ++ d0 :: digits)
               = (rowAbs, d0 :: digits)).
  { destruct rowAbs; [reflexivity|].
    simpl. apply optionalDollar_other. apply digit_not_dollar. exact Hd0. }
  rewrite E2. rewrite HDd. reflexivity.
Qed.

End ReferenceText.

Section PrintedReferences.
Import Parser.
Local Arguments Z.add _ _ : simpl never.
Local Arguments Z.sub _ _ : simpl never.
Local Arguments Z.mul _ _ : simpl never.
Local Arguments Z.ltb _ _ : simpl never.
Local Arguments Z.leb _ _ : simpl never.
Local Arguments Z.of_nat _ : simpl never.
Local Arguments Z.to_nat _ : simpl never.

Lemma steady_posToId_bounds : forall ax p id,
  steady ax -> AxisIndex.posToId ax p = Some id ->
  1 <= p <= AxisIndex.maxPos ax.
Proof.
  intros ax p id [l [Hs _]] H.
  unfold AxisIndex.posToId, AxisIndex.maxPos in *. rewrite Hs in *.
  simpl in *. unfold AxisIndex.segLen in *. simpl in *.
  destruct (1 <=? p) eqn:E1; simpl in H; [|discriminate].
  destruct (p <=? 1 + Z.of_nat (length l) - 1) eqn:E2; [|discriminate].
  apply Z.leb_le in E1. apply Z.leb_le in E2. lia.
Qed.

(** What [anchorToAddress] computes on steady axes, in terms of
    positions. *)
Lemma anchorToAddress_steady : forall a rowAxis colAxis addr,
  steady rowAxis -> steady colAxis ->
  anchorToAddress a rowAxis colAxis = Some addr ->
  exists br bc,
    AxisIndex.idToPos rowAxis (row (base a)) = Some br
    /\ AxisIndex.idToPos colAxis (col (base a)) = Some bc
    /\ AxisIndex.idToPos rowAxis (row addr) = Some (br + dRow a)
    /\ AxisIndex.idToPos colAxis (col addr) = Some (bc + dCol a)
    /\ 1 <= br + dRow a /\ 1 <= bc + dCol a.
Proof.
  intros a rowAxis colAxis addr Hr Hc H.
  unfold anchorToAddress in H.
  destruct (AxisIndex.idToPos rowAxis (row (base a))) as [br|] eqn:Ebr; [|discriminate].
  destruct (AxisIndex.idToPos colAxis (col (base a))) as [bc|] eqn:Ebc; [|discriminate].
  assert (Ht : match AxisIndex.posToId rowAxis (br + dRow a),
                     AxisIndex.posToId colAxis (bc + dCol a) with
               | Some targetRowId, Some targetColId =>
                   Some (mkAddress targetRowId targetColId)
               | _, _ => None
               end = Some addr)
    by (destruct (rowMode a), (colMode a); exact H).
  clear H.
  destruct (AxisIndex.posToId rowAxis (br + dRow a)) as [tr|] eqn:Etr; [|discriminate].
  destruct (AxisIndex.posToId colAxis (bc + dCol a)) as [tc|] eqn:Etc; [|discriminate].
  inversion Ht; subst addr; clear Ht. simpl.
  exists br, bc. repeat split; try reflexivity.
  - apply (steady_axis_bijection rowAxis _ _ Hr). exact Etr.
  - apply (steady_axis_bijection colAxis _ _ Hc). exact Etc.
  - apply (steady_posToId_bounds rowAxis _ _ Hr Etr).
  - apply (steady_posToId_bounds colAxis _ _ Hc Etc).
Qed.

Lemma formatAnchor_steady : forall a rowAxis colAxis addr br bc,
  anchorToAddress a rowAxis colAxis = Some addr ->
  AxisIndex.idToPos rowAxis (row addr) = Some br ->
  AxisIndex.idToPos colAxis (col addr) = Some bc ->
  formatAnchor a rowAxis colAxis
  = (if match colMode a with abs => true | rel => false end then ["$"%char] else [])
    ++ colToLetter bc
    ++ (if match rowMode a with abs => true | rel => false end then ["$"%char] else [])
    ++ numberToString br.
Proof.
  intros a rowAxis colAxis addr br bc H Hr Hc.
  unfold formatAnchor. rewrite H, Hr, Hc.
  destruct (colMode a), (rowMode a); reflexivity.
Qed.

Lemma parseReference_formatAnchor : forall a pos rowAxis colAxis addr,
  steady rowAxis -> steady colAxis ->
  AxisIndex.posToId rowAxis (r pos) = Some (row (base a)) ->
  AxisIndex.posToId colAxis (c pos) = Some (col (base a)) ->
  anchorToAddress a rowAxis colAxis = Some addr ->
  parseReference (formatAnchor a rowAxis colAxis) pos rowAxis colAxis = Some a.
Proof.
  intros a pos rowAxis colAxis addr Hr Hc Hbr Hbc H.
  destruct (anchorToAddress_steady a rowAxis colAxis addr Hr Hc H)
    as [br [bc [Ebr [Ebc [Etr [Etc [Hr1 Hc1]]]]]]].
  apply (steady_axis_bijection rowAxis _ _ Hr) in Hbr.
  apply (steady_axis_bijection colAxis _ _ Hc) in Hbc.
  rewrite Hbr in Ebr. rewrite Hbc in Ebc.
  inversion Ebr; subst br. inversion Ebc; subst bc.
  rewrite (formatAnchor_steady a rowAxis colAxis addr _ _ H Etr Etc).
  destruct (numberToString_spec (r pos + dRow a)) as [N1 [N2 N3]]; [lia|].
  destruct (colToLetter_loop_spec (Z.to_nat (c pos + dCol a)) (c pos + dCol a))
    as [L1 [L2 L3]]; [lia|].
  fold (colToLetter (c pos + dCol a)) in L1, L2, L3.
  unfold parseReference.
  rewrite matchReference_printed; try assumption.
  2:{ intros E. apply L3 in E. lia. }
  apply (steady_axis_bijection rowAxis _ _ Hr) in Hbr.
  apply (steady_axis_bijection colAxis _ _ Hc) in Hbc.
  rewrite Hbr, Hbc, N1, L1.
  destruct a as [[brow bcol] rm cm dr dc]; simpl in *.
  f_equal. f_equal.
  - destruct rm; reflexivity.
  - destruct cm; reflexivity.
  - lia.
  - lia.
Qed.

(** A printed reference holds only dollar signs, capital letters and
    digits. *)
Lemma formatAnchor_chars : forall a rowAxis colAxis addr,
  steady rowAxis -> steady colAxis ->
  anchorToAddress a rowAxis colAxis = Some addr ->
  forallb refChar (formatAnchor a rowAxis colAxis) = true
  /\ formatAnchor a rowAxis colAxis <> [].
Proof.
  intros a rowAxis colAxis addr Hr Hc H.
  destruct (anchorToAddress_steady a rowAxis colAxis addr Hr Hc H)
    as [br [bc [Ebr [Ebc [Etr [Etc [Hr1 Hc1]]]]]]].
  rewrite (formatAnchor_steady a rowAxis colAxis addr _ _ H Etr Etc).
  destruct (numberToString_spec (br + dRow a)) as [N1 [N2 N3]]; [lia|].
  destruct (colToLetter_loop_spec (Z.to_nat (bc + dCol a)) (bc + dCol a))
    as [L1 [L2 L3]]; [lia|].
  fold (colToLetter (bc + dCol a)) in L1, L2, L3.
  split.
  - rewrite !forallb_app.
    assert (U : forallb refChar (colToLetter (bc + dCol a)) = true).
    { rewrite forallb_forall in *. intros x Hx. unfold refChar.
      rewrite (L2 x Hx). reflexivity. }
    assert (Dg : forallb refChar (numberToString (br + dRow a)) = true).
    { rewrite forallb_forall in *. intros x Hx. unfold refChar.
      rewrite (N2 x Hx). rewrite orb_true_r. reflexivity. }
    rewrite U, Dg. destruct (colMode a), (rowMode a); reflexivity.
  - intros E. apply app_eq_nil in E. destruct E as [_ E].
    apply app_eq_nil in E. destruct E as [E _]. apply L3 in E. lia.
Qed.

Lemma refChar_code : forall ch,
  refChar ch = true -> code ch = 36 \/ 48 <= code ch <= 57 \/ 65 <= code ch <= 90.
Proof.
  intros ch H. unfold refChar, isUpper, isDigit in H.
  apply orb_true_iff in H. destruct H as [H|H].
  - apply orb_true_iff in H. destruct H as [H|H];
      apply andb_true_iff in H; destruct H as [H1 H2];
      apply Z.leb_le in H1; apply Z.leb_le in H2; lia.
  - apply Ascii.eqb_eq in H. subst ch. left. reflexivity.
Qed.

Lemma refChar_not : forall ch other,
  refChar ch = true ->
  code other <> 36 -> ~ 48 <= code other <= 57 -> ~ 65 <= code other <= 90 ->
  Ascii.eqb ch other = false.
Proof.
  intros ch other H H1 H2 H3.
  destruct (Ascii.eqb_spec ch other) as [E|E]; [|reflexivity].
  subst other. apply refChar_code in H. lia.
Qed.

Lemma refChar_not_space : forall ch, refChar ch = true -> isSpace ch = false.
Proof.
  intros ch H. apply refChar_code in H. unfold isSpace.
  apply orb_false_iff. split.
  - apply andb_false_iff.
    destruct (Z.leb_spec 9 (code ch)); [right; apply Z.leb_gt; lia | left; reflexivity].
  - apply Z.eqb_neq. lia.
Qed.

Lemma dropWhile_head : forall p ch (s : list ascii),
  p ch = false -> dropWhile p (ch :: s) = ch :: s.
Proof. intros p ch s H. simpl. rewrite H. reflexivity. Qed.

(** [trim] leaves a text alone when its first and last characters are
    not white space. *)
Lemma trim_plain : forall first middle final,
  isSpace first = false -> isSpace final = false ->
  trim (first :: middle ++ [final]) = first :: middle ++ [final].
Proof.
  intros first middle final H1 H2. unfold trim.
  rewrite dropWhile_head by exact H1.
  replace (rev (first :: middle ++ [final])) with (final :: rev (first :: middle)).
  2:{ change (first :: middle ++ [final]) with ((first :: middle) ++ [final]).
      rewrite rev_app_distr. reflexivity. }
  rewrite dropWhile_head by exact H2.
  change (final :: rev (first :: middle)) with (rev [final] ++ rev (first :: middle)).
  rewrite <- rev_app_distr, rev_involutive. reflexivity.
Qed.

Lemma trim_single : forall ch, isSpace ch = false -> trim [ch] = [ch].
Proof. intros ch H. unfold trim. simpl. rewrite H. simpl. rewrite H. reflexivity. Qed.

Lemma trim_no_space : forall s,
  forallb refChar s = true -> trim s = s.
Proof.
  intros s H. destruct s as [|first s]; [reflexivity|].
  simpl in H. apply andb_true_iff in H. destruct H as [Hf Hs].
  destruct s as [|x s'] using rev_ind.
  - apply trim_single. apply refChar_not_space. exact Hf.
  - rewrite forallb_app in Hs. apply andb_true_iff in Hs. destruct Hs as [_ Hx].
    simpl in Hx. rewrite andb_true_r in Hx.
    apply trim_plain; apply refChar_not_space; assumption.
Qed.

Lemma matchSum_needs_paren : forall s,
  forallb refChar s = true -> matchSum s = None.
Proof.
  intros s H.
  destruct s as [|c1 [|c2 [|c3 [|c4 rest]]]]; try reflexivity.
  simpl in H. rewrite !andb_true_iff in H. destruct H as [_ [_ [_ [H4 _]]]].
  assert (E : Ascii.eqb c4 "("%char = false).
  { apply refChar_not; [exact H4| | |]; vm_compute; try discriminate;
      intros [Ha Hb]; try (apply Ha; reflexivity); try (apply Hb; reflexivity). }
  destruct c4 as [[] [] [] [] [] [] [] []]; try reflexivity; discriminate E.
Qed.

End PrintedReferences.

Section PrintedFormulas.
Import Parser.
Local Arguments Z.add _ _ : simpl never.
Local Arguments Z.sub _ _ : simpl never.
Local Arguments Z.mul _ _ : simpl never.
Local Arguments Z.ltb _ _ : simpl never.
Local Arguments Z.leb _ _ : simpl never.

Lemma refChar_forall_not : forall (s : list ascii) other,
  forallb refChar s = true ->
  code other <> 36 -> ~ 48 <= code other <= 57 -> ~ 65 <= code other <= 90 ->
  forallb (fun ch => negb (Ascii.eqb ch other)) s = true.
Proof.
  intros s other H H1 H2 H3. rewrite forallb_forall in *. intros x Hx.
  rewrite (refChar_not x other (H x Hx) H1 H2 H3). reflexivity.
Qed.

Lemma matchSum_printed : forall A B,
  A <> [] -> B <> [] ->
  forallb refChar A = true -> forallb refChar B = true ->
  matchSum ("S"%char :: "U"%char :: "M"%char :: "("%char :: A ++ [":"%char] ++ B ++ [")"%char])
  = Some (A, B).
Proof.
  intros A B HA HB HAc HBc.
  assert (SA : span (fun ch => negb (Ascii.eqb ch ":"%char)) (A ++ [":"%char] ++ B ++ [")"%char])
               = (A, [":"%char] ++ B ++ [")"%char])).
  { apply span_app_stop; [|reflexivity].
    apply refChar_forall_not; [exact HAc| | |]; vm_compute; try discriminate;
      intros [Ha Hb]; try (apply Ha; reflexivity); try (apply Hb; reflexivity). }
  assert (SB : span (fun ch => negb (Ascii.eqb ch ")"%char)) (B ++ [")"%char])
               = (B, [")"%char])).
  { apply span_app_stop; [|reflexivity].
    apply refChar_forall_not; [exact HBc| | |]; vm_compute; try discriminate;
      intros [Ha Hb]; try (apply Ha; reflexivity); try (apply Hb; reflexivity). }
  unfold matchSum.
  cbn [toUpper Ascii.eqb andb].
  change (Ascii.eqb (toUpper "S"%char) "S"%char && Ascii.eqb (toUpper "U"%char) "U"%char
          && Ascii.eqb (toUpper "M"%char) "M"%char)%bool with true.
  cbv iota. rewrite SA.
  destruct A as [|a0 A']; [contradiction|].
  cbn [app]. rewrite SB.
  destruct B as [|b0 B']; [contradiction|]. reflexivity.
Qed.

Lemma last_split : forall (s : list ascii), s <> [] -> exists m final, s = m ++ [final].
Proof.
  intros s H. destruct s as [|x s] using rev_ind; [contradiction|].
  exists s, x. reflexivity.
Qed.

Lemma refChar_last : forall m final,
  forallb refChar (m ++ [final]) = true -> refChar final = true.
Proof.
  intros m final H. rewrite forallb_app in H. apply andb_true_iff in H.
  destruct H as [_ H]. simpl in H. rewrite andb_true_r in H. exact H.
Qed.

(** Reading back the text that [formatFormula] prints, at the cell that
    holds the formula. *)
Lemma parseFormula_formatFormula : forall f pos rowAxis colAxis,
  steady rowAxis -> steady colAxis ->
  (forall a, In a (anchorsOf f) ->
     AxisIndex.posToId rowAxis (r pos) = Some (row (base a))
     /\ AxisIndex.posToId colAxis (c pos) = Some (col (base a))
     /\ anchorToAddress a rowAxis colAxis <> None) ->
  parseFormula (formatFormula f rowAxis colAxis) pos rowAxis colAxis = Some f.
Proof.
  intros f pos rowAxis colAxis Hr Hc Hanch.
  assert (Each : forall a, In a (anchorsOf f) ->
            parseReference (formatAnchor a rowAxis colAxis) pos rowAxis colAxis = Some a
            /\ forallb refChar (formatAnchor a rowAxis colAxis) = true
            /\ formatAnchor a rowAxis colAxis <> []).
  { intros a Ha. destruct (Hanch a Ha) as [H1 [H2 H3]].
    destruct (anchorToAddress a rowAxis colAxis) as [addr|] eqn:E; [|contradiction].
    split; [|apply (formatAnchor_chars a rowAxis colAxis addr Hr Hc E)].
    apply (parseReference_formatAnchor a pos rowAxis colAxis addr); assumption. }
  unfold parseFormula. destruct f as [a|rg].
  - destruct (Each a (or_introl eq_refl)) as [P [Ch Ne]].
    cbn [formatFormula]. rewrite list_ascii_of_string_of_list_ascii.
    destruct (last_split _ Ne) as [m [final Em]].
    assert (Hfin : isSpace final = false).
    { apply refChar_not_space. rewrite Em in Ch. apply (refChar_last m final Ch). }
    rewrite Em. rewrite trim_plain by (try reflexivity; exact Hfin).
    rewrite <- Em. rewrite (trim_no_space _ Ch), (matchSum_needs_paren _ Ch), P.
    reflexivity.
  - destruct (Each (start rg) (or_introl eq_refl)) as [Ps [Chs Nes]].
    destruct (Each (end_ rg) (or_intror (or_introl eq_refl))) as [Pe [Che Nee]].
    cbn [formatFormula]. rewrite list_ascii_of_string_of_list_ascii.
    set (A := formatAnchor (start rg) rowAxis colAxis) in *.
    set (B := formatAnchor (end_ rg) rowAxis colAxis) in *.
    assert (E1 : list_ascii_of_string "=SUM(" ++ A ++ [":"%char] ++ B ++ [")"%char]
                 = "="%char :: ("S"%char :: "U"%char :: "M"%char :: "("%char
                                  :: A ++ [":"%char] ++ B) ++ [")"%char]).
    { cbn [list_ascii_of_string app]. rewrite <- !app_assoc. reflexivity. }
    assert (E2 : ("S"%char :: "U"%char :: "M"%char :: "("%char :: A ++ [":"%char] ++ B)
                   ++ [")"%char]
                 = "S"%char :: ("U"%char :: "M"%char :: "("%char :: A ++ [":"%char] ++ B)
                   ++ [")"%char]) by reflexivity.
    assert (E3 : "S"%char :: ("U"%char :: "M"%char :: "("%char :: A ++ [":"%char] ++ B)
                   ++ [")"%char]
                 = "S"%char :: "U"%char :: "M"%char :: "("%char
                     :: A ++ [":"%char] ++ B ++ [")"%char]).
    { cbn [app]. rewrite <- !app_assoc. reflexivity. }
    rewrite E1. rewrite trim_plain by reflexivity.
    rewrite E2. rewrite trim_plain by reflexivity.
    rewrite E3.
    rewrite (matchSum_printed A B Nes Nee Chs Che).
    rewrite (trim_no_space _ Chs), (trim_no_space _ Che), Ps, Pe.
    destruct rg; reflexivity.
Qed.

End PrintedFormulas.

(* ================================================================== *)
(** * Positions and identifiers of an axis *)
(* ================================================================== *)

Section AxisPositions.
Import AxisIndex.
Local Arguments Z.add _ _ : simpl never.
Local Arguments Z.sub _ _ : simpl never.
Local Arguments Z.opp _ : simpl never.
Local Arguments Z.ltb _ _ : simpl never.
Local Arguments Z.leb _ _ : simpl never.
Local Arguments Z.min _ _ : simpl never.
Local Arguments Z.max _ _ : simpl never.
Local Arguments Z.of_nat _ : simpl never.
Local Arguments Z.to_nat _ : simpl never.

Lemma posToId_segment : forall q l rest p,
  posToId_segs (mkSeg q l :: rest) p =
  if (q <=? p) && (p <? q + Z.of_nat (length l))
  then nth_error l (Z.to_nat (p - q))
  else posToId_segs rest p.
Proof.
  intros q l rest p. simpl. unfold segLen. simpl.
  destruct (q <=? p) eqn:E1; simpl; [|reflexivity].
  destruct (p <=? q + Z.of_nat (length l) - 1) eqn:E2;
    destruct (p <? q + Z.of_nat (length l)) eqn:E3; try reflexivity;
    [apply Z.leb_le in E2; apply Z.ltb_ge in E3; lia
    |apply Z.leb_gt in E2; apply Z.ltb_lt in E3; lia].
Qed.

Lemma posToId_one_segment : forall q l n p,
  posToId (mk [mkSeg q l] n) p =
  if q <=? p then nth_error l (Z.to_nat (p - q)) else None.
Proof.
  intros q l n p. unfold posToId. simpl segments. rewrite posToId_segment.
  destruct (q <=? p) eqn:E1; simpl; [|reflexivity].
  destruct (p <? q + Z.of_nat (length l)) eqn:E2; [reflexivity|].
  apply Z.leb_le in E1. apply Z.ltb_ge in E2.
  symmetry. apply nth_error_None. lia.
Qed.

Lemma maxPos_one_segment : forall q l n,
  maxPos (mk [mkSeg q l] n) = q + Z.of_nat (length l) - 1.
Proof. reflexivity. Qed.

Lemma length_mint : forall from count, length (mint from count) = Z.to_nat count.
Proof. intros. unfold mint. apply length_seq. Qed.

Lemma nth_error_mint : forall from count i,
  nth_error (mint from count) i
  = if (i <? Z.to_nat count)%nat then Some (from + i)%nat else None.
Proof. intros. unfold mint. apply nth_error_seq. Qed.

Lemma create_positions : forall n p,
  posToId (create n) p
  = if (1 <=? p) && (p <=? n) then Some (Z.to_nat (p - 1)) else None.
Proof.
  intros n p. unfold create. rewrite posToId_one_segment, nth_error_mint.
  destruct (1 <=? p) eqn:E1; simpl; [|reflexivity].
  apply Z.leb_le in E1.
  destruct (p <=? n) eqn:E2.
  - apply Z.leb_le in E2.
    replace (Z.to_nat (p - 1) <? Z.to_nat n)%nat with true
      by (symmetry; apply Nat.ltb_lt; lia).
    reflexivity.
  - apply Z.leb_gt in E2.
    replace (Z.to_nat (p - 1) <? Z.to_nat n)%nat with false
      by (symmetry; apply Nat.ltb_ge; lia).
    reflexivity.
Qed.

Lemma insert_inside_segments : forall l n atPos count,
  1 <= atPos <= Z.of_nat (length l) + 1 ->
  insert (mk [mkSeg 1 l] n) atPos count
  = (mk [mkSeg 1 (firstn (Z.to_nat (atPos - 1)) l ++ mint n count
                   ++ skipn (Z.to_nat (atPos - 1)) l)]
        (n + Z.to_nat count),
     mint n count).
Proof.
  intros l n atPos count H. unfold insert. simpl. unfold segLen. simpl.
  replace (1 <=? atPos) with true by (symmetry; apply Z.leb_le; lia).
  replace (atPos <=? 1 + Z.of_nat (length l) - 1 + 1) with true
    by (symmetry; apply Z.leb_le; lia).
  simpl. rewrite splice_insert by lia. reflexivity.
Qed.

Lemma insert_positions : forall ax atPos count p,
  steady ax -> 1 <= atPos <= maxPos ax + 1 -> 0 <= count ->
  posToId (fst (insert ax atPos count)) p
  = if p <? atPos then posToId ax p
    else if p <? atPos + count
         then Some (nextId ax + Z.to_nat (p - atPos))%nat
         else posToId ax (p - count).
Proof.
  intros [segs n] atPos count p [l [Hs _]] Hat Hc. simpl in Hs. subst segs.
  rewrite maxPos_one_segment in Hat.
  rewrite insert_inside_segments by lia. simpl fst. simpl nextId.
  rewrite !posToId_one_segment.
  assert (Lf : length (firstn (Z.to_nat (atPos - 1)) l) = Z.to_nat (atPos - 1))
    by (rewrite length_firstn; lia).
  destruct (p <? atPos) eqn:E1.
  - apply Z.ltb_lt in E1. destruct (1 <=? p) eqn:E0; [|reflexivity].
    apply Z.leb_le in E0.
    rewrite nth_error_app1 by lia. rewrite nth_error_firstn.
    replace (Z.to_nat (p - 1) <? Z.to_nat (atPos - 1))%nat with true
      by (symmetry; apply Nat.ltb_lt; lia).
    reflexivity.
  - apply Z.ltb_ge in E1.
    replace (1 <=? p) with true by (symmetry; apply Z.leb_le; lia).
    rewrite nth_error_app2 by lia. rewrite Lf.
    destruct (p <? atPos + count) eqn:E2.
    + apply Z.ltb_lt in E2.
      rewrite nth_error_app1 by (rewrite length_mint; lia).
      rewrite nth_error_mint.
      replace (Z.to_nat (p - 1) - Z.to_nat (atPos - 1) <? Z.to_nat count)%nat with true
        by (symmetry; apply Nat.ltb_lt; lia).
      f_equal. lia.
    + apply Z.ltb_ge in E2.
      rewrite nth_error_app2 by (rewrite length_mint; lia).
      rewrite length_mint, nth_error_skipn.
      replace (1 <=? p - count) with true by (symmetry; apply Z.leb_le; lia).
      f_equal. lia.
Qed.

Lemma insert_outside_segments : forall l n atPos count,
  atPos < 1 \/ Z.of_nat (length l) + 1 < atPos ->
  insert (mk [mkSeg 1 l] n) atPos count
  = (mk [mkSeg 1 l; mkSeg (1 + Z.of_nat (length l)) (mint n count)]
        (n + Z.to_nat count),
     mint n count).
Proof.
  intros l n atPos count H. unfold insert. simpl. unfold segLen. simpl.
  replace ((1 <=? atPos) && (atPos <=? 1 + Z.of_nat (length l) - 1 + 1)) with false.
  - reflexivity.
  - symmetry. apply andb_false_iff. destruct H as [H|H].
    + left. apply Z.leb_gt. lia.
    + right. apply Z.leb_gt. lia.
Qed.

(** X8 ([AxisIndex.insert], out of range).  On a steady axis, an
    insertion asked for a position below 1 or beyond one past the end
    is not placed there: the new identifiers are appended right after
    the last position, and every old position keeps its identifier. *)
Theorem X8_insert_outside_appends : forall ax atPos count p,
  steady ax -> atPos < 1 \/ maxPos ax + 1 < atPos ->
  posToId (fst (insert ax atPos count)) p
  = if p <=? maxPos ax then posToId ax p
    else nth_error (mint (nextId ax) count) (Z.to_nat (p - maxPos ax - 1)).
Proof.
  intros [segs n] atPos count p [l [Hs _]] Hat. simpl in Hs. subst segs.
  rewrite maxPos_one_segment in *.
  rewrite insert_outside_segments by lia. simpl fst. simpl nextId.
  rewrite posToId_one_segment.
  unfold posToId. simpl segments. rewrite !posToId_segment. simpl posToId_segs.
  destruct (1 <=? p) eqn:E1; simpl.
  - apply Z.leb_le in E1.
    destruct (p <? 1 + Z.of_nat (length l)) eqn:E2.
    + apply Z.ltb_lt in E2.
      replace (p <=? 1 + Z.of_nat (length l) - 1) with true
        by (symmetry; apply Z.leb_le; lia).
      reflexivity.
    + apply Z.ltb_ge in E2.
      replace (p <=? 1 + Z.of_nat (length l) - 1) with false
        by (symmetry; apply Z.leb_gt; lia).
      replace (1 + Z.of_nat (length l) <=? p) with true
        by (symmetry; apply Z.leb_le; lia).
      simpl.
      replace (Z.to_nat (p - (1 + Z.of_nat (length l) - 1) - 1))
        with (Z.to_nat (p - (1 + Z.of_nat (length l)))) by lia.
      destruct (p <? 1 + Z.of_nat (length l) + Z.of_nat (length (mint n count))) eqn:E3;
        [reflexivity|].
      apply Z.ltb_ge in E3. symmetry. apply nth_error_None. lia.
  - apply Z.leb_gt in E1.
    replace (p <=? 1 + Z.of_nat (length l) - 1) with true
      by (symmetry; apply Z.leb_le; lia).
    replace (1 + Z.of_nat (length l) <=? p) with false
      by (symmetry; apply Z.leb_gt; lia).
    reflexivity.
Qed.

Lemma X8_insert_outside_appends_witness :
  posToId (fst (insert (create 3) 10 2)) 4 = Some 3%nat
  /\ posToId (fst (insert (create 3) 10 2)) 10 = None
  /\ posToId (fst (insert (create 3) 0 2)) 5 = Some 4%nat.
Proof.
  assert (H10 : 10 < 1 \/ maxPos (create 3) + 1 < 10) by (right; vm_compute; reflexivity).
  assert (H0 : 0 < 1 \/ maxPos (create 3) + 1 < 0) by (left; lia).
  split; [exact (X8_insert_outside_appends (create 3) 10 2 4 (create_steady 3) H10)|].
  split; [exact (X8_insert_outside_appends (create 3) 10 2 10 (create_steady 3) H10)|].
  exact (X8_insert_outside_appends (create 3) 0 2 5 (create_steady 3) H0).
Defined.

Lemma remove_one_segment : forall l n from to,
  1 <= from <= to ->
  segments (remove (mk [mkSeg 1 l] n) from to)
  = if Z.of_nat (length l) <? from then [mkSeg 1 l]
    else match firstn (Z.to_nat (from - 1)) l
               ++ skipn (Z.to_nat (Z.min to (Z.of_nat (length l)))) l with
         | [] => []
         | ids' => [mkSeg 1 ids']
         end.
Proof.
  intros l n from to H. unfold remove. simpl. unfold segLen, shiftSeg. simpl.
  replace (to <? 1 + 0) with false by (symmetry; apply Z.ltb_ge; lia).
  replace (1 + 0 + Z.of_nat (length l) - 1 <? from) with (Z.of_nat (length l) <? from)
    by (f_equal; lia).
  destruct (Z.of_nat (length l) <? from) eqn:E.
  - reflexivity.
  - apply Z.ltb_ge in E.
    rewrite splice_delete by lia.
    replace (Z.to_nat (Z.max from (1 + 0) - (1 + 0))) with (Z.to_nat (from - 1)) by lia.
    replace (Z.to_nat (Z.max from (1 + 0) - (1 + 0)
                       + (Z.min to (1 + 0 + Z.of_nat (length l) - 1)
                          - Z.max from (1 + 0) + 1)))
      with (Z.to_nat (Z.min to (Z.of_nat (length l)))) by lia.
    destruct (firstn (Z.to_nat (from - 1)) l
              ++ skipn (Z.to_nat (Z.min to (Z.of_nat (length l)))) l); reflexivity.
Qed.

(** X9 ([AxisIndex.remove]).  On a steady axis, removing the positions
    [from .. to] with [1 <= from <= to] keeps the positions before
    [from] and moves the positions after [to] down by the length of the
    range; a range that overhangs the end of the axis removes only the
    positions that exist. *)
Theorem X9_remove_inside_the_axis : forall ax from to p,
  steady ax -> 1 <= from <= to ->
  posToId (remove ax from to) p
  = if p <? from then posToId ax p else posToId ax (p + (to - from + 1)).
Proof.
  intros [segs n] from to p [l [Hs _]] H. simpl in Hs. subst segs.
  change (posToId (remove (mk [mkSeg 1 l] n) from to) p)
    with (posToId_segs (segments (remove (mk [mkSeg 1 l] n) from to)) p).
  rewrite remove_one_segment by lia.
  rewrite !posToId_one_segment.
  destruct (Z.of_nat (length l) <? from) eqn:E.
  - apply Z.ltb_lt in E.
    change (posToId_segs [mkSeg 1 l] p) with (posToId (mk [mkSeg 1 l] n) p).
    rewrite posToId_one_segment.
    destruct (p <? from) eqn:E1; [reflexivity|]. apply Z.ltb_ge in E1.
    replace (1 <=? p) with true by (symmetry; apply Z.leb_le; lia).
    replace (1 <=? p + (to - from + 1)) with true by (symmetry; apply Z.leb_le; lia).
    transitivity (@None AxisId); [|symmetry]; apply nth_error_None; lia.
  - apply Z.ltb_ge in E.
    assert (Lf : length (firstn (Z.to_nat (from - 1)) l) = Z.to_nat (from - 1))
      by (rewrite length_firstn; lia).
    assert (G : posToId_segs
                  match firstn (Z.to_nat (from - 1)) l
                        ++ skipn (Z.to_nat (Z.min to (Z.of_nat (length l)))) l with
                  | [] => []
                  | ids' => [mkSeg 1 ids']
                  end p
                = if 1 <=? p
                  then nth_error (firstn (Z.to_nat (from - 1)) l
                                  ++ skipn (Z.to_nat (Z.min to (Z.of_nat (length l)))) l)
                                 (Z.to_nat (p - 1))
                  else None).
    { destruct (firstn (Z.to_nat (from - 1)) l
                ++ skipn (Z.to_nat (Z.min to (Z.of_nat (length l)))) l) as [|x xs] eqn:Ei.
      - simpl. destruct (1 <=? p); [|reflexivity].
        destruct (Z.to_nat (p - 1)); reflexivity.
      - apply (posToId_one_segment 1 (x :: xs) n p). }
    rewrite G. clear G.
    destruct (p <? from) eqn:E1.
    + apply Z.ltb_lt in E1. destruct (1 <=? p) eqn:E0; [|reflexivity].
      apply Z.leb_le in E0.
      rewrite nth_error_app1 by lia. rewrite nth_error_firstn.
      replace (Z.to_nat (p - 1) <? Z.to_nat (from - 1))%nat with true
        by (symmetry; apply Nat.ltb_lt; lia).
      reflexivity.
    + apply Z.ltb_ge in E1.
      replace (1 <=? p) with true by (symmetry; apply Z.leb_le; lia).
      replace (1 <=? p + (to - from + 1)) with true by (symmetry; apply Z.leb_le; lia).
      rewrite nth_error_app2 by lia. rewrite Lf, nth_error_skipn.
      destruct (Z.le_gt_cases to (Z.of_nat (length l))) as [Hle|Hgt].
      * f_equal. lia.
      * transitivity (@None AxisId); [|symmetry]; apply nth_error_None; lia.
Qed.

Lemma X9_remove_inside_the_axis_witness :
  posToId (remove (create 5) 2 3) 1 = Some 0%nat
  /\ posToId (remove (create 5) 2 3) 2 = Some 3%nat
  /\ posToId (remove (create 5) 4 9) 3 = Some 2%nat
  /\ posToId (remove (create 5) 4 9) 4 = None.
Proof.
  assert (H1 : 1 <= 2 <= 3) by lia.
  assert (H2 : 1 <= 4 <= 9) by lia.
  split; [exact (X9_remove_inside_the_axis (create 5) 2 3 1 (create_steady 5) H1)|].
  split; [exact (X9_remove_inside_the_axis (create 5) 2 3 2 (create_steady 5) H1)|].
  split; [exact (X9_remove_inside_the_axis (create 5) 4 9 3 (create_steady 5) H2)|].
  exact (X9_remove_inside_the_axis (create 5) 4 9 4 (create_steady 5) H2).
Defined.

(** X10 ([AxisIndex.remove], range before the axis).  On a steady axis,
    removing a range that ends before position 1 deletes no identifier
    but still shifts the whole axis down by the length of the range:
    the identifier of position [p + (to - from + 1)] is found at [p]. *)
Theorem X10_remove_before_the_axis_shifts : forall ax from to p,
  steady ax -> to < 1 ->
  posToId (remove ax from to) p = posToId ax (p + (to - from + 1)).
Proof.
  intros [segs n] from to p [l [Hs _]] H. simpl in Hs. subst segs.
  unfold remove. simpl. unfold shiftSeg. simpl.
  replace (to <? 1 + 0) with true by (symmetry; apply Z.ltb_lt; lia).
  rewrite !posToId_one_segment.
  destruct (1 <=? p + (to - from + 1)) eqn:E.
  - apply Z.leb_le in E.
    replace (1 + 0 - (to - from + 1) <=? p) with true by (symmetry; apply Z.leb_le; lia).
    f_equal. lia.
  - apply Z.leb_gt in E.
    replace (1 + 0 - (to - from + 1) <=? p) with false by (symmetry; apply Z.leb_gt; lia).
    reflexivity.
Qed.

Lemma X10_remove_before_the_axis_shifts_witness :
  posToId (remove (create 3) 0 0) 0 = Some 0%nat
  /\ posToId (remove (create 3) 0 0) 3 = None
  /\ totalIds (remove (create 3) 0 0) = 3%nat.
Proof.
  assert (H : 0 < 1) by lia.
  split; [exact (X10_remove_before_the_axis_shifts (create 3) 0 0 0 (create_steady 3) H)|].
  split; [exact (X10_remove_before_the_axis_shifts (create 3) 0 0 3 (create_steady 3) H)|].
  reflexivity.
Defined.

End AxisPositions.

Section AxisIdentifiers.
Import AxisIndex.
Local Arguments Z.add _ _ : simpl never.
Local Arguments Z.sub _ _ : simpl never.
Local Arguments Z.opp _ : simpl never.
Local Arguments Z.ltb _ _ : simpl never.
Local Arguments Z.leb _ _ : simpl never.
Local Arguments Z.min _ _ : simpl never.
Local Arguments Z.max _ _ : simpl never.
Local Arguments Z.of_nat _ : simpl never.
Local Arguments Z.to_nat _ : simpl never.

Lemma idToPos_segs_None_iff : forall segs id,
  idToPos_segs segs id = None <-> ~ In id (flat_map ids segs).
Proof.
  induction segs as [|seg rest IH]; intros id; simpl.
  - tauto.
  - rewrite in_app_iff. destruct (indexOf (ids seg) id) as [i|] eqn:E.
    + split; [discriminate|]. intros H. exfalso. apply H. left.
      apply indexOf_Some_nth in E. apply nth_error_In in E. exact E.
    + apply indexOf_None_iff in E. rewrite IH. tauto.
Qed.

Lemma idToPos_None_iff : forall ax id,
  idToPos ax id = None <-> ~ In id (allIds ax).
Proof. intros ax id. apply idToPos_segs_None_iff. Qed.

Lemma posToId_segs_in : forall segs p id,
  posToId_segs segs p = Some id -> In id (flat_map ids segs).
Proof.
  induction segs as [|seg rest IH]; intros p id H; simpl in *.
  - discriminate.
  - apply in_app_iff.
    destruct ((startPos seg <=? p) && (p <=? startPos seg + segLen seg - 1)).
    + left. apply nth_error_In in H. exact H.
    + right. apply (IH p id H).
Qed.

Lemma posToId_in : forall ax p id, posToId ax p = Some id -> In id (allIds ax).
Proof. intros ax p id. apply posToId_segs_in. Qed.

(** [splice] without deletion puts the new items between two parts of
    the list; without new items it keeps two parts of the list. *)
Lemma splice_parts : forall (l items : list AxisId) o d,
  exists a b, (a <= b)%nat
              /\ JS.splice l o d items = firstn a l ++ items ++ skipn b l
              /\ (d <= 0 -> a = b).
Proof.
  intros l items o d. unfold JS.splice.
  set (len := Z.of_nat (length l)).
  set (s := if o <? 0 then Z.max (len + o) 0 else Z.min o len).
  set (dd := Z.min (Z.max d 0) (len - s)).
  assert (Hs : 0 <= s <= len).
  { unfold s. destruct (o <? 0) eqn:E.
    - apply Z.ltb_lt in E. unfold len. lia.
    - apply Z.ltb_ge in E. unfold len. lia. }
  exists (Z.to_nat s), (Z.to_nat (s + dd)).
  repeat split.
  - unfold dd. lia.
  - intros Hd. unfold dd. lia.
Qed.

Lemma firstn_skipn_perm : forall (l : list AxisId) a b,
  (a <= b)%nat ->
  exists gone, Permutation l ((firstn a l ++ skipn b l) ++ gone).
Proof.
  intros l a b Hab. exists (firstn (b - a) (skipn a l)).
  rewrite <- (firstn_skipn a l) at 1.
  rewrite <- (firstn_skipn (b - a) (skipn a l)) at 1.
  rewrite skipn_skipn. replace (b - a + a)%nat with b by lia.
  rewrite <- app_assoc. apply Permutation_app_head. apply Permutation_app_comm.
Qed.

Lemma flat_map_shift : forall d segs,
  flat_map ids (map (shiftSeg d) segs) = flat_map ids segs.
Proof.
  induction segs as [|seg rest IH]; simpl; [reflexivity|]. rewrite IH. reflexivity.
Qed.

Lemma insert_segs_ids : forall segs atPos count newIds segs',
  insert_segs segs atPos count newIds = Some segs' ->
  Permutation (flat_map ids segs') (newIds ++ flat_map ids segs).
Proof.
  induction segs as [|seg rest IH]; intros atPos count newIds segs' H; simpl in H.
  - discriminate.
  - destruct ((startPos seg <=? atPos) && (atPos <=? startPos seg + segLen seg - 1 + 1)).
    + inversion H; subst segs'; clear H. simpl. rewrite flat_map_shift.
      destruct (splice_parts (ids seg) newIds (atPos - startPos seg) 0)
        as [a [b [Hab [E Hd]]]].
      rewrite E. rewrite <- (Hd (Z.le_refl 0)).
      rewrite <- (firstn_skipn a (ids seg)) at 3.
      rewrite <- !app_assoc.
      apply Permutation_app_swap_app.
    + destruct (insert_segs rest atPos count newIds) as [rest'|] eqn:E; [|discriminate].
      inversion H; subst segs'; clear H. simpl.
      specialize (IH _ _ _ _ E).
      eapply Permutation_trans.
      * apply Permutation_app_head. exact IH.
      * apply Permutation_app_swap_app.
Qed.

Lemma insert_ids : forall ax atPos count,
  Permutation (allIds (fst (insert ax atPos count)))
              (mint (nextId ax) count ++ allIds ax)
  /\ nextId (fst (insert ax atPos count)) = (nextId ax + Z.to_nat count)%nat.
Proof.
  intros ax atPos count. unfold insert, allIds.
  destruct (insert_segs (segments ax) atPos count (mint (nextId ax) count))
    as [segs'|] eqn:E; simpl.
  - split; [|reflexivity]. apply (insert_segs_ids _ _ _ _ _ E).
  - split; [|reflexivity]. rewrite flat_map_app. simpl. rewrite app_nil_r.
    apply Permutation_app_comm.
Qed.

Lemma remove_segs_ids : forall segs sh from to,
  exists gone,
    Permutation (flat_map ids segs) (flat_map ids (remove_segs sh segs from to) ++ gone).
Proof.
  induction segs as [|seg rest IH]; intros sh from to; simpl.
  - exists []. apply Permutation_refl.
  - destruct (to <? startPos seg + sh).
    + destruct (IH sh from to) as [gone Hg]. exists gone. simpl.
      rewrite <- app_assoc. apply Permutation_app_head. exact Hg.
    + destruct (startPos seg + sh + segLen (shiftSeg sh seg) - 1 <? from).
      * destruct (IH sh from to) as [gone Hg]. exists gone. simpl.
        rewrite <- app_assoc. apply Permutation_app_head. exact Hg.
      * destruct (IH (sh - (to - from + 1)) from to) as [gone Hg].
        match goal with
        | |- context [JS.splice (ids seg) ?o ?d []] =>
            destruct (splice_parts (ids seg) [] o d) as [a [b [Hab [E _]]]];
            rewrite E
        end.
        simpl app.
        destruct (firstn_skipn_perm (ids seg) a b Hab) as [gone0 Hg0].
        exists (gone0 ++ gone).
        assert (G : Permutation (ids seg ++ flat_map ids rest)
                      ((firstn a (ids seg) ++ skipn b (ids seg))
                       ++ flat_map ids (remove_segs (sh - (to - from + 1)) rest from to)
                       ++ gone0 ++ gone)).
        { eapply Permutation_trans.
          - apply Permutation_app; [exact Hg0 | exact Hg].
          - rewrite <- !app_assoc. apply Permutation_app_head.
            apply Permutation_app_head. rewrite !app_assoc.
            apply Permutation_app_tail. apply Permutation_app_comm. }
        destruct (firstn a (ids seg) ++ skipn b (ids seg)) as [|x xs] eqn:Ei.
        -- simpl in G. exact G.
        -- simpl flat_map. simpl ids.
           change ((x :: xs ++ flat_map ids
                                 (remove_segs (sh - (to - from + 1)) rest from to))
                   ++ gone0 ++ gone)
             with (((x :: xs) ++ flat_map ids
                                   (remove_segs (sh - (to - from + 1)) rest from to))
                   ++ gone0 ++ gone).
           rewrite <- app_assoc. exact G.
Qed.

Lemma remove_ids : forall ax from to,
  (exists gone, Permutation (allIds ax) (allIds (remove ax from to) ++ gone))
  /\ nextId (remove ax from to) = nextId ax.
Proof.
  intros ax from to. split; [|reflexivity].
  apply (remove_segs_ids (segments ax) 0 from to).
Qed.

Lemma in_mint : forall from count id,
  In id (mint from count) <-> (from <= id < from + Z.to_nat count)%nat.
Proof. intros. unfold mint. apply in_seq. Qed.

(** X11 ([AxisIndex] constructor, [insert], [remove]).  In every state
    of an axis index reached from the constructor, no identifier occurs
    twice in the segments, and every identifier held was issued by the
    counter: it is below [nextId]. *)
Theorem X11_axis_identifiers_are_unique : forall ax,
  axisReachable ax ->
  NoDup (allIds ax) /\ Forall (fun i => (i < nextId ax)%nat) (allIds ax).
Proof.
  induction 1 as [n | ax at_ count H IH | ax from to H IH].
  - unfold create, allIds. simpl. rewrite app_nil_r. split.
    + apply seq_NoDup.
    + apply Forall_forall. intros x Hx. apply in_mint in Hx. lia.
  - destruct IH as [ND Bd]. destruct (insert_ids ax at_ count) as [P En].
    rewrite Forall_forall in Bd. split.
    + apply (Permutation_NoDup (Permutation_sym P)).
      apply NoDup_app; [apply seq_NoDup | exact ND |].
      intros id Hi Hold. apply in_mint in Hi. specialize (Bd id Hold). lia.
    + apply Forall_forall. intros id Hi. rewrite En.
      apply (Permutation_in _ P) in Hi. apply in_app_iff in Hi.
      destruct Hi as [Hi|Hi]; [apply in_mint in Hi; lia | specialize (Bd id Hi); lia].
  - destruct IH as [ND Bd]. destruct (remove_ids ax from to) as [[gone P] En].
    rewrite Forall_forall in Bd. split.
    + apply (NoDup_app_remove_r _ gone). apply (Permutation_NoDup P ND).
    + apply Forall_forall. intros id Hi. rewrite En. apply Bd.
      apply (Permutation_in _ (Permutation_sym P)). apply in_app_iff. left. exact Hi.
Qed.

Lemma X11_axis_identifiers_are_unique_witness :
  allIds Scenario.twoSegmentsRemoved = [0; 2; 3; 4; 5]%nat
  /\ NoDup (allIds Scenario.twoSegmentsRemoved)
  /\ Forall (fun i => (i < nextId Scenario.twoSegmentsRemoved)%nat)
            (allIds Scenario.twoSegmentsRemoved).
Proof.
  split; [reflexivity|].
  apply (X11_axis_identifiers_are_unique Scenario.twoSegmentsRemoved).
  unfold Scenario.twoSegmentsRemoved, Scenario.twoSegments.
  apply reach_remove, reach_insert, reach_create.
Defined.

Lemma retired_stays_out : forall ax ax' id,
  (id < nextId ax)%nat -> ~ In id (allIds ax) -> axisEvolves ax ax' ->
  (nextId ax <= nextId ax')%nat /\ ~ In id (allIds ax').
Proof.
  intros ax ax' id Hlt Hout Hev.
  induction Hev as [| ax' at_ count Hev [IH1 IH2] | ax' from to Hev [IH1 IH2]].
  - split; [lia | exact Hout].
  - destruct (insert_ids ax' at_ count) as [P En]. split; [lia|].
    intros Hi. apply (Permutation_in _ P) in Hi. apply in_app_iff in Hi.
    destruct Hi as [Hi|Hi]; [apply in_mint in Hi; lia | contradiction].
  - destruct (remove_ids ax' from to) as [[gone P] En]. split; [lia|].
    intros Hi. apply IH2.
    apply (Permutation_in _ (Permutation_sym P)). apply in_app_iff. left. exact Hi.
Qed.

End AxisIdentifiers.

(* ================================================================== *)
(** * Edges of the dependency graph *)
(* ================================================================== *)

Section GraphEdges.
Import DepGraph.

Lemma membersAt_set : forall m k s kx,
  membersAt (JS.set keyEqb m k s) kx = if keyEqb kx k then s else membersAt m kx.
Proof.
  intros m k s kx. unfold membersAt. rewrite get_set.
  destruct (keyEqb kx k); reflexivity.
Qed.

Lemma membersAt_mdelete : forall m k kx,
  membersAt (JS.mdelete keyEqb m k) kx = if keyEqb kx k then [] else membersAt m kx.
Proof.
  intros m k kx. unfold membersAt. rewrite get_mdelete.
  destruct (keyEqb kx k); reflexivity.
Qed.

Lemma membersAt_dropFrom_eq : forall m k v kx,
  membersAt (dropFrom m k v) kx
  = if keyEqb kx k then JS.delete keyEqb (membersAt m k) v else membersAt m kx.
Proof.
  intros m k v kx. unfold dropFrom.
  destruct (JS.get keyEqb m k) as [s|] eqn:E.
  - assert (Em : membersAt m k = s) by (unfold membersAt; rewrite E; reflexivity).
    rewrite Em. destruct (JS.delete keyEqb s v) as [|x s'] eqn:Ed.
    + apply membersAt_mdelete.
    + apply membersAt_set.
  - assert (Em : membersAt m k = []) by (unfold membersAt; rewrite E; reflexivity).
    rewrite Em. destruct (keyEqb kx k) eqn:Ek; [|reflexivity].
    apply keyEqb_eq in Ek. subst kx. rewrite Em. reflexivity.
Qed.

Lemma membersAt_addTo_eq : forall m k v kx,
  membersAt (addTo m k v) kx
  = if keyEqb kx k then JS.add keyEqb (membersAt m k) v else membersAt m kx.
Proof.
  intros m k v kx. unfold addTo.
  destruct (JS.get keyEqb m k) as [s|] eqn:E.
  - assert (Em : membersAt m k = s) by (unfold membersAt; rewrite E; reflexivity).
    rewrite Em. apply membersAt_set.
  - assert (Em : membersAt m k = []) by (unfold membersAt; rewrite E; reflexivity).
    rewrite Em. apply membersAt_set.
Qed.

Lemma in_dropFrom : forall m k v kx x,
  In x (membersAt (dropFrom m k v) kx)
  <-> In x (membersAt m kx) /\ ~ (kx = k /\ x = v).
Proof.
  intros m k v kx x. rewrite membersAt_dropFrom_eq.
  destruct (keyEqb kx k) eqn:E.
  - apply keyEqb_eq in E. subst kx. rewrite in_delete. tauto.
  - apply keyEqb_neq in E. tauto.
Qed.

Lemma in_addTo : forall m k v kx x,
  In x (membersAt (addTo m k v) kx)
  <-> In x (membersAt m kx) \/ (kx = k /\ x = v).
Proof.
  intros m k v kx x. rewrite membersAt_addTo_eq.
  destruct (keyEqb kx k) eqn:E.
  - apply keyEqb_eq in E. subst kx. rewrite in_add. tauto.
  - apply keyEqb_neq in E. tauto.
Qed.

Lemma in_dropLoop : forall keys m v kx x,
  In x (membersAt (fold_left (fun acc k => dropFrom acc k v) keys m) kx)
  <-> In x (membersAt m kx) /\ ~ (In kx keys /\ x = v).
Proof.
  induction keys as [|k keys IH]; intros m v kx x; simpl.
  - tauto.
  - rewrite IH, in_dropFrom. split.
    + intros [[H1 H2] H3]. split; [exact H1|]. intros [[E|E] Ex].
      * apply H2. split; [symmetry; exact E | exact Ex].
      * apply H3. split; assumption.
    + intros [H1 H2]. repeat split; try assumption.
      * intros [E Ex]. apply H2. split; [left; symmetry; exact E | exact Ex].
      * intros [E Ex]. apply H2. split; [right; exact E | exact Ex].
Qed.

(** The edges of a graph after [addEdge]. *)
Lemma addEdge_edges : forall g from to a b,
  (In b (membersAt (outgoing (addEdge g from to)) a)
   <-> In b (membersAt (outgoing g) a) \/ (a = addressKey from /\ b = addressKey to))
  /\ (In a (membersAt (incoming (addEdge g from to)) b)
      <-> In a (membersAt (incoming g) b) \/ (a = addressKey from /\ b = addressKey to)).
Proof.
  intros g from to a b. unfold addEdge. simpl. rewrite !in_addTo. tauto.
Qed.

Lemma addEdge_mirrored : forall g from to, mirrored g -> mirrored (addEdge g from to).
Proof.
  intros g from to M a b. destruct (addEdge_edges g from to a b) as [H1 H2].
  rewrite H1, H2, (M a b). tauto.
Qed.

Lemma addLoop_edges : forall froms g to a b,
  (In b (membersAt (outgoing (fold_left (fun g' from => addEdge g' from to) froms g)) a)
   <-> In b (membersAt (outgoing g) a)
       \/ (In a (map addressKey froms) /\ b = addressKey to))
  /\ (In a (membersAt (incoming (fold_left (fun g' from => addEdge g' from to) froms g)) b)
      <-> In a (membersAt (incoming g) b)
          \/ (In a (map addressKey froms) /\ b = addressKey to)).
Proof.
  induction froms as [|f froms IH]; intros g to a b; simpl.
  - tauto.
  - destruct (IH (addEdge g f to) to a b) as [I1 I2].
    destruct (addEdge_edges g f to a b) as [H1 H2].
    rewrite I1, I2, H1, H2. split; split; intros H;
      repeat match goal with
             | H : _ \/ _ |- _ => destruct H
             | H : _ /\ _ |- _ => destruct H
             end; subst; auto.
Qed.

Lemma addLoop_mirrored : forall froms g to,
  mirrored g -> mirrored (fold_left (fun g' from => addEdge g' from to) froms g).
Proof.
  intros froms g to M a b. destruct (addLoop_edges froms g to a b) as [H1 H2].
  rewrite H1, H2, (M a b). tauto.
Qed.

(** The edges of a mirrored graph after [replaceAllInbound]: the edges
    into the node are exactly those from the new producers, every other
    edge is kept. *)
Lemma replaceAllInbound_edges : forall g node newFrom a b,
  mirrored g ->
  (In b (membersAt (outgoing (replaceAllInbound g node newFrom)) a)
   <-> (b <> addressKey node /\ In b (membersAt (outgoing g) a))
       \/ (b = addressKey node /\ In a (map addressKey newFrom)))
  /\ (In a (membersAt (incoming (replaceAllInbound g node newFrom)) b)
      <-> (b <> addressKey node /\ In a (membersAt (incoming g) b))
          \/ (b = addressKey node /\ In a (map addressKey newFrom))).
Proof.
  intros g node newFrom a b M. unfold replaceAllInbound.
  set (ofKey := addressKey node).
  set (out1 := match JS.get keyEqb (incoming g) ofKey with
               | Some oldIncoming =>
                   fold_left (fun out fromKey => dropFrom out fromKey ofKey)
                             oldIncoming (outgoing g)
               | None => outgoing g
               end).
  assert (O1 : In b (membersAt out1 a)
               <-> In b (membersAt (outgoing g) a) /\ b <> ofKey).
  { unfold out1. destruct (JS.get keyEqb (incoming g) ofKey) as [old|] eqn:E.
    - assert (Em : membersAt (incoming g) ofKey = old)
        by (unfold membersAt; rewrite E; reflexivity).
      rewrite in_dropLoop. rewrite <- Em. split.
      + intros [H1 H2]. split; [exact H1|]. intros Eb. apply H2. split; [|exact Eb].
        apply M. subst b. exact H1.
      + intros [H1 H2]. split; [exact H1|]. intros [_ Eb]. contradiction.
    - assert (Em : membersAt (incoming g) ofKey = [])
        by (unfold membersAt; rewrite E; reflexivity).
      split.
      + intros H. split; [exact H|]. intros Eb. subst b.
        apply M in H. rewrite Em in H. contradiction.
      + tauto. }
  assert (I1 : In a (membersAt (JS.set keyEqb (incoming g) ofKey []) b)
               <-> In a (membersAt (incoming g) b) /\ b <> ofKey).
  { rewrite membersAt_set. destruct (keyEqb b ofKey) eqn:E.
    - apply keyEqb_eq in E. simpl. tauto.
    - apply keyEqb_neq in E. tauto. }
  destruct (addLoop_edges newFrom
              (mk out1 (JS.set keyEqb (incoming g) ofKey [])) node a b) as [H1 H2].
  simpl in H1, H2. rewrite H1, H2, O1, I1. fold ofKey. tauto.
Qed.

Lemma replaceAllInbound_mirrored : forall g node newFrom,
  mirrored g -> mirrored (replaceAllInbound g node newFrom).
Proof.
  intros g node newFrom M a b.
  destruct (replaceAllInbound_edges g node newFrom a b M) as [H1 H2].
  rewrite H1, H2, (M a b). tauto.
Qed.

(** The edges of a mirrored graph after [removeAll]: exactly the edges
    that do not touch the node. *)
Lemma removeAll_edges : forall g node a b,
  mirrored g ->
  (In b (membersAt (outgoing (removeAll g node)) a)
   <-> In b (membersAt (outgoing g) a) /\ a <> addressKey node /\ b <> addressKey node)
  /\ (In a (membersAt (incoming (removeAll g node)) b)
      <-> In a (membersAt (incoming g) b) /\ a <> addressKey node /\ b <> addressKey node).
Proof.
  intros g node a b M. unfold removeAll.
  set (ofKey := addressKey node).
  set (g1 := match JS.get keyEqb (outgoing g) ofKey with
             | Some outSet =>
                 mk (JS.mdelete keyEqb (outgoing g) ofKey)
                    (fold_left (fun inc toKey => dropFrom inc toKey ofKey)
                               outSet (incoming g))
             | None => g
             end).
  assert (G1 : forall a b,
            (In b (membersAt (outgoing g1) a)
             <-> In b (membersAt (outgoing g) a) /\ a <> ofKey)
            /\ (In a (membersAt (incoming g1) b)
                <-> In a (membersAt (incoming g) b) /\ a <> ofKey)).
  { intros x y. unfold g1.
    destruct (JS.get keyEqb (outgoing g) ofKey) as [outSet|] eqn:E.
    - assert (Em : membersAt (outgoing g) ofKey = outSet)
        by (unfold membersAt; rewrite E; reflexivity).
      simpl. rewrite membersAt_mdelete, in_dropLoop. rewrite <- Em. split.
      + destruct (keyEqb x ofKey) eqn:Ex.
        * apply keyEqb_eq in Ex. simpl. tauto.
        * apply keyEqb_neq in Ex. tauto.
      + split.
        * intros [H1 H2]. split; [exact H1|]. intros Ex. apply H2.
          split; [|exact Ex]. apply M. subst x. exact H1.
        * intros [H1 H2]. split; [exact H1|]. intros [_ Ex]. contradiction.
    - assert (Em : membersAt (outgoing g) ofKey = [])
        by (unfold membersAt; rewrite E; reflexivity).
      split.
      + split; [|tauto]. intros H. split; [exact H|]. intros Ex. subst x.
        rewrite Em in H. contradiction.
      + split; [|tauto]. intros H. split; [exact H|]. intros Ex. subst x.
        apply M in H. rewrite Em in H. contradiction. }
  assert (M1 : mirrored g1).
  { intros x y. destruct (G1 x y) as [H1 H2]. rewrite H1, H2, (M x y). tauto. }
  clearbody g1.
  assert (G2 : (In b (membersAt
                       (outgoing
                          match JS.get keyEqb (incoming g1) ofKey with
                          | Some inSet =>
                              mk (fold_left (fun out fromKey => dropFrom out fromKey ofKey)
                                            inSet (outgoing g1))
                                 (JS.mdelete keyEqb (incoming g1) ofKey)
                          | None => g1
                          end) a)
                <-> In b (membersAt (outgoing g1) a) /\ b <> ofKey)
               /\ (In a (membersAt
                          (incoming
                             match JS.get keyEqb (incoming g1) ofKey with
                             | Some inSet =>
                                 mk (fold_left (fun out fromKey => dropFrom out fromKey ofKey)
                                               inSet (outgoing g1))
                                    (JS.mdelete keyEqb (incoming g1) ofKey)
                             | None => g1
                             end) b)
                   <-> In a (membersAt (incoming g1) b) /\ b <> ofKey)).
  { destruct (JS.get keyEqb (incoming g1) ofKey) as [inSet|] eqn:E.
    - assert (Em : membersAt (incoming g1) ofKey = inSet)
        by (unfold membersAt; rewrite E; reflexivity).
      simpl. rewrite membersAt_mdelete, in_dropLoop. rewrite <- Em. split.
      + split.
        * intros [H1 H2]. split; [exact H1|]. intros Eb. apply H2.
          split; [|exact Eb]. apply M1. subst b. exact H1.
        * intros [H1 H2]. split; [exact H1|]. intros [_ Eb]. contradiction.
      + destruct (keyEqb b ofKey) eqn:Eb.
        * apply keyEqb_eq in Eb. simpl. tauto.
        * apply keyEqb_neq in Eb. tauto.
    - assert (Em : membersAt (incoming g1) ofKey = [])
        by (unfold membersAt; rewrite E; reflexivity).
      split.
      + split; [|tauto]. intros H. split; [exact H|]. intros Eb. subst b.
        apply M1 in H. rewrite Em in H. contradiction.
      + split; [|tauto]. intros H. split; [exact H|]. intros Eb. subst b.
        rewrite Em in H. contradiction. }
  destruct G2 as [H1 H2]. destruct (G1 a b) as [H3 H4].
  rewrite H1, H2, H3, H4. tauto.
Qed.

Lemma removeAll_mirrored : forall g node, mirrored g -> mirrored (removeAll g node).
Proof.
  intros g node M a b. destruct (removeAll_edges g node a b M) as [H1 H2].
  rewrite H1, H2, (M a b). tauto.
Qed.

Lemma graphReachable_mirrored : forall g, graphReachable g -> mirrored g.
Proof.
  induction 1 as [| g from to H IH | g node newFrom H IH | g node H IH].
  - intros a b. simpl. tauto.
  - apply addEdge_mirrored. exact IH.
  - apply replaceAllInbound_mirrored. exact IH.
  - apply removeAll_mirrored. exact IH.
Qed.

End GraphEdges.

(* ================================================================== *)
(** * Breadth-first searches *)
(* ================================================================== *)

Section GraphSearch.
Import DepGraph.

Lemma reaches_trans : forall out a b c,
  reaches out a b -> reaches out b c -> reaches out a c.
Proof.
  intros out a b c Hab Hbc. induction Hbc as [|b m c Hbm IH Hmc].
  - exact Hab.
  - apply (reaches_step out a m c (IH Hab) Hmc).
Qed.

Lemma reaches_edge : forall out a b, In b (membersAt out a) -> reaches out a b.
Proof.
  intros out a b H. apply (reaches_step out a a b (reaches_here out a) H).
Qed.

Lemma key_in_or_not : forall (k : Key) (l : list Key), In k l \/ ~ In k l.
Proof.
  intros k l. destruct (JS.has keyEqb l k) eqn:E.
  - left. apply has_In. exact E.
  - right. apply has_false_notin. exact E.
Qed.

(** The next queue of a breadth-first step: the rest of the queue, then
    the neighbours not yet reached. *)
Lemma next_queue : forall out key q (seen : list Key) x,
  In x match JS.get keyEqb out key with
       | Some dependents =>
           q ++ filter (fun dep => negb (JS.has keyEqb seen dep)) dependents
       | None => q
       end
  <-> In x q \/ (In x (membersAt out key) /\ ~ In x seen).
Proof.
  intros out key q seen x. unfold membersAt.
  destruct (JS.get keyEqb out key) as [ds|].
  - rewrite in_app_iff, filter_In, negb_true_iff, has_false_notin. tauto.
  - simpl. tauto.
Qed.

(** Nodes reached from a settled node are settled or reached from the
    queue, when every edge out of a settled node ends settled or
    queued. *)
Lemma settled_reach : forall out (queue seen : list Key),
  (forall a b, In a seen -> In b (membersAt out a) -> In b seen \/ In b queue) ->
  forall a k, In a seen -> reaches out a k ->
              In k seen \/ exists q, In q queue /\ reaches out q k.
Proof.
  intros out queue seen Hcl a k Ha Hr.
  induction Hr as [|a m k Ham IH Hmk].
  - left. exact Ha.
  - destruct (IH Ha) as [Hm|[q [Hq Hqm]]].
    + destruct (Hcl m k Hm Hmk) as [Hk|Hk].
      * left. exact Hk.
      * right. exists k. split; [exact Hk | apply reaches_here].
    + right. exists q. split; [exact Hq|].
      apply (reaches_step out q m k Hqm Hmk).
Qed.

Lemma affectedLoop_inv : forall fuel out queue affected res,
  affectedLoop fuel out queue affected = Some res ->
  NoDup affected ->
  (forall a b, In a affected -> In b (membersAt out a) -> In b affected \/ In b queue) ->
  NoDup res
  /\ (forall k, In k affected \/ In k queue -> In k res)
  /\ (forall a b, In a res -> In b (membersAt out a) -> In b res)
  /\ (forall k, In k res ->
                In k affected \/ exists q, In q queue /\ reaches out q k).
Proof.
  induction fuel as [|f IH]; intros out queue affected res H ND Hcl; simpl in H.
  - discriminate.
  - destruct queue as [|key q].
    + inversion H; subst res; clear H. repeat split.
      * exact ND.
      * intros k [Hk|[]]. exact Hk.
      * intros a b Ha Hb. destruct (Hcl a b Ha Hb) as [Hk|[]]. exact Hk.
      * intros k Hk. left. exact Hk.
    + destruct (JS.has keyEqb affected key) eqn:Eh.
      * apply has_In in Eh.
        destruct (IH out q affected res H ND) as [R1 [R2 [R3 R4]]].
        { intros a b Ha Hb. destruct (Hcl a b Ha Hb) as [Hk|[Hk|Hk]].
          - left. exact Hk.
          - left. subst b. exact Eh.
          - right. exact Hk. }
        repeat split.
        -- exact R1.
        -- intros k [Hk|[Hk|Hk]]; apply R2; [left; exact Hk | left; subst k; exact Eh
                                            | right; exact Hk].
        -- exact R3.
        -- intros k Hk. destruct (R4 k Hk) as [Ha|[q0 [Hq0 Hr]]].
           ++ left. exact Ha.
           ++ right. exists q0. split; [right; exact Hq0 | exact Hr].
      * apply has_false_notin in Eh.
        destruct (IH out _ (affected ++ [key]) res H) as [R1 [R2 [R3 R4]]].
        { apply NoDup_app; [exact ND | constructor; [intros [] | constructor] |].
          intros a Ha [Hk|[]]. subst a. contradiction. }
        { intros a b Ha Hb. rewrite next_queue.
          destruct (key_in_or_not b (affected ++ [key])) as [Hin|Hout].
          - left. exact Hin.
          - right. apply in_app_iff in Ha. destruct Ha as [Ha|[Ha|[]]].
            + destruct (Hcl a b Ha Hb) as [Hk|[Hk|Hk]].
              * exfalso. apply Hout. apply in_app_iff. left. exact Hk.
              * exfalso. apply Hout. apply in_app_iff. right. left. exact Hk.
              * left. exact Hk.
            + subst a. right. split; assumption. }
        repeat split.
        -- exact R1.
        -- intros k [Hk|[Hk|Hk]]; apply R2.
           ++ left. apply in_app_iff. left. exact Hk.
           ++ left. apply in_app_iff. right. left. exact Hk.
           ++ right. apply next_queue. left. exact Hk.
        -- exact R3.
        -- intros k Hk. destruct (R4 k Hk) as [Ha|[q0 [Hq0 Hr]]].
           ++ apply in_app_iff in Ha. destruct Ha as [Ha|[Ha|[]]].
              ** left. exact Ha.
              ** right. exists key. split; [left; reflexivity|]. subst k. apply reaches_here.
           ++ right. apply next_queue in Hq0. destruct Hq0 as [Hq0|[Hq0 _]].
              ** exists q0. split; [right; exact Hq0 | exact Hr].
              ** exists key. split; [left; reflexivity|].
                 apply (reaches_trans out key q0 k (reaches_edge out key q0 Hq0) Hr).
Qed.

Lemma affectedFrom_reaches : forall g changed,
  NoDup (affectedFrom g changed)
  /\ forall k, In k (affectedFrom g changed)
               <-> exists c, In c changed /\ reaches (outgoing g) c k.
Proof.
  intros g changed.
  destruct (affectedFrom_total g changed) as [res [E [Er _]]].
  rewrite Er.
  destruct (affectedLoop_inv _ _ _ _ _ E (NoDup_nil _)) as [R1 [R2 [R3 R4]]].
  { intros a b []. }
  split; [exact R1|]. intros k. split.
  - intros Hk. destruct (R4 k Hk) as [[]|H]. exact H.
  - intros [c0 [Hc Hr]]. induction Hr as [|a m k Ham IH Hmk].
    + apply R2. right. exact Hc.
    + apply (R3 m k (IH Hc) Hmk).
Qed.

Lemma cycleLoop_inv : forall fuel out fromKey queue visited b,
  cycleLoop fuel out fromKey queue visited = Some b ->
  ~ In fromKey visited ->
  (forall x y, In x visited -> In y (membersAt out x) -> In y visited \/ In y queue) ->
  (b = true -> exists q, In q queue /\ reaches out q fromKey)
  /\ (b = false -> forall q, In q queue -> ~ reaches out q fromKey).
Proof.
  induction fuel as [|f IH]; intros out fromKey queue visited b H Hnot Hcl; simpl in H.
  - discriminate.
  - destruct queue as [|current q].
    + inversion H; subst b; clear H. split; [discriminate|]. intros _ q0 [].
    + destruct (keyEqb current fromKey) eqn:Ec.
      * apply keyEqb_eq in Ec. inversion H; subst b; clear H. split; [|discriminate].
        intros _. exists current. split; [left; reflexivity|]. subst current.
        apply reaches_here.
      * apply keyEqb_neq in Ec.
        destruct (JS.has keyEqb visited current) eqn:Eh.
        -- apply has_In in Eh.
           assert (Hcl' : forall x y, In x visited -> In y (membersAt out x) ->
                                      In y visited \/ In y q).
           { intros x y Hx Hy. destruct (Hcl x y Hx Hy) as [Hk|[Hk|Hk]].
             - left. exact Hk.
             - left. subst y. exact Eh.
             - right. exact Hk. }
           destruct (IH out fromKey q visited b H Hnot Hcl') as [T F].
           split.
           ++ intros Eb. destruct (T Eb) as [q0 [Hq0 Hr]].
              exists q0. split; [right; exact Hq0 | exact Hr].
           ++ intros Eb q0 [Hq0|Hq0] Hr.
              ** subst q0.
                 destruct (settled_reach out q visited Hcl' current fromKey Eh Hr)
                   as [Hv|[q1 [Hq1 Hr1]]].
                 --- contradiction.
                 --- apply (F Eb q1 Hq1 Hr1).
              ** apply (F Eb q0 Hq0 Hr).
        -- apply has_false_notin in Eh.
           assert (Hnot' : ~ In fromKey (visited ++ [current])).
           { intros Hi. apply in_app_iff in Hi. destruct Hi as [Hi|[Hi|[]]].
             - contradiction.
             - apply Ec. exact Hi. }
           assert (Hcl' : forall x y, In x (visited ++ [current]) ->
                            In y (membersAt out x) ->
                            In y (visited ++ [current])
                            \/ In y match JS.get keyEqb out current with
                                    | Some deps =>
                                        q ++ filter (fun dep =>
                                                       negb (JS.has keyEqb (visited ++ [current]) dep))
                                                    deps
                                    | None => q
                                    end).
           { intros x y Hx Hy. rewrite next_queue.
             destruct (key_in_or_not y (visited ++ [current])) as [Hin|Hout].
             - left. exact Hin.
             - right. apply in_app_iff in Hx. destruct Hx as [Hx|[Hx|[]]].
               + destruct (Hcl x y Hx Hy) as [Hk|[Hk|Hk]].
                 * exfalso. apply Hout. apply in_app_iff. left. exact Hk.
                 * exfalso. apply Hout. apply in_app_iff. right. left. exact Hk.
                 * left. exact Hk.
               + subst x. right. split; assumption. }
           destruct (IH out fromKey _ (visited ++ [current]) b H Hnot' Hcl') as [T F].
           split.
           ++ intros Eb. destruct (T Eb) as [q0 [Hq0 Hr]].
              apply next_queue in Hq0. destruct Hq0 as [Hq0|[Hq0 _]].
              ** exists q0. split; [right; exact Hq0 | exact Hr].
              ** exists current. split; [left; reflexivity|].
                 apply (reaches_trans out current q0 fromKey
                          (reaches_edge out current q0 Hq0) Hr).
           ++ intros Eb q0 [Hq0|Hq0] Hr.
              ** subst q0.
                 assert (Hcur : In current (visited ++ [current]))
                   by (apply in_app_iff; right; left; reflexivity).
                 destruct (settled_reach out _ (visited ++ [current]) Hcl'
                             current fromKey Hcur Hr) as [Hv|[q1 [Hq1 Hr1]]].
                 --- contradiction.
                 --- apply (F Eb q1 Hq1 Hr1).
              ** apply (F Eb q0); [|exact Hr]. apply next_queue. left. exact Hq0.
Qed.

(** X18 ([DepGraph.wouldCreateCycle]).  [wouldCreateCycle from to]
    answers true exactly when [from] is reached from [to] along
    dependent edges, [from = to] included. *)
Theorem X18_wouldCreateCycle_is_reachability : forall g from to,
  wouldCreateCycle g from to = true
  <-> reaches (outgoing g) (addressKey to) (addressKey from).
Proof.
  intros g from to.
  destruct (wouldCreateCycle_total g from to) as [b [E Eb]]. rewrite Eb.
  destruct (cycleLoop_inv _ _ _ _ _ _ E) as [T F].
  - intros [].
  - intros x y [].
  - split.
    + intros Hb. destruct (T Hb) as [q [[Hq|[]] Hr]]. subst q. exact Hr.
    + intros Hr. destruct b; [reflexivity|]. exfalso.
      apply (F eq_refl (addressKey to)); [left; reflexivity | exact Hr].
Qed.

End GraphSearch.

(* ================================================================== *)
(** * Order of recalculation *)
(* ================================================================== *)

Section SortOrder.
Import Table.

Lemma readsChain_snoc : forall g a b c,
  readsChain g a b -> In c (DepGraph.getDependencies g (parseAddressKey b)) ->
  readsChain g a c.
Proof.
  intros g a b c H Hc. induction H as [a b Hab | a m b Ham Hmb IH].
  - apply (chain_more g a b c Hab). apply chain_one. exact Hc.
  - apply (chain_more g a m c Ham). apply IH. exact Hc.
Qed.

Lemma before_app : forall l ext d k, before l d k -> before (l ++ ext) d k.
Proof.
  intros l ext d k [l1 [l2 [l3 E]]]. exists l1, l2, (l3 ++ ext). subst l.
  rewrite <- !app_assoc. simpl. rewrite <- !app_assoc. reflexivity.
Qed.

Lemma before_last : forall l d k, In d l -> before (l ++ [k]) d k.
Proof.
  intros l d k H. apply in_split in H. destruct H as [l1 [l2 E]].
  exists l1, l2, []. subst l. rewrite <- app_assoc. reflexivity.
Qed.

Lemma visitKeeps_refl : forall g nodes st, visitKeeps g nodes st st.
Proof.
  intros g nodes st. unfold visitKeeps.
  split; [reflexivity|].
  split; [exists []; rewrite app_nil_r; reflexivity|].
  split; [tauto|]. split; [tauto|tauto].
Qed.

Lemma visitKeeps_trans : forall g nodes s1 s2 s3,
  visitKeeps g nodes s1 s2 -> visitKeeps g nodes s2 s3 -> visitKeeps g nodes s1 s3.
Proof.
  intros g nodes s1 s2 s3 [A1 [[e1 A2] [A3 [A4 A5]]]] [B1 [[e2 B2] [B3 [B4 B5]]]].
  unfold visitKeeps.
  split; [congruence|].
  split; [exists (e1 ++ e2); rewrite B2, A2, app_assoc; reflexivity|].
  split; [auto|].
  split; [|tauto].
  intros x Hx. destruct (B4 x Hx) as [H|H].
  - apply (A4 x H).
  - right. rewrite <- A1. exact H.
Qed.

Lemma fold_visit_none : forall (step : TopoState -> Key -> option TopoState) keys,
  fold_left (fun acc key => match acc with
                            | None => None
                            | Some s => step s key
                            end) keys None = None.
Proof. intros step keys. induction keys as [|k keys IH]; simpl; auto. Qed.

(** The visits of the dependencies of one node, given that a visit with
    the remaining fuel behaves. *)
Lemma visit_deps_order : forall f g nodes,
  (forall key st st',
     visit f g nodes key st = Some st' -> In key nodes ->
     (forall t, In t (temp st) -> readsChain g t key) ->
     visitKeeps g nodes st st' /\ (In key (visited st') \/ In key (temp st))) ->
  forall ds s s2,
    fold_left (fun acc depKey =>
                 match acc with
                 | None => None
                 | Some s =>
                     if JS.has keyEqb nodes depKey
                     then visit f g nodes depKey s
                     else Some s
                 end) ds (Some s) = Some s2 ->
    (forall d t, In d ds -> In t (temp s) -> readsChain g t d) ->
    visitKeeps g nodes s s2
    /\ (forall d, In d ds -> In d nodes -> In d (visited s2) \/ In d (temp s)).
Proof.
  intros f g nodes IHv. induction ds as [|d ds IH]; intros s s2 H SP.
  - simpl in H. inversion H; subst s2. split; [apply visitKeeps_refl|]. intros d [].
  - cbn [fold_left] in H.
    destruct (JS.has keyEqb nodes d) eqn:En.
    + destruct (visit f g nodes d s) as [s1|] eqn:Ev.
      * apply has_In in En.
        destruct (IHv d s s1 Ev En) as [K1 V1].
        { intros t Ht. apply (SP d t (or_introl eq_refl) Ht). }
        assert (Et : temp s1 = temp s) by (destruct K1 as [E _]; exact E).
        destruct (IH s1 s2 H) as [K2 V2].
        { intros d' t Hd Ht. rewrite Et in Ht. apply (SP d' t (or_intror Hd) Ht). }
        split; [apply (visitKeeps_trans g nodes s s1 s2 K1 K2)|].
        intros d' [Hd|Hd] Hn.
        -- subst d'. destruct V1 as [V1|V1]; [|right; exact V1].
           left. destruct K2 as [_ [_ [M _]]]. apply (M d V1).
        -- rewrite <- Et. apply (V2 d' Hd Hn).
      * rewrite fold_visit_none in H. discriminate.
    + apply has_false_notin in En.
      destruct (IH s s2 H) as [K2 V2].
      { intros d' t Hd Ht. apply (SP d' t (or_intror Hd) Ht). }
      split; [exact K2|].
      intros d' [Hd|Hd] Hn.
      * subst d'. contradiction.
      * apply (V2 d' Hd Hn).
Qed.

Lemma visit_order : forall fuel g nodes key st st',
  visit fuel g nodes key st = Some st' -> In key nodes ->
  (forall t, In t (temp st) -> readsChain g t key) ->
  visitKeeps g nodes st st' /\ (In key (visited st') \/ In key (temp st)).
Proof.
  induction fuel as [|f IHf]; intros g nodes key st st' H Hn SP; [discriminate|].
  cbn [visit] in H.
  destruct (JS.has keyEqb (visited st) key) eqn:Ev.
  { inversion H; subst st'. split; [apply visitKeeps_refl|].
    left. apply has_In. exact Ev. }
  destruct (JS.has keyEqb (temp st) key) eqn:Et.
  { inversion H; subst st'. split; [apply visitKeeps_refl|].
    right. apply has_In. exact Et. }
  apply has_false_notin in Ev.
  assert (Et' := Et). apply has_false_notin in Et'.
  set (st1 := mkTopo (sorted st) (visited st) (JS.add keyEqb (temp st) key)) in *.
  set (ds := DepGraph.getDependencies g (parseAddressKey key)) in *.
  destruct (fold_left
              (fun acc depKey =>
                 match acc with
                 | None => None
                 | Some s =>
                     if JS.has keyEqb nodes depKey
                     then visit f g nodes depKey s
                     else Some s
                 end) ds (Some st1)) as [st2|] eqn:Ef; [|discriminate].
  inversion H; subst st'; clear H.
  destruct (visit_deps_order f g nodes (fun k s s' => IHf g nodes k s s') ds st1 st2 Ef)
    as [[K1 [[ext K2] [K3 [K4 K5]]]] V].
  { intros d t Hd Ht. simpl in Ht. apply in_add in Ht. destruct Ht as [Ht|Ht].
    - apply (readsChain_snoc g t key d (SP t Ht) Hd).
    - subst t. apply chain_one. exact Hd. }
  simpl in K1, K2, K3, K4.
  assert (Hkey : ~ In key (visited st2)).
  { intros Hi. destruct (K4 key Hi) as [Hk|Hk]; [contradiction|].
    apply Hk. apply in_add. right. reflexivity. }
  split.
  - repeat split; simpl.
    + rewrite K1. apply delete_add_fresh. exact Et.
    + exists (ext ++ [key]). rewrite K2, app_assoc. reflexivity.
    + intros x Hx. apply in_add. left. apply (K3 x Hx).
    + intros x Hx. apply in_add in Hx. destruct Hx as [Hx|Hx].
      * destruct (K4 x Hx) as [Hk|Hk]; [left; exact Hk|].
        right. intros Hi. apply Hk. apply in_add. left. exact Hi.
      * subst x. right. exact Et'.
    + destruct (K5 H) as [I1 [I2 [I3 I4]]].
      apply NoDup_app; [exact I1 | constructor; [intros [] | constructor] |].
      intros x Hx [Ex|[]]. subst x. apply Hkey. apply I2. exact Hx.
    + destruct (K5 H) as [I1 [I2 [I3 I4]]].
      intros Hk. apply in_add. apply in_app_iff in Hk. destruct Hk as [Hk|[Hk|[]]].
      * left. apply I2. exact Hk.
      * right. symmetry. exact Hk.
    + destruct (K5 H) as [I1 [I2 [I3 I4]]].
      intros Hk. apply in_add in Hk. apply in_app_iff. destruct Hk as [Hk|Hk].
      * left. apply I2. exact Hk.
      * right. left. symmetry. exact Hk.
    + destruct (K5 H) as [I1 [I2 [I3 I4]]].
      intros k Hk. apply in_app_iff in Hk. destruct Hk as [Hk|[Hk|[]]].
      * apply (I3 k Hk).
      * subst k. exact Hn.
    + destruct (K5 H) as [I1 [I2 [I3 I4]]].
      intros k d Hk Hd Hdn. apply in_app_iff in Hk. destruct Hk as [Hk|[Hk|[]]].
      * destruct (I4 k d Hk Hd Hdn) as [B|C]; [|right; exact C].
        left. apply before_app. exact B.
      * subst k. destruct (V d Hd Hdn) as [Hv|Ht].
        -- left. apply before_last. apply I2. exact Hv.
        -- right. simpl in Ht. apply in_add in Ht. destruct Ht as [Ht|Ht].
           ++ apply (SP d Ht).
           ++ subst d. apply chain_one. exact Hd.
  - left. simpl. apply in_add. right. reflexivity.
Qed.

Lemma topoLoop_order : forall fuel g nodes keys st st',
  topoLoop fuel g nodes keys st = Some st' ->
  incl keys nodes -> temp st = [] ->
  visitKeeps g nodes st st'.
Proof.
  intros fuel g nodes. unfold topoLoop.
  induction keys as [|k keys IH]; intros st st' H Hin Ht.
  - simpl in H. inversion H; subst st'. apply visitKeeps_refl.
  - cbn [fold_left] in H.
    destruct (visit fuel g nodes k st) as [s1|] eqn:Ev.
    + destruct (visit_order fuel g nodes k st s1 Ev) as [K1 _].
      { apply Hin. left. reflexivity. }
      { rewrite Ht. intros t []. }
      apply (visitKeeps_trans g nodes st s1 st' K1).
      apply (IH s1 st' H).
      * intros x Hx. apply Hin. right. exact Hx.
      * destruct K1 as [E _]. rewrite E. exact Ht.
    + rewrite fold_visit_none in H. discriminate.
Qed.

Lemma topologicalSort_inv : forall g nodes,
  topoInv g nodes (mkTopo (topologicalSort g nodes)
                          (topologicalSort g nodes) []).
Proof.
  intros g nodes. unfold topologicalSort.
  destruct (topoLoop_total g nodes nodes (mkTopo [] [] [])) as [st' [E _]].
  - apply incl_refl.
  - reflexivity.
  - intros k [].
  - rewrite E.
    destruct (topoLoop_order _ _ _ _ _ _ E (incl_refl _) eq_refl)
      as [_ [_ [_ [_ K]]]].
    destruct K as [I1 [I2 [I3 I4]]].
    { repeat split; simpl; try tauto. constructor. }
    repeat split; simpl; try tauto.
Qed.

End SortOrder.

(* ================================================================== *)
(** * Cell store and range watchers *)
(* ================================================================== *)

Section StoreLaws.

Lemma addressEquals_keyEqb : forall a b,
  addressEquals a b = keyEqb (addressKey a) (addressKey b).
Proof. reflexivity. Qed.

Lemma length_set : forall (V : Type) (m : list (Key * V)) k v,
  length (JS.set keyEqb m k v)
  = match JS.get keyEqb m k with Some _ => length m | None => S (length m) end.
Proof.
  induction m as [|[k' v'] m IH]; intros k v; simpl.
  - reflexivity.
  - destruct (keyEqb k k'); simpl; [reflexivity|].
    rewrite IH. destruct (JS.get keyEqb m k); reflexivity.
Qed.

Lemma length_mdelete : forall (V : Type) (m : list (Key * V)) k,
  (length (JS.mdelete keyEqb m k) <= length m)%nat.
Proof. intros. unfold JS.mdelete. apply filter_length_le. Qed.

(** X13 ([CellStore.get], [set], [del], [has], [size]).  A cell written
    at an address is read back there and nowhere else; a deleted
    address reads as absent and the others are unchanged; writing to an
    address already present does not change the size, writing to a new
    one adds one. *)
Theorem X13_cell_store_laws : forall (s : CellStore.t) (a b : Address) (cell : Cell),
  CellStore.get (CellStore.set s a cell) b
    = (if addressEquals b a then Some cell else CellStore.get s b)
  /\ CellStore.get (CellStore.del s a) b
     = (if addressEquals b a then None else CellStore.get s b)
  /\ CellStore.has (CellStore.set s a cell) a = true
  /\ CellStore.has (CellStore.del s a) a = false
  /\ CellStore.size (CellStore.set s a cell)
     = (if CellStore.has s a then CellStore.size s else S (CellStore.size s))
  /\ (CellStore.size (CellStore.del s a) <= CellStore.size s)%nat.
Proof.
  intros s a b cell. unfold CellStore.has, CellStore.size.
  unfold CellStore.get, CellStore.set, CellStore.del.
  rewrite addressEquals_keyEqb.
  split; [apply get_set|].
  split; [apply get_mdelete|].
  split; [rewrite get_set, keyEqb_refl; reflexivity|].
  split; [rewrite get_mdelete, keyEqb_refl; reflexivity|].
  split; [|apply length_mdelete].
  rewrite length_set. destruct (JS.get keyEqb s (addressKey a)); reflexivity.
Qed.

End StoreLaws.

Section WatcherLaws.
Import RangeWatchers.

Lemma addTo_keys_NoDup : forall m k v,
  NoDup (map fst m) -> NoDup (map fst (DepGraph.addTo m k v)).
Proof.
  intros m k v H. unfold DepGraph.addTo.
  destruct (JS.get keyEqb m k); apply set_keeps_NoDup; exact H.
Qed.

(** Dropping one member from every set of the table and deleting the
    sets left empty, as the loop of [removeWatches] does. *)
Lemma get_pruned : forall (m : list (Key * list Key)) fk a,
  NoDup (map fst m) ->
  JS.get keyEqb
    (filter (fun e => match snd e with [] => false | _ => true end)
       (map (fun e => (fst e, JS.delete keyEqb (snd e) fk)) m)) a
  = match JS.get keyEqb m a with
    | Some s => match JS.delete keyEqb s fk with
                | [] => None
                | s' => Some s'
                end
    | None => None
    end.
Proof.
  induction m as [|[k s] m IH]; intros fk a ND; simpl.
  - reflexivity.
  - inversion ND as [|x xs Hk ND']; subst.
    destruct (keyEqb a k) eqn:E.
    + apply keyEqb_eq in E. subst a.
      destruct (JS.delete keyEqb s fk) as [|y ys] eqn:Ed; simpl.
      * rewrite (IH fk k ND').
        rewrite (get_None_notin _ m k Hk). reflexivity.
      * rewrite keyEqb_refl. reflexivity.
    + destruct (JS.delete keyEqb s fk) as [|y ys] eqn:Ed; simpl.
      * apply (IH fk a ND').
      * rewrite E. apply (IH fk a ND').
Qed.

Lemma pruned_keys_NoDup : forall (m : list (Key * list Key)) fk,
  NoDup (map fst m) ->
  NoDup (map fst
           (filter (fun e => match snd e with [] => false | _ => true end)
              (map (fun e => (fst e, JS.delete keyEqb (snd e) fk)) m))).
Proof.
  induction m as [|[k s] m IH]; intros fk ND; simpl.
  - constructor.
  - inversion ND as [|x xs Hk ND']; subst.
    destruct (JS.delete keyEqb s fk) as [|y ys]; simpl.
    + apply (IH fk ND').
    + constructor; [|apply (IH fk ND')].
      intros Hi. apply Hk. apply in_map_iff in Hi.
      destruct Hi as [[k' s'] [Ek Hi]]. simpl in Ek. subst k'.
      apply filter_In in Hi. destruct Hi as [Hi _].
      apply in_map_iff in Hi. destruct Hi as [[k0 s0] [E0 Hi]].
      inversion E0; subst. apply in_map_iff. exists (k, s0). split; [reflexivity|exact Hi].
Qed.

Lemma watchReachable_keys : forall w,
  watchReachable w -> NoDup (map fst (watchers w)).
Proof.
  induction 1 as [| w rg f H IH | w f H IH | w ca f H IH]; simpl.
  - constructor.
  - exact IH.
  - apply pruned_keys_NoDup. exact IH.
  - apply addTo_keys_NoDup. exact IH.
Qed.

(** X19 ([RangeWatchers.addWatch], [removeWatches], [registerCell],
    [watchersOf], [getRanges]).  In every watcher table reached from the
    empty one: [addWatch] appends the range to the ranges of its
    formula and changes nothing else; [registerCell] adds the formula
    to the watchers of the cell; [removeWatches] drops the ranges of the
    formula and removes it from the watchers of every cell, leaving the
    other formulas in place. *)
Theorem X19_range_watcher_laws : forall (w : t) (rg : RangeRef) (f f' a cellAddr : Address) (k : Key),
  watchReachable w ->
  getRanges (addWatch w rg f) f'
    = (if addressEquals f' f then getRanges w f ++ [rg] else getRanges w f')
  /\ watchersOf (addWatch w rg f) a = watchersOf w a
  /\ (In k (watchersOf (registerCell w cellAddr f) a)
      <-> In k (watchersOf w a)
          \/ (addressKey a = addressKey cellAddr /\ k = addressKey f))
  /\ getRanges (registerCell w cellAddr f) f' = getRanges w f'
  /\ getRanges (removeWatches w f) f'
     = (if addressEquals f' f then [] else getRanges w f')
  /\ (In k (watchersOf (removeWatches w f) a)
      <-> In k (watchersOf w a) /\ k <> addressKey f).
Proof.
  intros w rg f f' a cellAddr k Hw.
  pose proof (watchReachable_keys w Hw) as ND.
  unfold getRanges, watchersOf, addWatch, registerCell, removeWatches.
  cbn [watchers formulaRanges].
  rewrite addressEquals_keyEqb.
  split.
  { rewrite get_set.
    destruct (keyEqb (addressKey f') (addressKey f)); reflexivity. }
  split; [reflexivity|].
  split; [apply (in_addTo (watchers w))|].
  split; [reflexivity|].
  split.
  { rewrite get_mdelete.
    destruct (keyEqb (addressKey f') (addressKey f)); reflexivity. }
  rewrite (get_pruned _ _ _ ND).
  destruct (JS.get keyEqb (watchers w) (addressKey a)) as [s|]; [|simpl; tauto].
  destruct (JS.delete keyEqb s (addressKey f)) as [|y ys] eqn:Ed.
  - split; [intros []|]. intros [H1 H2].
    assert (Hd : In k (JS.delete keyEqb s (addressKey f)))
      by (apply in_delete; split; assumption).
    rewrite Ed in Hd. exact Hd.
  - rewrite <- Ed. apply in_delete.
Qed.

Lemma X19_range_watcher_laws_witness :
  RangeWatchers.watchersOf Sample.twoWatchers (mkAddress 0 0)
    = [addressKey (mkAddress 4 0); addressKey (mkAddress 5 0)]
  /\ RangeWatchers.watchersOf (RangeWatchers.removeWatches Sample.twoWatchers (mkAddress 4 0))
       (mkAddress 0 0) = [addressKey (mkAddress 5 0)]
  /\ (In (addressKey (mkAddress 5 0))
         (RangeWatchers.watchersOf (RangeWatchers.removeWatches Sample.twoWatchers (mkAddress 4 0))
            (mkAddress 0 0))
      <-> In (addressKey (mkAddress 5 0)) (RangeWatchers.watchersOf Sample.twoWatchers (mkAddress 0 0))
          /\ addressKey (mkAddress 5 0) <> addressKey (mkAddress 4 0)).
Proof.
  split; [reflexivity|]. split; [reflexivity|].
  assert (Hw : watchReachable Sample.twoWatchers).
  { unfold Sample.twoWatchers.
    apply watch_registerCell, watch_registerCell, watch_empty. }
  exact (proj2 (proj2 (proj2 (proj2 (proj2
           (X19_range_watcher_laws Sample.twoWatchers Scenario.sumRange (mkAddress 4 0) (mkAddress 4 0)
              (mkAddress 0 0) (mkAddress 0 0) (addressKey (mkAddress 5 0)) Hw)))))).
Defined.

End WatcherLaws.

(* ================================================================== *)
(** * Positions across a splice *)
(* ================================================================== *)

Section SplicedPositions.
Import Transform.
Local Arguments Z.add _ _ : simpl never.
Local Arguments Z.sub _ _ : simpl never.
Local Arguments Z.ltb _ _ : simpl never.
Local Arguments Z.leb _ _ : simpl never.

Local Ltac splice_cases s p :=
  unfold applySpliceToPos;
  destruct (0 <? del s) eqn:?Ed;
  [ destruct ((atPos s <=? p) && (p <? atPos s + del s)) eqn:?Eb;
    [ | destruct (atPos s + del s <=? p) eqn:?Ea ]
  | destruct (0 <? ins s) eqn:?Ei;
    [ destruct (atPos s <=? p) eqn:?Ea | ] ].

Local Ltac to_arith :=
  repeat match goal with
         | H : (_ && _) = true |- _ => apply andb_true_iff in H; destruct H
         | H : (_ && _) = false |- _ => apply andb_false_iff in H
         | H : (_ <? _) = true |- _ => apply Z.ltb_lt in H
         | H : (_ <? _) = false |- _ => apply Z.ltb_ge in H
         | H : (_ <=? _) = true |- _ => apply Z.leb_le in H
         | H : (_ <=? _) = false |- _ => apply Z.leb_gt in H
         end.

Lemma applySpliceToPos_None_iff : forall s p,
  applySpliceToPos s p = None <-> spliceDeletes s p.
Proof.
  intros s p. unfold spliceDeletes. splice_cases s p; to_arith;
    split; intros Hyp; try discriminate; try reflexivity; try lia;
    destruct Eb; to_arith; lia.
Qed.

Lemma applySpliceToPos_mono : forall s p q p' q',
  0 <= ins s ->
  applySpliceToPos s p = Some p' -> applySpliceToPos s q = Some q' ->
  p < q -> p' < q'.
Proof.
  intros s p q p' q' Hi Hp Hq Hlt.
  revert Hp Hq. splice_cases s p; splice_cases s q; to_arith;
    intros Hp Hq; try discriminate;
    inversion Hp; inversion Hq; subst;
    repeat match goal with
           | H : _ \/ _ |- _ => destruct H; to_arith
           end; lia.
Qed.

Lemma applySpliceToPos_order : forall s p q p' q',
  0 <= ins s ->
  applySpliceToPos s p = Some p' -> applySpliceToPos s q = Some q' ->
  (q' < p' <-> q < p).
Proof.
  intros s p q p' q' Hi Hp Hq. split; intros H.
  - destruct (Z.lt_trichotomy p q) as [L|[E|G]].
    + pose proof (applySpliceToPos_mono s p q p' q' Hi Hp Hq L). lia.
    + subst q. rewrite Hp in Hq. inversion Hq. lia.
    + exact G.
  - apply (applySpliceToPos_mono s q p q' p' Hi Hq Hp H).
Qed.

(** [transformAnchor] in terms of the axis being spliced. *)
Lemma transformAnchor_spec : forall a s rowAxis colAxis,
  transformAnchor a s rowAxis colAxis
  = match AxisIndex.idToPos (axisOf (axis s) rowAxis colAxis) (baseIdOn (axis s) a) with
    | None => None
    | Some bp =>
        match applySpliceToPos s bp,
              match modeOn (axis s) a with
              | rel => applySpliceToPos s (bp + offsetOn (axis s) a)
              | abs => Some (bp + offsetOn (axis s) a)
              end with
        | Some nb, Some nt =>
            Some match axis s with
                 | AxRow => mkAnchor (base a) (rowMode a) (colMode a) (nt - nb) (dCol a)
                 | AxCol => mkAnchor (base a) (rowMode a) (colMode a) (dRow a) (nt - nb)
                 end
        | _, _ => None
        end
    end.
Proof.
  intros a s rowAxis colAxis. unfold transformAnchor.
  destruct (axis s); simpl;
    match goal with
    | |- context [AxisIndex.idToPos ?ax ?id] => destruct (AxisIndex.idToPos ax id)
    end; try reflexivity;
    match goal with
    | |- context [applySpliceToPos s ?p] => destruct (applySpliceToPos s p)
    end; reflexivity.
Qed.


(** X22 ([transformRange]).  For a range whose two anchors share their
    base and are relative on the spliced axis, and a splice that
    inserts no negative count, the range becomes ['#REF!'] exactly when
    the splice deletes the position of the base, of the first corner or
    of the last corner, or when the first corner lies after the last
    one: a range written in reverse order does not survive any splice
    along that axis, and deleting a corner does not shrink the range. *)
Theorem X22_range_becomes_error_when_corner_deleted : forall rg s rowAxis colAxis bp,
  base (start rg) = base (end_ rg) ->
  modeOn (axis s) (start rg) = rel -> modeOn (axis s) (end_ rg) = rel ->
  0 <= ins s ->
  AxisIndex.idToPos (axisOf (axis s) rowAxis colAxis) (baseIdOn (axis s) (start rg))
    = Some bp ->
  (transformRange rg s rowAxis colAxis = None
   <-> spliceDeletes s bp
       \/ spliceDeletes s (bp + offsetOn (axis s) (start rg))
       \/ spliceDeletes s (bp + offsetOn (axis s) (end_ rg))
       \/ offsetOn (axis s) (end_ rg) < offsetOn (axis s) (start rg)).
Proof.
  intros rg s rowAxis colAxis bp Hb Hms Hme Hi Hbp.
  assert (Hbp' : AxisIndex.idToPos (axisOf (axis s) rowAxis colAxis)
                   (baseIdOn (axis s) (end_ rg)) = Some bp).
  { rewrite <- Hbp. unfold baseIdOn. rewrite Hb. reflexivity. }
  unfold transformRange. rewrite !transformAnchor_spec, Hbp, Hbp', Hms, Hme.
  rewrite <- !applySpliceToPos_None_iff.
  destruct (applySpliceToPos s bp) as [nb|] eqn:Eb; [|tauto].
  destruct (applySpliceToPos s (bp + offsetOn (axis s) (start rg))) as [ns|] eqn:Es;
    [|tauto].
  destruct (applySpliceToPos s (bp + offsetOn (axis s) (end_ rg))) as [ne|] eqn:Ee;
    [|tauto].
  pose proof (applySpliceToPos_order s _ _ ns ne Hi Es Ee) as Ho.
  destruct (axis s) eqn:Ea; simpl in *; rewrite Hbp, Hbp';
    destruct (bp + (ne - nb) <? bp + (ns - nb)) eqn:E; to_arith;
    split; intros H; try reflexivity; try discriminate;
    try (right; right; right; lia);
    try (destruct H as [H|[H|[H|H]]]; try discriminate; lia).
Qed.

Lemma X22_range_becomes_error_when_corner_deleted_witness :
  transformRange Scenario.sumRange (mkSplice AxRow 1 1 0)
    (AxisIndex.create 5) (AxisIndex.create 3) = None
  /\ transformRange Scenario.sumRange (mkSplice AxRow 2 1 0)
       (AxisIndex.create 5) (AxisIndex.create 3)
     = Some (mkRange (mkAnchor (mkAddress 4 0) rel rel (-3) 0)
                     (mkAnchor (mkAddress 4 0) rel rel (-1) 0))
  /\ (transformRange Scenario.sumRange (mkSplice AxRow 1 1 0)
        (AxisIndex.create 5) (AxisIndex.create 3) = None
      <-> spliceDeletes (mkSplice AxRow 1 1 0) 5
          \/ spliceDeletes (mkSplice AxRow 1 1 0) (5 + -4)
          \/ spliceDeletes (mkSplice AxRow 1 1 0) (5 + -1)
          \/ -1 < -4).
Proof.
  split; [reflexivity|]. split; [reflexivity|].
  apply (X22_range_becomes_error_when_corner_deleted Scenario.sumRange
           (mkSplice AxRow 1 1 0) (AxisIndex.create 5) (AxisIndex.create 3) 5).
  - reflexivity.
  - reflexivity.
  - reflexivity.
  - simpl. lia.
  - reflexivity.
Defined.

End SplicedPositions.

(* ================================================================== *)
(** * Writing one cell *)
(* ================================================================== *)

Section SingleCell.
Import Table.

Lemma only_member : forall (l : list Key) k,
  NoDup l -> (forall x, In x l <-> x = k) -> l = [k].
Proof.
  intros l k ND H. destruct l as [|x l].
  - exfalso. apply (proj2 (H k) eq_refl).
  - assert (x = k) by (apply H; left; reflexivity). subst x.
    destruct l as [|y l]; [reflexivity|].
    exfalso. inversion ND as [|? ? Hn _]; subst. apply Hn.
    assert (y = k) by (apply H; right; left; reflexivity). subst y.
    left. reflexivity.
Qed.

Lemma topologicalSort_single : forall g k, topologicalSort g [k] = [k].
Proof.
  intros g k. destruct (topologicalSort_inv g [k]) as [I1 [_ [I3 _]]]. simpl in *.
  apply only_member; [exact I1|]. intros x. split.
  - intros Hx. destruct (I3 x Hx) as [E|[]]. symmetry. exact E.
  - intros E. subst x. apply topologicalSort_complete. left. reflexivity.
Qed.

Lemma reaches_nowhere : forall out k x,
  membersAt out k = [] -> reaches out k x -> x = k.
Proof.
  intros out k x Hm Hr. induction Hr as [|a b c Hab IH Hbc].
  - reflexivity.
  - specialize (IH Hm). subst b. rewrite Hm in Hbc. contradiction.
Qed.

Lemma affectedFrom_single : forall g k,
  membersAt (DepGraph.outgoing g) k = [] -> DepGraph.affectedFrom g [k] = [k].
Proof.
  intros g k Hm. destruct (affectedFrom_reaches g [k]) as [ND H].
  apply only_member; [exact ND|]. intros x. rewrite H. split.
  - intros [c0 [[E|[]] Hr]]. subst c0. apply (reaches_nowhere _ _ _ Hm Hr).
  - intros E. subst x. exists k. split; [left; reflexivity | apply reaches_here].
Qed.

Lemma recalc_single : forall t k,
  membersAt (DepGraph.outgoing (deps t)) k = [] -> recalc t [k] = recalcStep t k.
Proof.
  intros t k Hm. unfold recalc, recalcOrder.
  rewrite (affectedFrom_single _ _ Hm), topologicalSort_single. reflexivity.
Qed.

Lemma set_set : forall (V : Type) (m : list (Key * V)) k v v',
  JS.set keyEqb (JS.set keyEqb m k v) k v' = JS.set keyEqb m k v'.
Proof.
  induction m as [|[k0 v0] m IH]; intros k v v'; simpl.
  - rewrite keyEqb_refl. reflexivity.
  - destruct (keyEqb k k0) eqn:E; simpl; rewrite E; [reflexivity|].
    rewrite IH. reflexivity.
Qed.

Lemma fold_left_ext_in : forall (A B : Type) (f g : A -> B -> A) (l : list B) (a : A),
  (forall x y, In y l -> f x y = g x y) -> fold_left f l a = fold_left g l a.
Proof.
  intros A B f g l. induction l as [|y l IH]; intros a H; simpl.
  - reflexivity.
  - rewrite (H a y (or_introl eq_refl)). apply IH.
    intros x z Hz. apply H. right. exact Hz.
Qed.

(** The value of a formula depends on the axes and on the cells the
    formula reads. *)
Lemma evalFormula_value_ext : forall t t' f a a',
  rows t' = rows t -> cols t' = cols t ->
  (forall x, In x (collectDependencies t f) ->
             CellStore.get (cells t') x = CellStore.get (cells t) x) ->
  fst (evalFormula t' f a') = fst (evalFormula t f a).
Proof.
  intros t t' f a a' Hr Hc Hx. destruct f as [an|rg]; simpl in *.
  - rewrite Hr, Hc.
    destruct (Parser.anchorToAddress an (rows t) (cols t)) as [target|]; [|reflexivity].
    rewrite (Hx target (or_introl eq_refl)).
    destruct (CellStore.get (cells t) target) as [[v|f c0]|]; reflexivity.
  - rewrite (expandRange_frame t t' rg Hr Hc). f_equal.
    apply fold_left_ext_in. intros acc y Hy. rewrite (Hx y Hy). reflexivity.
Qed.

Lemma collectDependencies_frame : forall t t' f,
  rows t' = rows t -> cols t' = cols t ->
  collectDependencies t' f = collectDependencies t f.
Proof.
  intros t t' f Hr Hc. destruct f as [an|rg]; simpl.
  - rewrite Hr, Hc. reflexivity.
  - apply expandRange_frame; assumption.
Qed.

Lemma existsb_addressEquals : forall addr (l : list Address),
  existsb (addressEquals addr) l = true <-> In addr l.
Proof.
  intros addr l. rewrite existsb_exists. split.
  - intros [x [Hx E]]. unfold addressEquals in E.
    apply andb_true_iff in E. destruct E as [E1 E2].
    apply Nat.eqb_eq in E1. apply Nat.eqb_eq in E2.
    destruct addr, x. simpl in *. subst. exact Hx.
  - intros H. exists addr. split; [exact H|].
    unfold addressEquals. rewrite !Nat.eqb_refl. reflexivity.
Qed.

Lemma no_members : forall (l : list Key), (forall x, ~ In x l) -> l = [].
Proof.
  intros l H. destruct l as [|x l]; [reflexivity|].
  exfalso. apply (H x). left. reflexivity.
Qed.

Lemma removeAll_outgoing_empty : forall g node,
  membersAt (DepGraph.outgoing (DepGraph.removeAll g node)) (addressKey node) = [].
Proof.
  intros g node. unfold membersAt. rewrite removeAll_no_outgoing. reflexivity.
Qed.

(** After the old edges of the cell are removed and the edges from its
    producers are added, the cell has no dependents unless it is one of
    its own producers. *)
Lemma installed_no_dependents : forall g addr ds,
  ~ In addr ds ->
  membersAt (DepGraph.outgoing
               (fold_left (fun g' dep => DepGraph.addEdge g' dep addr) ds
                          (DepGraph.removeAll g addr)))
            (addressKey addr) = [].
Proof.
  intros g addr ds Hn. apply no_members. intros x Hx.
  apply (proj1 (addLoop_edges ds _ addr (addressKey addr) x)) in Hx.
  destruct Hx as [Hx|[Hx _]].
  - rewrite removeAll_outgoing_empty in Hx. contradiction.
  - apply in_map_iff in Hx. destruct Hx as [y [Ey Hy]].
    apply addressKey_inj in Ey. subst y. contradiction.
Qed.

Lemma installFormula_cells : forall t addr f,
  cells (installFormula t addr f)
  = CellStore.set (cells t) addr
      (CFormula f (Some (if existsb (addressEquals addr) (collectDependencies t f)
                         then ErrCycle
                         else fst (evalFormula t f addr))))
  /\ rows (installFormula t addr f) = rows t
  /\ cols (installFormula t addr f) = cols t.
Proof.
  intros t addr f. unfold installFormula.
  set (t1 := withRanges (withDeps t (DepGraph.removeAll (deps t) addr))
                        (RangeWatchers.removeWatches (ranges t) addr)).
  assert (Ed : collectDependencies t1 f = collectDependencies t f)
    by (apply collectDependencies_frame; reflexivity).
  rewrite Ed.
  pose proof (installFormula_cycle_iff_self_reference t addr f) as Hc.
  change (DepGraph.removeAll (deps t) addr) with (deps t1) in Hc.
  destruct (existsb (fun dep => DepGraph.wouldCreateCycle (deps t1) dep addr)
                    (collectDependencies t f)) eqn:Ec.
  - assert (Hin : In addr (collectDependencies t f)) by (apply Hc; reflexivity).
    apply existsb_addressEquals in Hin. rewrite Hin. repeat split.
  - assert (Hn : ~ In addr (collectDependencies t f)).
    { intros Hin. apply Hc in Hin. discriminate. }
    assert (Hb : existsb (addressEquals addr) (collectDependencies t f) = false).
    { destruct (existsb (addressEquals addr) (collectDependencies t f)) eqn:E;
        [|reflexivity]. apply existsb_addressEquals in E. contradiction. }
    rewrite Hb.
    match goal with
    | |- context [recalc ?x _] => set (t4 := x)
    end.
    assert (Hm : membersAt (DepGraph.outgoing (deps t4)) (addressKey addr) = []).
    { unfold t4. destruct f; simpl; apply installed_no_dependents; exact Hn. }
    rewrite (recalc_single t4 _ Hm).
    assert (Hc4 : cells t4 = CellStore.set (cells t) addr (CFormula f None))
      by (unfold t4; destruct f; reflexivity).
    assert (Hr4 : rows t4 = rows t) by (unfold t4; destruct f; reflexivity).
    assert (Hcl4 : cols t4 = cols t) by (unfold t4; destruct f; reflexivity).
    clearbody t4.
    unfold recalcStep. rewrite address_key_roundtrip.
    assert (Hg : CellStore.get (cells t4) addr = Some (CFormula f None)).
    { rewrite Hc4. unfold CellStore.get, CellStore.set.
      rewrite get_set, keyEqb_refl. reflexivity. }
    rewrite Hg.
    destruct (evalFormula_frame t4 f addr) as [F1 [F2 F3]].
    destruct (evalFormula t4 f addr) as [value t5] eqn:Ee. simpl in F1, F2, F3.
    simpl. rewrite F1, F2, F3, Hc4, Hr4, Hcl4.
    unfold CellStore.set. rewrite set_set.
    repeat split. do 3 f_equal.
    change value with (fst (value, t5)). rewrite <- Ee.
    apply evalFormula_value_ext; try assumption.
    intros x Hx. rewrite Hc4. unfold CellStore.get, CellStore.set. rewrite get_set.
    destruct (keyEqb (addressKey x) (addressKey addr)) eqn:E; [|reflexivity].
    apply keyEqb_eq in E. apply addressKey_inj in E. subst x. contradiction.
Qed.

End SingleCell.

(* ================================================================== *)
(** * Invariants of reachable sheets *)
(* ================================================================== *)

Section ReachableSheets.
Import Table.

(** ** The dependency graph of a reachable sheet *)

Lemma evalFormula_graph : forall t f a,
  graphReachable (deps t) -> graphReachable (deps (snd (evalFormula t f a))).
Proof.
  intros t f a H. destruct f as [an|rg]; simpl.
  - destruct (Parser.anchorToAddress an (rows t) (cols t)) as [target|]; [|exact H].
    destruct (CellStore.get (cells t) target) as [[v|f c0]|]; exact H.
  - apply graph_replaceAllInbound. exact H.
Qed.

Lemma recalcStep_graph : forall t key,
  graphReachable (deps t) -> graphReachable (deps (recalcStep t key)).
Proof.
  intros t key H. unfold recalcStep.
  destruct (CellStore.get (cells t) (parseAddressKey key)) as [[v|f c0]|]; try exact H.
  pose proof (evalFormula_graph t f (parseAddressKey key) H) as G.
  destruct (evalFormula t f (parseAddressKey key)) as [value t1]. exact G.
Qed.

Lemma recalcLoop_graph : forall keys t,
  graphReachable (deps t) -> graphReachable (deps (fold_left recalcStep keys t)).
Proof.
  induction keys as [|k keys IH]; intros t H; simpl; [exact H|].
  apply IH. apply recalcStep_graph. exact H.
Qed.

Lemma recalc_graph : forall t dirty,
  graphReachable (deps t) -> graphReachable (deps (recalc t dirty)).
Proof. intros t dirty H. apply recalcLoop_graph. exact H. Qed.

Lemma addLoop_graph : forall ds g to,
  graphReachable g ->
  graphReachable (fold_left (fun g' dep => DepGraph.addEdge g' dep to) ds g).
Proof.
  induction ds as [|d ds IH]; intros g to H; simpl; [exact H|].
  apply IH. apply graph_addEdge. exact H.
Qed.

Lemma spliceLoop_graph : forall s entries t d,
  graphReachable (deps t) ->
  graphReachable (deps (fst (fold_left (spliceStep s) entries (t, d)))).
Proof.
  induction entries as [|[key cell] entries IH]; intros t d H; [exact H|].
  cbn [fold_left].
  destruct (spliceStep s (t, d) (key, cell)) as [t1 d1] eqn:E.
  apply IH. unfold spliceStep in E. destruct cell as [v|f c0].
  - inversion E; subst. exact H.
  - destruct (transformFormula f s (rows t) (cols t)); inversion E; subst; simpl.
    + exact H.
    + apply graph_removeAll. exact H.
Qed.

Lemma applySplice_graph : forall t s,
  graphReachable (deps t) -> graphReachable (deps (applySplice t s)).
Proof.
  intros t s H. unfold applySplice.
  pose proof (spliceLoop_graph s (CellStore.entries (cells t)) t [] H) as G.
  destruct (fold_left (spliceStep s) (CellStore.entries (cells t)) (t, [])) as [t1 dirty].
  simpl in G. apply recalc_graph. destruct (axis s); exact G.
Qed.

Lemma installFormula_graph : forall t addr f,
  graphReachable (deps t) -> graphReachable (deps (installFormula t addr f)).
Proof.
  intros t addr f H. unfold installFormula.
  match goal with |- context [if ?b then _ else _] => destruct b end.
  - simpl. apply graph_removeAll. exact H.
  - apply recalc_graph. destruct f; simpl; apply addLoop_graph;
      apply graph_removeAll; exact H.
Qed.

Lemma reachable_graph : forall t, tableReachable t -> graphReachable (deps t).
Proof.
  induction 1 as [ir ic | t pos v H IH | t pos src H IH | t p k H IH | t p q H IH
                 | t p k H IH | t p q H IH].
  - apply graph_empty.
  - unfold setValue. destruct (posToAddr t pos) as [addr|]; [|exact IH].
    apply recalc_graph.
    destruct (CellStore.get (cells t) addr) as [[v0|f c0]|]; simpl; try exact IH.
    apply graph_removeAll. exact IH.
  - unfold setFormula. destruct (posToAddr t pos) as [addr|]; [|exact IH].
    destruct (Parser.parseFormula src pos (rows t) (cols t)) as [f|].
    + apply installFormula_graph. exact IH.
    + exact IH.
  - apply applySplice_graph. exact IH.
  - apply applySplice_graph. exact IH.
  - apply applySplice_graph. exact IH.
  - apply applySplice_graph. exact IH.
Qed.

(** ** Cached values *)

Lemma evaluated_set : forall s addr cell,
  evaluated s -> (forall f, cell <> CFormula f None) ->
  evaluated (CellStore.set s addr cell).
Proof.
  intros s addr cell H Hc k f. unfold CellStore.set. rewrite get_set.
  destruct (keyEqb k (addressKey addr)).
  - intros E. inversion E. apply (Hc f). assumption.
  - apply H.
Qed.

Lemma recalcStep_evaluated : forall t key,
  evaluated (cells t) -> evaluated (cells (recalcStep t key)).
Proof.
  intros t key H k f.
  destruct (keyEqb key k) eqn:E.
  - apply keyEqb_eq in E. subst k.
    destruct (JS.get keyEqb (cells t) key) as [[v|f0 c0]|] eqn:Eg.
    + unfold recalcStep. unfold CellStore.get. rewrite key_parse_roundtrip, Eg.
      rewrite Eg. discriminate.
    + rewrite (recalcStep_formula t key f0 c0 Eg). discriminate.
    + unfold recalcStep. unfold CellStore.get. rewrite key_parse_roundtrip, Eg.
      rewrite Eg. discriminate.
  - apply keyEqb_neq in E. rewrite (recalcStep_other t key k E). apply H.
Qed.

Lemma recalcLoop_evaluated : forall keys t,
  evaluated (cells t) -> evaluated (cells (fold_left recalcStep keys t)).
Proof.
  induction keys as [|k keys IH]; intros t H; simpl; [exact H|].
  apply IH. apply recalcStep_evaluated. exact H.
Qed.

Lemma spliceLoop_store : forall t s,
  NoDup (storeKeys (cells t)) ->
  forall k, JS.get keyEqb
              (cells (fst (fold_left (spliceStep s) (CellStore.entries (cells t)) (t, [])))) k
            = match JS.get keyEqb (cells t) k with
              | Some cell => Some (spliceCell s (rows t) (cols t) cell)
              | None => None
              end.
Proof.
  intros t s ND k.
  pose proof (spliceLoop_cells s (CellStore.entries (cells t)) t [] ND) as Hloop.
  simpl in Hloop. rewrite Hloop.
  - unfold CellStore.entries. destruct (JS.get keyEqb (cells t) k); reflexivity.
  - intros k0 cell0 Hin. apply get_in_NoDup; assumption.
Qed.

Lemma applySplice_evaluated : forall t s,
  NoDup (storeKeys (cells t)) ->
  evaluated (cells t) -> evaluated (cells (applySplice t s)).
Proof.
  intros t s ND H. unfold applySplice.
  pose proof (spliceLoop_store t s ND) as Hloop.
  destruct (fold_left (spliceStep s) (CellStore.entries (cells t)) (t, [])) as [t1 dirty].
  simpl in Hloop. apply recalcLoop_evaluated.
  assert (E1 : evaluated (cells t1)).
  { intros k f. rewrite Hloop.
    destruct (JS.get keyEqb (cells t) k) as [[v|f0 c0]|] eqn:Eg; try discriminate.
    simpl. destruct (transformFormula f0 s (rows t) (cols t)); [|discriminate].
    intros E. inversion E; subst. apply (H k f0). exact Eg. }
  destruct (axis s); exact E1.
Qed.

Lemma reachable_evaluated : forall t, tableReachable t -> evaluated (cells t).
Proof.
  induction 1 as [ir ic | t pos v H IH | t pos src H IH | t p k H IH | t p q H IH
                 | t p k H IH | t p q H IH].
  - intros k f. simpl. discriminate.
  - unfold setValue. destruct (posToAddr t pos) as [addr|]; [|exact IH].
    apply recalcLoop_evaluated.
    destruct (CellStore.get (cells t) addr) as [[v0|f c0]|]; simpl;
      apply evaluated_set; try exact IH; discriminate.
  - unfold setFormula. destruct (posToAddr t pos) as [addr|]; [|exact IH].
    destruct (Parser.parseFormula src pos (rows t) (cols t)) as [f|].
    + destruct (installFormula_cells t addr f) as [E _]. rewrite E.
      apply evaluated_set; [exact IH | discriminate].
    + simpl. apply evaluated_set; [exact IH | discriminate].
  - apply applySplice_evaluated; [apply reachable_store_keys_distinct|]; assumption.
  - apply applySplice_evaluated; [apply reachable_store_keys_distinct|]; assumption.
  - apply applySplice_evaluated; [apply reachable_store_keys_distinct|]; assumption.
  - apply applySplice_evaluated; [apply reachable_store_keys_distinct|]; assumption.
Qed.

(** ** Bases of stored anchors *)

Lemma parseReference_base : forall ref pos rowAxis colAxis a rid cid,
  Parser.parseReference ref pos rowAxis colAxis = Some a ->
  AxisIndex.posToId rowAxis (r pos) = Some rid ->
  AxisIndex.posToId colAxis (c pos) = Some cid ->
  base a = mkAddress rid cid.
Proof.
  intros ref pos rowAxis colAxis a rid cid H Hr Hc. unfold Parser.parseReference in H.
  destruct (Parser.matchReference ref) as [[[[ca letters] ra] digits]|]; [|discriminate].
  rewrite Hr, Hc in H. inversion H; subst. reflexivity.
Qed.

Lemma parseFormula_base : forall src t pos f addr a,
  Parser.parseFormula src pos (rows t) (cols t) = Some f ->
  posToAddr t pos = Some addr ->
  In a (anchorsOf f) -> base a = addr.
Proof.
  intros src t pos f addr a H Hp Ha. unfold posToAddr in Hp.
  destruct (AxisIndex.posToId (rows t) (r pos)) as [rid|] eqn:Er; [|discriminate].
  destruct (AxisIndex.posToId (cols t) (c pos)) as [cid|] eqn:Ec; [|discriminate].
  inversion Hp; subst addr; clear Hp.
  unfold Parser.parseFormula in H.
  destruct (Parser.trim (list_ascii_of_string src)) as [|ch rest]; [discriminate|].
  assert (G : match Parser.matchSum (Parser.trim rest) with
              | Some (g1, g2) =>
                  match Parser.parseReference (Parser.trim g1) pos (rows t) (cols t),
                        Parser.parseReference (Parser.trim g2) pos (rows t) (cols t) with
                  | Some s, Some e => Some (Sum (mkRange s e))
                  | _, _ => None
                  end
              | None =>
                  match Parser.parseReference (Parser.trim rest) pos (rows t) (cols t) with
                  | Some anchor => Some (Ref anchor)
                  | None => None
                  end
              end = Some f).
  { destruct ch as [[] [] [] [] [] [] [] []]; try discriminate H. exact H. }
  clear H.
  destruct (Parser.matchSum (Parser.trim rest)) as [[g1 g2]|].
  - destruct (Parser.parseReference (Parser.trim g1) pos (rows t) (cols t)) as [s0|] eqn:E1;
      [|discriminate].
    destruct (Parser.parseReference (Parser.trim g2) pos (rows t) (cols t)) as [e0|] eqn:E2;
      [|discriminate].
    inversion G; subst f. simpl in Ha. destruct Ha as [Ha|[Ha|[]]]; subst a.
    + apply (parseReference_base _ _ _ _ _ _ _ E1 Er Ec).
    + apply (parseReference_base _ _ _ _ _ _ _ E2 Er Ec).
  - destruct (Parser.parseReference (Parser.trim rest) pos (rows t) (cols t)) as [a0|] eqn:E1;
      [|discriminate].
    inversion G; subst f. simpl in Ha. destruct Ha as [Ha|[]]; subst a.
    apply (parseReference_base _ _ _ _ _ _ _ E1 Er Ec).
Qed.

Lemma transformFormula_base : forall f s rowAxis colAxis f' a',
  transformFormula f s rowAxis colAxis = Some f' ->
  In a' (anchorsOf f') -> exists a, In a (anchorsOf f) /\ base a' = base a.
Proof.
  intros f s rowAxis colAxis f' a' H Ha. destruct f as [an|rg]; simpl in H.
  - destruct (Transform.transformAnchor an s rowAxis colAxis) as [an'|] eqn:E;
      [|discriminate].
    inversion H; subst f'. simpl in Ha. destruct Ha as [Ha|[]]. subst a'.
    exists an. split; [left; reflexivity|].
    destruct (transformAnchor_inv _ _ _ _ _ E) as [bp [nb [nt [_ [_ [_ Ea]]]]]].
    subst an'. destruct (axis s); reflexivity.
  - destruct (Transform.transformRange rg s rowAxis colAxis) as [rg'|] eqn:E;
      [|discriminate].
    inversion H; subst f'.
    destruct (transformRange_inv _ _ _ _ _ E) as [s' [e' [Es [Ee Er]]]]. subst rg'.
    destruct (transformAnchor_inv _ _ _ _ _ Es) as [bp [nb [nt [_ [_ [_ Ea]]]]]].
    destruct (transformAnchor_inv _ _ _ _ _ Ee) as [bp2 [nb2 [nt2 [_ [_ [_ Eb]]]]]].
    simpl in Ha. destruct Ha as [Ha|[Ha|[]]]; subst a'.
    + exists (start rg). split; [left; reflexivity|]. subst s'.
      destruct (axis s); reflexivity.
    + exists (end_ rg). split; [right; left; reflexivity|]. subst e'.
      destruct (axis s); reflexivity.
Qed.

Lemma based_upToCache : forall s s',
  storeUpToCache s s' -> based s -> based s'.
Proof.
  intros s s' U B k f cached a Hg Ha. specialize (U k). rewrite Hg in U.
  destruct (JS.get keyEqb s k) as [[v|f0 c0]|] eqn:E; try contradiction.
  simpl in U. subst f0. apply (B k f c0 a E Ha).
Qed.

Lemma based_set : forall s addr cell,
  based s ->
  (forall f cached a, cell = CFormula f cached -> In a (anchorsOf f) -> base a = addr) ->
  based (CellStore.set s addr cell).
Proof.
  intros s addr cell B Hc k f cached a Hg Ha. unfold CellStore.set in Hg.
  rewrite get_set in Hg. destruct (keyEqb k (addressKey addr)) eqn:E.
  - apply keyEqb_eq in E. subst k. inversion Hg; subst cell.
    rewrite (Hc f cached a eq_refl Ha). reflexivity.
  - apply (B k f cached a Hg Ha).
Qed.

Lemma applySplice_based : forall t s,
  NoDup (storeKeys (cells t)) -> based (cells t) -> based (cells (applySplice t s)).
Proof.
  intros t s ND B k f' cached a' Hg Ha.
  pose proof (applySplice_cells t s ND k) as H. rewrite Hg in H.
  destruct (JS.get keyEqb (cells t) k) as [[v|f c0]|] eqn:E; try contradiction.
  simpl in H.
  destruct (transformFormula f s (rows t) (cols t)) as [f1|] eqn:Et; [|contradiction].
  simpl in H. subst f1.
  destruct (transformFormula_base _ _ _ _ _ _ Et Ha) as [a [Hin Eb]].
  rewrite Eb. apply (B k f c0 a E Hin).
Qed.

Lemma reachable_based : forall t, tableReachable t -> based (cells t).
Proof.
  induction 1 as [ir ic | t pos v H IH | t pos src H IH | t p k H IH | t p q H IH
                 | t p k H IH | t p q H IH].
  - intros k f cached a Hg. simpl in Hg. discriminate.
  - unfold setValue. destruct (posToAddr t pos) as [addr|]; [|exact IH].
    match goal with
    | |- based (cells (recalc ?x ?d)) =>
        destruct (recalc_frame x d) as [_ [_ [_ U]]];
        apply (based_upToCache _ _ U)
    end.
    destruct (CellStore.get (cells t) addr) as [[v0|f c0]|]; simpl;
      apply based_set; try exact IH; intros f' c' a' E; discriminate.
  - unfold setFormula. destruct (posToAddr t pos) as [addr|] eqn:Ep; [|exact IH].
    destruct (Parser.parseFormula src pos (rows t) (cols t)) as [f|] eqn:Ef.
    + destruct (installFormula_cells t addr f) as [E _]. rewrite E.
      apply based_set; [exact IH|]. intros f' c' a' Ec Ha. inversion Ec; subst f'.
      apply (parseFormula_base src t pos f addr a' Ef Ep Ha).
    + simpl. apply based_set; [exact IH|]. intros f' c' a' E. discriminate.
  - apply applySplice_based; [apply reachable_store_keys_distinct|]; assumption.
  - apply applySplice_based; [apply reachable_store_keys_distinct|]; assumption.
  - apply applySplice_based; [apply reachable_store_keys_distinct|]; assumption.
  - apply applySplice_based; [apply reachable_store_keys_distinct|]; assumption.
Qed.

End ReachableSheets.

(* ================================================================== *)
(** * Operations of the table *)
(* ================================================================== *)

Section TableOperations.
Import Table.
Local Arguments Z.add _ _ : simpl never.
Local Arguments Z.sub _ _ : simpl never.
Local Arguments Z.ltb _ _ : simpl never.
Local Arguments Z.leb _ _ : simpl never.
Local Arguments Z.of_nat _ : simpl never.
Local Arguments Z.to_nat _ : simpl never.



Lemma installFormula_deps : forall t addr f,
  deps (installFormula t addr f)
  = let ds := collectDependencies t f in
    let g4 := fold_left (fun g dep => DepGraph.addEdge g dep addr) ds
                        (DepGraph.removeAll (deps t) addr) in
    if existsb (addressEquals addr) ds then DepGraph.removeAll (deps t) addr
    else match f with
         | Ref _ => g4
         | Sum _ => DepGraph.replaceAllInbound g4 addr ds
         end.
Proof.
  intros t addr f. unfold installFormula.
  set (t1 := withRanges (withDeps t (DepGraph.removeAll (deps t) addr))
                        (RangeWatchers.removeWatches (ranges t) addr)).
  assert (Ed : collectDependencies t1 f = collectDependencies t f)
    by (apply collectDependencies_frame; reflexivity).
  rewrite Ed.
  pose proof (installFormula_cycle_iff_self_reference t addr f) as Hc.
  change (DepGraph.removeAll (deps t) addr) with (deps t1) in Hc.
  cbv zeta.
  destruct (existsb (fun dep => DepGraph.wouldCreateCycle (deps t1) dep addr)
                    (collectDependencies t f)) eqn:Ec.
  - assert (Hin : In addr (collectDependencies t f)) by (apply Hc; reflexivity).
    apply existsb_addressEquals in Hin. rewrite Hin. reflexivity.
  - assert (Hn : ~ In addr (collectDependencies t f)).
    { intros Hin. apply Hc in Hin. discriminate. }
    assert (Hb : existsb (addressEquals addr) (collectDependencies t f) = false).
    { destruct (existsb (addressEquals addr) (collectDependencies t f)) eqn:E;
        [|reflexivity]. apply existsb_addressEquals in E. contradiction. }
    rewrite Hb.
    match goal with
    | |- context [recalc ?x _] => set (t4 := x)
    end.
    assert (Hm : membersAt (DepGraph.outgoing (deps t4)) (addressKey addr) = []).
    { unfold t4. destruct f; simpl; apply installed_no_dependents; exact Hn. }
    rewrite (recalc_single t4 _ Hm).
    assert (Hc4 : cells t4 = CellStore.set (cells t) addr (CFormula f None))
      by (unfold t4; destruct f; reflexivity).
    assert (Hr4 : rows t4 = rows t) by (unfold t4; destruct f; reflexivity).
    assert (Hcl4 : cols t4 = cols t) by (unfold t4; destruct f; reflexivity).
    assert (Hd4 : deps t4 = fold_left (fun g dep => DepGraph.addEdge g dep addr)
                              (collectDependencies t f)
                              (DepGraph.removeAll (deps t) addr))
      by (unfold t4; destruct f; reflexivity).
    clearbody t4.
    unfold recalcStep. rewrite address_key_roundtrip.
    assert (Hg : CellStore.get (cells t4) addr = Some (CFormula f None)).
    { rewrite Hc4. unfold CellStore.get, CellStore.set.
      rewrite get_set, keyEqb_refl. reflexivity. }
    rewrite Hg. destruct f as [an|rg].
    + simpl.
      destruct (Parser.anchorToAddress an (rows t4) (cols t4)) as [target|];
        [|exact Hd4].
      destruct (CellStore.get (cells t4) target) as [[v|f0 c0]|]; exact Hd4.
    + simpl. rewrite Hd4. f_equal. apply expandRange_frame; assumption.
Qed.

Lemma in_map_addressKey : forall x (l : list Address),
  In (addressKey x) (map addressKey l) <-> In x l.
Proof.
  intros x l. rewrite in_map_iff. split.
  - intros [y [E Hy]]. apply addressKey_inj in E. subst y. exact Hy.
  - intros H. exists x. split; [reflexivity | exact H].
Qed.

Lemma installFormula_edges : forall t addr f x kF,
  mirrored (deps t) ->
  (hasEdge (deps (installFormula t addr f)) x kF
   <-> (x <> addr /\ kF <> addressKey addr /\ hasEdge (deps t) x kF)
       \/ (~ In addr (collectDependencies t f)
           /\ kF = addressKey addr /\ In x (collectDependencies t f))).
Proof.
  intros t addr f x kF M. rewrite !hasEdge_membersAt, installFormula_deps. cbv zeta.
  pose proof (removeAll_mirrored _ addr M) as M1.
  pose proof (addLoop_mirrored (collectDependencies t f) _ addr M1) as M4.
  assert (Hx : addressKey x <> addressKey addr <-> x <> addr).
  { split; intros H E; apply H; [subst; reflexivity | apply addressKey_inj; exact E]. }
  destruct (existsb (addressEquals addr) (collectDependencies t f)) eqn:Eb.
  - apply existsb_addressEquals in Eb.
    rewrite (proj1 (removeAll_edges _ addr (addressKey x) kF M)). tauto.
  - assert (Hn : ~ In addr (collectDependencies t f)).
    { intros Hin. apply existsb_addressEquals in Hin. rewrite Hin in Eb. discriminate. }
    destruct f as [an|rg].
    + rewrite (proj1 (addLoop_edges _ _ addr (addressKey x) kF)).
      rewrite (proj1 (removeAll_edges _ addr (addressKey x) kF M)).
      rewrite in_map_addressKey. tauto.
    + rewrite (proj1 (replaceAllInbound_edges _ addr _ (addressKey x) kF M4)).
      rewrite (proj1 (addLoop_edges _ _ addr (addressKey x) kF)).
      rewrite (proj1 (removeAll_edges _ addr (addressKey x) kF M)).
      rewrite in_map_addressKey. tauto.
Qed.

Lemma setValue_frame : forall t pos v,
  rows (setValue t pos v) = rows t /\ cols (setValue t pos v) = cols t.
Proof.
  intros t pos v. unfold setValue. destruct (posToAddr t pos) as [addr|]; [|split; reflexivity].
  match goal with
  | |- context [recalc ?x ?d] => destruct (recalc_frame x d) as [R [C _]]
  end.
  rewrite R, C. destruct (CellStore.get (cells t) addr) as [[v0|f c0]|]; split; reflexivity.
Qed.

Lemma setValue_cells : forall t pos v addr,
  posToAddr t pos = Some addr ->
  JS.get keyEqb (cells (setValue t pos v)) (addressKey addr) = Some (CValue (Num v))
  /\ (forall k, k <> addressKey addr ->
        match JS.get keyEqb (cells t) k, JS.get keyEqb (cells (setValue t pos v)) k with
        | Some cell, Some cell' => sameUpToCache cell cell'
        | None, None => True
        | _, _ => False
        end)
  /\ (forall f cached,
        CellStore.get (cells t) addr = Some (CFormula f cached) ->
        cells (setValue t pos v) = CellStore.set (cells t) addr (CValue (Num v))).
Proof.
  intros t pos v addr Hp. unfold setValue. rewrite Hp.
  set (t1 := match CellStore.get (cells t) addr with
             | Some (CFormula _ _) =>
                 withRanges (withDeps t (DepGraph.removeAll (deps t) addr))
                            (RangeWatchers.removeWatches (ranges t) addr)
             | _ => t
             end).
  assert (Hc1 : cells t1 = cells t)
    by (unfold t1; destruct (CellStore.get (cells t) addr) as [[v0|f c0]|]; reflexivity).
  set (t2 := withCells t1 (CellStore.set (cells t1) addr (CValue (Num v)))).
  destruct (recalc_frame t2 [addressKey addr]) as [_ [_ [_ U]]].
  assert (Hg2 : forall k, JS.get keyEqb (cells t2) k
                          = if keyEqb k (addressKey addr) then Some (CValue (Num v))
                            else JS.get keyEqb (cells t) k).
  { intros k. unfold t2. simpl. unfold CellStore.set. rewrite get_set, Hc1. reflexivity. }
  split; [|split].
  - specialize (U (addressKey addr)). rewrite Hg2, keyEqb_refl in U.
    destruct (JS.get keyEqb (cells (recalc t2 [addressKey addr])) (addressKey addr))
      as [[v'|f' c']|]; try contradiction.
    simpl in U. subst v'. reflexivity.
  - intros k Hk. specialize (U k). rewrite Hg2 in U.
    apply keyEqb_neq in Hk. rewrite Hk in U. exact U.
  - intros f cached Hg.
    assert (Hm : membersAt (DepGraph.outgoing (deps t2)) (addressKey addr) = []).
    { unfold t2, t1. rewrite Hg. simpl. apply removeAll_outgoing_empty. }
    rewrite (recalc_single t2 _ Hm). unfold recalcStep.
    rewrite address_key_roundtrip.
    assert (Hga : CellStore.get (cells t2) addr = Some (CValue (Num v))).
    { unfold CellStore.get. rewrite Hg2, keyEqb_refl. reflexivity. }
    rewrite Hga. unfold t2. simpl. rewrite Hc1. reflexivity.
Qed.

Lemma steady_posToId_None : forall ax p,
  steady ax -> (AxisIndex.posToId ax p = None <-> ~ 1 <= p <= AxisIndex.maxPos ax).
Proof.
  intros [segs n] p [l [Hs _]]. simpl in Hs. subst segs.
  rewrite posToId_one_segment, maxPos_one_segment.
  destruct (1 <=? p) eqn:E.
  - apply Z.leb_le in E. rewrite nth_error_None. lia.
  - apply Z.leb_gt in E. split; [lia | reflexivity].
Qed.

Lemma posToAddr_None : forall t pos,
  steady (rows t) -> steady (cols t) ->
  (posToAddr t pos = None
   <-> ~ (1 <= r pos <= AxisIndex.maxPos (rows t)
          /\ 1 <= c pos <= AxisIndex.maxPos (cols t))).
Proof.
  intros t pos Hr Hc. unfold posToAddr.
  pose proof (steady_posToId_None (rows t) (r pos) Hr) as H1.
  pose proof (steady_posToId_None (cols t) (c pos) Hc) as H2.
  destruct (AxisIndex.posToId (rows t) (r pos)) as [rid|].
  - destruct (AxisIndex.posToId (cols t) (c pos)) as [cid|].
    + split; [discriminate|]. intros H. exfalso. apply H. split.
      * destruct (Z.le_gt_cases 1 (r pos)); destruct (Z.le_gt_cases (r pos) (AxisIndex.maxPos (rows t)));
          try lia; exfalso; assert (X : Some rid = None) by (apply H1; lia); discriminate.
      * destruct (Z.le_gt_cases 1 (c pos)); destruct (Z.le_gt_cases (c pos) (AxisIndex.maxPos (cols t)));
          try lia; exfalso; assert (X : Some cid = None) by (apply H2; lia); discriminate.
    + split; [|reflexivity]. intros _ [_ H]. apply (proj1 H2 eq_refl). exact H.
  - split; [|reflexivity]. intros _ [H _]. apply (proj1 H1 eq_refl). exact H.
Qed.

Lemma expandRange_swap : forall t a b,
  expandRange t (mkRange a b) = expandRange t (mkRange b a).
Proof.
  intros t a b. unfold expandRange. simpl.
  destruct (Parser.anchorToAddress a (rows t) (cols t)) as [sa|];
    destruct (Parser.anchorToAddress b (rows t) (cols t)) as [ea|]; try reflexivity.
  destruct (addrToPos t sa) as [sp|]; destruct (addrToPos t ea) as [ep|]; try reflexivity.
  rewrite (Z.min_comm (r sp)), (Z.max_comm (r sp)),
          (Z.min_comm (c sp)), (Z.max_comm (c sp)).
  reflexivity.
Qed.

Lemma posToAddr_ids : forall t pos addr,
  posToAddr t pos = Some addr ->
  AxisIndex.posToId (rows t) (r pos) = Some (row addr)
  /\ AxisIndex.posToId (cols t) (c pos) = Some (col addr).
Proof.
  intros t pos addr H. unfold posToAddr in H.
  destruct (AxisIndex.posToId (rows t) (r pos)) as [rid|]; [|discriminate].
  destruct (AxisIndex.posToId (cols t) (c pos)) as [cid|]; [|discriminate].
  inversion H. split; reflexivity.
Qed.

Lemma getSource_formula : forall t pos addr f cached,
  posToAddr t pos = Some addr ->
  CellStore.get (cells t) addr = Some (CFormula f cached) ->
  getSource t pos = Parser.formatFormula f (rows t) (cols t).
Proof.
  intros t pos addr f cached Hp Hg. unfold getSource. rewrite Hp, Hg. reflexivity.
Qed.

(** X5 ([getSource], [formatFormula], [parseFormula]).  On a reachable
    sheet with steady axes, the source text shown for a formula cell
    whose anchors all resolve parses back, at that cell, to the stored
    formula: editing a cell and committing the text unchanged stores
    the same formula again. *)
Theorem X5_source_text_parses_back : forall t pos addr f cached,
  tableReachable t -> steady (rows t) -> steady (cols t) ->
  posToAddr t pos = Some addr ->
  CellStore.get (cells t) addr = Some (CFormula f cached) ->
  (forall a, In a (anchorsOf f) ->
             Parser.anchorToAddress a (rows t) (cols t) <> None) ->
  Parser.parseFormula (getSource t pos) pos (rows t) (cols t) = Some f.
Proof.
  intros t pos addr f cached Ht Hr Hc Hp Hg Hres.
  rewrite (getSource_formula t pos addr f cached Hp Hg).
  apply parseFormula_formatFormula; try assumption.
  intros a Ha.
  assert (Eb : base a = addr).
  { apply addressKey_inj. apply (reachable_based t Ht _ f cached a Hg Ha). }
  destruct (posToAddr_ids t pos addr Hp) as [P1 P2].
  rewrite Eb. repeat split; try assumption. apply (Hres a Ha).
Qed.

Lemma X5_source_text_parses_back_witness :
  getSource Scenario.sumBefore (mkPos 5 1) = "=SUM(A1:A4)"%string
  /\ Parser.parseFormula (getSource Scenario.sumBefore (mkPos 5 1)) (mkPos 5 1)
       (rows Scenario.sumBefore) (cols Scenario.sumBefore)
     = Some (Sum Scenario.sumRange).
Proof.
  split; [reflexivity|].
  apply (X5_source_text_parses_back Scenario.sumBefore (mkPos 5 1) (mkAddress 4 0)
           (Sum Scenario.sumRange) (Some (Num 0))).
  - unfold Scenario.sumBefore. apply reach_setFormula, reach_new.
  - exists [0; 1; 2; 3; 4]%nat. split; [reflexivity|]. split.
    + repeat constructor; simpl; intuition discriminate.
    + repeat constructor.
  - exists [0; 1; 2]%nat. split; [reflexivity|]. split.
    + repeat constructor; simpl; intuition discriminate.
    + repeat constructor.
  - reflexivity.
  - reflexivity.
  - intros a [Ha|[Ha|[]]]; subst a; vm_compute; discriminate.
Defined.

(** X28 ([Table.applySplice], [insertRows], [deleteRows], [insertCols],
    [deleteCols]).  In a reachable sheet whose spliced axis is steady, a
    value cell moves with its row or column: after an insertion or a
    deletion that does not delete its position, [getValue] at the new
    position of the cell gives the value it held. *)
Theorem X28_values_move_with_their_position : forall t s pos addr v q,
  tableReachable t ->
  steady (axisOf (axis s) (rows t) (cols t)) -> publicSplice s ->
  posToAddr t pos = Some addr ->
  CellStore.get (cells t) addr = Some (CValue v) ->
  Transform.applySpliceToPos s (coordOn (axis s) pos) = Some q ->
  getValue (applySplice t s)
           match axis s with
           | AxRow => mkPos q (c pos)
           | AxCol => mkPos (r pos) q
           end = Some v.
Proof.
  intros t s pos addr v q Ht Hs Hpub Hp Hg Hq.
  destruct (posToAddr_ids t pos addr Hp) as [P1 P2].
  destruct (applySplice_frame t s) as [Fr [Fc _]].
  pose proof (applySplice_cells t s (reachable_store_keys_distinct t Ht) (addressKey addr))
    as Hc.
  unfold CellStore.get in Hg. rewrite Hg in Hc.
  assert (Hga : CellStore.get (cells (applySplice t s)) addr = Some (CValue v)).
  { unfold CellStore.get.
    destruct (JS.get keyEqb (cells (applySplice t s)) (addressKey addr))
      as [[v'|f' c']|]; try contradiction.
    simpl in Hc. subst v'. reflexivity. }
  assert (Hpa : posToAddr (applySplice t s)
                  match axis s with
                  | AxRow => mkPos q (c pos)
                  | AxCol => mkPos (r pos) q
                  end = Some addr).
  { unfold posToAddr. rewrite Fr, Fc. unfold rowsAfter, colsAfter.
    destruct (axis s) eqn:Ea; simpl in *.
    - rewrite (spliceAxis_posToId (rows t) s (r pos) q (row addr) Hs Hpub P1 Hq), P2.
      destruct addr; reflexivity.
    - rewrite (spliceAxis_posToId (cols t) s (c pos) q (col addr) Hs Hpub P2 Hq), P1.
      destruct addr; reflexivity. }
  unfold getValue. rewrite Hpa, Hga. reflexivity.
Qed.

Lemma X28_values_move_with_their_position_witness :
  getValue Scenario.wipeBefore (mkPos 1 1) = Some (Num 5)
  /\ getValue (insertRows Scenario.wipeBefore 1 2) (mkPos 3 1) = Some (Num 5).
Proof.
  split; [reflexivity|].
  apply (X28_values_move_with_their_position Scenario.wipeBefore (mkSplice AxRow 1 0 2)
           (mkPos 1 1) (mkAddress 0 0) (Num 5) 3).
  - unfold Scenario.wipeBefore. apply reach_setValue, reach_new.
  - exists [0; 1; 2]%nat. split; [reflexivity|]. split.
    + repeat constructor; simpl; intuition discriminate.
    + repeat constructor.
  - unfold publicSplice. simpl. lia.
  - reflexivity.
  - reflexivity.
  - reflexivity.
Defined.



End TableOperations.

(* ================================================================== *)
(** * Further properties: parser and axis index *)
(* ================================================================== *)

Section ParserProperties.
Import Parser Table.


(** X3 ([parseReference], [anchorToAddress]).  On a sheet whose two
    axes are in the steady state, the anchor parsed from a reference
    text resolves to the cell at the row and column the text names,
    wherever the formula stands; its base is the cell of the formula
    and its modes follow the dollar signs. *)
Theorem X3_parsed_reference_names_its_cell :
  forall (t : Sheet) (ref : list ascii) (pos : Position) (a : Anchor)
         (colAbs rowAbs : bool) (letters digits : list ascii),
    steady (rows t) -> steady (cols t) ->
    matchReference ref = Some (colAbs, letters, rowAbs, digits) ->
    parseReference ref pos (rows t) (cols t) = Some a ->
    anchorToAddress a (rows t) (cols t)
      = posToAddr t (mkPos (parseInt digits) (letterToCol letters))
    /\ posToAddr t pos = Some (base a)
    /\ rowMode a = (if rowAbs then abs else rel)
    /\ colMode a = (if colAbs then abs else rel).
Proof.
  intros t ref pos a colAbs rowAbs letters digits Hr Hc Hm H.
  unfold parseReference in H. rewrite Hm in H.
  destruct (AxisIndex.posToId (rows t) (r pos)) as [rid|] eqn:Er; [|discriminate].
  destruct (AxisIndex.posToId (cols t) (c pos)) as [cid|] eqn:Ec; [|discriminate].
  inversion H; subst a; clear H.
  split; [|split; [|split; reflexivity]].
  - unfold anchorToAddress, posToAddr. simpl.
    apply (steady_axis_bijection (rows t) _ _ Hr) in Er.
    apply (steady_axis_bijection (cols t) _ _ Hc) in Ec.
    rewrite Er, Ec.
    replace (r pos + (parseInt digits - r pos)) with (parseInt digits) by lia.
    replace (c pos + (letterToCol letters - c pos)) with (letterToCol letters) by lia.
    destruct rowAbs, colAbs; reflexivity.
  - unfold posToAddr. rewrite Er, Ec. reflexivity.
Qed.

Lemma X3_parsed_reference_names_its_cell_witness :
  parseReference (list_ascii_of_string "$B3") (mkPos 5 1)
    (rows (create 5 3)) (cols (create 5 3))
  = Some (mkAnchor (mkAddress 4 0) rel abs (-2) 1)
  /\ anchorToAddress (mkAnchor (mkAddress 4 0) rel abs (-2) 1)
       (rows (create 5 3)) (cols (create 5 3))
     = posToAddr (create 5 3) (mkPos 3 2).
Proof.
  split; [reflexivity|].
  apply (X3_parsed_reference_names_its_cell (create 5 3)
           (list_ascii_of_string "$B3") (mkPos 5 1)
           (mkAnchor (mkAddress 4 0) rel abs (-2) 1)
           true false (list_ascii_of_string "B") (list_ascii_of_string "3")).
  - apply create_steady.
  - apply create_steady.
  - reflexivity.
  - reflexivity.
Defined.

(** X4 ([formatAnchor], [parseReference]).  On steady axes, the text
    printed for an anchor that resolves to a cell parses back, at the
    cell the anchor is based on, to the same anchor: base, modes and
    offsets. *)
Theorem X4_printed_anchor_parses_back :
  forall (a : Anchor) (pos : Position) (rowAxis colAxis : AxisIndex.t) (addr : Address),
    steady rowAxis -> steady colAxis ->
    AxisIndex.posToId rowAxis (r pos) = Some (row (base a)) ->
    AxisIndex.posToId colAxis (c pos) = Some (col (base a)) ->
    anchorToAddress a rowAxis colAxis = Some addr ->
    parseReference (formatAnchor a rowAxis colAxis) pos rowAxis colAxis = Some a.
Proof.
  exact parseReference_formatAnchor.
Qed.

Lemma X4_printed_anchor_parses_back_witness :
  formatAnchor (mkAnchor (mkAddress 1 0) abs rel 26 27)
    (AxisIndex.create 30) (AxisIndex.create 30)
  = list_ascii_of_string "AB$28"
  /\ parseReference
       (formatAnchor (mkAnchor (mkAddress 1 0) abs rel 26 27)
          (AxisIndex.create 30) (AxisIndex.create 30))
       (mkPos 2 1) (AxisIndex.create 30) (AxisIndex.create 30)
     = Some (mkAnchor (mkAddress 1 0) abs rel 26 27).
Proof.
  split; [reflexivity|].
  apply (X4_printed_anchor_parses_back (mkAnchor (mkAddress 1 0) abs rel 26 27)
           (mkPos 2 1) (AxisIndex.create 30) (AxisIndex.create 30)
           (mkAddress 27 27)).
  - apply create_steady.
  - apply create_steady.
  - reflexivity.
  - reflexivity.
  - reflexivity.
Defined.

End ParserProperties.

Section AxisProperties.
Import AxisIndex.
Local Arguments Z.add _ _ : simpl never.
Local Arguments Z.sub _ _ : simpl never.
Local Arguments Z.ltb _ _ : simpl never.
Local Arguments Z.leb _ _ : simpl never.
Local Arguments Z.max _ _ : simpl never.
Local Arguments Z.of_nat _ : simpl never.
Local Arguments Z.to_nat _ : simpl never.

(** X6 ([AxisIndex] constructor, [posToId], [maxPos], [totalIds],
    [segmentCount]).  A fresh index of [n] positions maps position [p]
    to the identifier numbered [p - 1] for [1 <= p <= n] and to nothing
    elsewhere; it has one segment, [n] identifiers and last position
    [n] (nothing for a negative [n]). *)
Theorem X6_fresh_axis_positions : forall n p : Z,
  posToId (create n) p
    = (if (1 <=? p) && (p <=? n) then Some (Z.to_nat (p - 1)) else None)
  /\ maxPos (create n) = Z.max 0 n
  /\ totalIds (create n) = Z.to_nat n
  /\ segmentCount (create n) = 1%nat.
Proof.
  intros n p. split; [apply create_positions|].
  split; [|split; [|reflexivity]].
  - unfold create. rewrite maxPos_one_segment, length_mint. lia.
  - unfold create, totalIds. simpl. apply length_mint.
Qed.

(** X7 ([AxisIndex.insert]).  On a steady axis, inserting [count >= 0]
    positions at a position between 1 and one past the end returns
    [count] fresh identifiers, places them at [atPos .. atPos+count-1]
    in order, keeps the positions before [atPos], moves the others up
    by [count], and moves the last position up by [count]. *)
Theorem X7_insert_inside_the_axis : forall (ax : t) (atPos count p : Z),
  steady ax -> 1 <= atPos <= maxPos ax + 1 -> 0 <= count ->
  snd (insert ax atPos count) = mint (nextId ax) count
  /\ posToId (fst (insert ax atPos count)) p
     = (if p <? atPos then posToId ax p
        else if p <? atPos + count
             then Some (nextId ax + Z.to_nat (p - atPos))%nat
             else posToId ax (p - count))
  /\ maxPos (fst (insert ax atPos count)) = maxPos ax + count.
Proof.
  intros ax atPos count p Hs Hat Hc.
  split; [|split; [apply insert_positions; assumption|]].
  - unfold insert.
    destruct (insert_segs (segments ax) atPos count (mint (nextId ax) count));
      reflexivity.
  - destruct ax as [segs n]. destruct Hs as [l [Hs _]]. simpl in Hs. subst segs.
    rewrite maxPos_one_segment in Hat.
    rewrite insert_inside_segments by lia. simpl fst.
    rewrite !maxPos_one_segment, !length_app, length_mint, length_firstn, length_skipn.
    lia.
Qed.

Lemma X7_insert_inside_the_axis_witness :
  snd (insert (create 3) 2 2) = [3; 4]%nat
  /\ posToId (fst (insert (create 3) 2 2)) 3 = Some 4%nat
  /\ posToId (fst (insert (create 3) 2 2)) 4 = Some 1%nat
  /\ maxPos (fst (insert (create 3) 2 2)) = 5.
Proof.
  assert (Hin : 1 <= 2 <= maxPos (create 3) + 1) by (vm_compute; split; discriminate).
  assert (Hc : 0 <= 2) by lia.
  split; [exact (proj1 (X7_insert_inside_the_axis (create 3) 2 2 3
                          (create_steady 3) Hin Hc))|].
  split; [exact (proj1 (proj2 (X7_insert_inside_the_axis (create 3) 2 2 3
                                 (create_steady 3) Hin Hc)))|].
  split; [exact (proj1 (proj2 (X7_insert_inside_the_axis (create 3) 2 2 4
                                 (create_steady 3) Hin Hc)))|].
  exact (proj2 (proj2 (X7_insert_inside_the_axis (create 3) 2 2 3
                         (create_steady 3) Hin Hc))).
Defined.

(** X12 ([AxisIndex.insert], [remove], [idToPos], [posToId]).  An
    identifier that the counter has passed and that the index no longer
    holds never comes back: after any further insertions and removals
    it has no position and no position yields it. *)
Theorem X12_retired_identifier_never_returns : forall (ax ax' : t) (id : AxisId),
  (id < nextId ax)%nat -> idToPos ax id = None -> axisEvolves ax ax' ->
  idToPos ax' id = None /\ forall p, posToId ax' p <> Some id.
Proof.
  intros ax ax' id Hlt Hnone Hev.
  apply idToPos_None_iff in Hnone.
  destruct (retired_stays_out ax ax' id Hlt Hnone Hev) as [_ Hout].
  split.
  - apply idToPos_None_iff. exact Hout.
  - intros p Hp. apply Hout. apply (posToId_in ax' p id Hp).
Qed.

Lemma X12_retired_identifier_never_returns_witness :
  idToPos (remove (create 3) 2 2) 1%nat = None
  /\ idToPos (fst (insert (remove (create 3) 2 2) 2 1)) 1%nat = None
  /\ posToId (fst (insert (remove (create 3) 2 2) 2 1)) 2 = Some 3%nat.
Proof.
  split; [reflexivity|]. split; [|reflexivity].
  apply (X12_retired_identifier_never_returns (remove (create 3) 2 2)
           (fst (insert (remove (create 3) 2 2) 2 1)) 1%nat).
  - vm_compute. lia.
  - reflexivity.
  - apply evolve_insert, evolve_here.
Defined.

End AxisProperties.

(* ================================================================== *)
(** * Further properties: store, graph, watchers and splices *)
(* ================================================================== *)

Section StoreAndGraphProperties.
Import DepGraph Table.

(** X14 ([DepGraph.addEdge], [replaceAllInbound], [removeAll] as used by
    [Table]).  In every reachable sheet the two maps of the dependency
    graph agree: [b] is listed among the dependents of [a] exactly when
    [a] is listed among the dependencies of [b]. *)
Theorem X14_dependents_mirror_dependencies : forall (t : Sheet) (a b : Address),
  tableReachable t ->
  (In (addressKey b) (getDependents (deps t) a)
   <-> In (addressKey a) (getDependencies (deps t) b)).
Proof.
  intros t a b Ht.
  apply (graphReachable_mirrored (deps t) (reachable_graph t Ht)
           (addressKey a) (addressKey b)).
Qed.

Lemma X14_dependents_mirror_dependencies_witness :
  In (addressKey (mkAddress 4 0))
     (getDependents (deps Scenario.sumAfter) (mkAddress 1 0))
  /\ In (addressKey (mkAddress 1 0))
        (getDependencies (deps Scenario.sumAfter) (mkAddress 4 0)).
Proof.
  assert (Ht : tableReachable Scenario.sumAfter).
  { unfold Scenario.sumAfter, Scenario.sumBefore.
    apply reach_setValue, reach_setFormula, reach_new. }
  assert (H1 : In (addressKey (mkAddress 4 0))
                  (getDependents (deps Scenario.sumAfter) (mkAddress 1 0))).
  { vm_compute. left. reflexivity. }
  split; [exact H1|].
  apply (proj1 (X14_dependents_mirror_dependencies Scenario.sumAfter
                  (mkAddress 1 0) (mkAddress 4 0) Ht) H1).
Defined.

(** X15 ([DepGraph.removeAll]).  On a graph whose two maps agree,
    [removeAll] deletes exactly the edges that start or end at the node:
    an edge is present afterwards when it was present before and
    touches the node at neither end.  The maps still agree. *)
Theorem X15_removeAll_removes_touching_edges :
  forall (g : DepGraph.t) (node : Address) (a b : Key),
    mirrored g ->
    (In b (membersAt (outgoing (removeAll g node)) a)
     <-> In b (membersAt (outgoing g) a)
         /\ a <> addressKey node /\ b <> addressKey node)
    /\ mirrored (removeAll g node).
Proof.
  intros g node a b M. split.
  - apply (proj1 (removeAll_edges g node a b M)).
  - apply removeAll_mirrored. exact M.
Qed.

Lemma X15_removeAll_removes_touching_edges_witness :
  mirrored Sample.chainGraph
  /\ In (addressKey (mkAddress 2 0))
        (membersAt (outgoing Sample.chainGraph) (addressKey (mkAddress 1 0)))
  /\ ~ In (addressKey (mkAddress 2 0))
          (membersAt (outgoing (removeAll Sample.chainGraph (mkAddress 1 0)))
                     (addressKey (mkAddress 1 0)))
  /\ mirrored (removeAll Sample.chainGraph (mkAddress 1 0)).
Proof.
  assert (M : mirrored Sample.chainGraph).
  { apply graphReachable_mirrored. unfold Sample.chainGraph.
    apply graph_addEdge, graph_addEdge, graph_empty. }
  split; [exact M|]. split; [vm_compute; left; reflexivity|]. split.
  - intros H.
    apply (proj1 (X15_removeAll_removes_touching_edges Sample.chainGraph (mkAddress 1 0)
                    (addressKey (mkAddress 1 0)) (addressKey (mkAddress 2 0)) M)) in H.
    destruct H as [_ [H _]]. apply H. reflexivity.
  - exact (proj2 (X15_removeAll_removes_touching_edges Sample.chainGraph (mkAddress 1 0)
                    (addressKey (mkAddress 1 0)) (addressKey (mkAddress 2 0)) M)).
Defined.

(** X16 ([DepGraph.replaceAllInbound]).  On a graph whose two maps
    agree, [replaceAllInbound] makes the edges into the node exactly
    the edges from the new producers and keeps every edge into another
    node.  The maps still agree. *)
Theorem X16_replaceAllInbound_sets_the_producers :
  forall (g : DepGraph.t) (node : Address) (newFrom : list Address) (a b : Key),
    mirrored g ->
    (In b (membersAt (outgoing (replaceAllInbound g node newFrom)) a)
     <-> (b <> addressKey node /\ In b (membersAt (outgoing g) a))
         \/ (b = addressKey node /\ In a (map addressKey newFrom)))
    /\ mirrored (replaceAllInbound g node newFrom).
Proof.
  intros g node newFrom a b M. split.
  - apply (proj1 (replaceAllInbound_edges g node newFrom a b M)).
  - apply replaceAllInbound_mirrored. exact M.
Qed.

Lemma X16_replaceAllInbound_sets_the_producers_witness :
  mirrored Sample.fanGraph
  /\ getDependents Sample.fanGraph (mkAddress 0 0)
     = [addressKey (mkAddress 2 0); addressKey (mkAddress 3 0)]
  /\ getDependents Sample.fanReplaced (mkAddress 0 0) = [addressKey (mkAddress 3 0)]
  /\ In (addressKey (mkAddress 2 0))
        (membersAt (outgoing Sample.fanReplaced) (addressKey (mkAddress 1 0)))
  /\ mirrored Sample.fanReplaced.
Proof.
  assert (M : mirrored Sample.fanGraph).
  { apply graphReachable_mirrored. unfold Sample.fanGraph.
    apply graph_addEdge, graph_addEdge, graph_empty. }
  split; [exact M|]. split; [reflexivity|]. split; [reflexivity|]. split.
  - apply (proj1 (X16_replaceAllInbound_sets_the_producers Sample.fanGraph (mkAddress 2 0)
                    [mkAddress 1 0] (addressKey (mkAddress 1 0))
                    (addressKey (mkAddress 2 0)) M)).
    right. split; [reflexivity | left; reflexivity].
  - exact (proj2 (X16_replaceAllInbound_sets_the_producers Sample.fanGraph (mkAddress 2 0)
                    [mkAddress 1 0] (addressKey (mkAddress 1 0))
                    (addressKey (mkAddress 2 0)) M)).
Defined.

(** X17 ([DepGraph.affectedFrom]).  The affected set is exactly the set
    of nodes reached from a changed node along dependent edges, the
    changed nodes included, and lists each node once. *)
Theorem X17_affectedFrom_is_reachability : forall (g : DepGraph.t) (changed : list Key),
  NoDup (affectedFrom g changed)
  /\ forall k, In k (affectedFrom g changed)
               <-> exists c, In c changed /\ reaches (outgoing g) c k.
Proof.
  exact affectedFrom_reaches.
Qed.

End StoreAndGraphProperties.

Section SpliceProperties.
Import Transform Table.
Local Arguments Z.add _ _ : simpl never.
Local Arguments Z.sub _ _ : simpl never.
Local Arguments Z.ltb _ _ : simpl never.
Local Arguments Z.leb _ _ : simpl never.

(** X20 ([applySpliceToPos] inside [transformAnchor]).  For a splice
    that inserts no negative count, the position map keeps the order of
    the positions that survive: of two surviving positions the earlier
    one stays the earlier one. *)
Theorem X20_splice_keeps_the_order_of_positions : forall (s : Splice) (p q p' q' : Z),
  0 <= ins s ->
  applySpliceToPos s p = Some p' -> applySpliceToPos s q = Some q' ->
  (p < q <-> p' < q').
Proof.
  intros s p q p' q' Hi Hp Hq.
  apply iff_sym. apply (applySpliceToPos_order s q p q' p' Hi Hq Hp).
Qed.

Lemma X20_splice_keeps_the_order_of_positions_witness :
  applySpliceToPos (mkSplice AxRow 2 2 0) 1 = Some 1
  /\ applySpliceToPos (mkSplice AxRow 2 2 0) 4 = Some 2
  /\ (1 < 4 <-> 1 < 2).
Proof.
  split; [reflexivity|]. split; [reflexivity|].
  apply (X20_splice_keeps_the_order_of_positions (mkSplice AxRow 2 2 0) 1 4 1 2).
  - simpl. lia.
  - reflexivity.
  - reflexivity.
Defined.

End SpliceProperties.

(* ================================================================== *)
(** * Further properties: the table *)
(* ================================================================== *)

Section TableProperties.
Import Table.
Local Arguments Z.add _ _ : simpl never.
Local Arguments Z.sub _ _ : simpl never.
Local Arguments Z.ltb _ _ : simpl never.
Local Arguments Z.leb _ _ : simpl never.

(** X23 ([Table.expandRange], [evalFormula]).  A range covers the same
    cells, in the same order, whichever of its two corners is written
    first, so a SUM evaluates alike with its corners swapped. *)
Theorem X23_range_corners_can_be_swapped :
  forall (t : Sheet) (a b : Anchor) (formulaAddr : Address),
    expandRange t (mkRange a b) = expandRange t (mkRange b a)
    /\ evalFormula t (Sum (mkRange a b)) formulaAddr
       = evalFormula t (Sum (mkRange b a)) formulaAddr.
Proof.
  intros t a b formulaAddr. pose proof (expandRange_swap t a b) as E.
  split; [exact E|]. unfold evalFormula. rewrite E. reflexivity.
Qed.

(** X24 ([Table.setValue], [getValue]).  A number written at a position
    of the sheet is read back there; the axes are unchanged; every
    other cell keeps its value or its formula, only cached results may
    change; and when the cell held a formula no other cell changes at
    all. *)
Theorem X24_setValue_then_getValue :
  forall (t : Sheet) (pos : Position) (v : Z) (addr : Address),
    posToAddr t pos = Some addr ->
    getValue (setValue t pos v) pos = Some (Num v)
    /\ rows (setValue t pos v) = rows t /\ cols (setValue t pos v) = cols t
    /\ (forall k, k <> addressKey addr ->
          match JS.get keyEqb (cells t) k, JS.get keyEqb (cells (setValue t pos v)) k with
          | Some cell, Some cell' => sameUpToCache cell cell'
          | None, None => True
          | _, _ => False
          end)
    /\ (forall f cached,
          CellStore.get (cells t) addr = Some (CFormula f cached) ->
          cells (setValue t pos v) = CellStore.set (cells t) addr (CValue (Num v))).
Proof.
  intros t pos v addr Hp.
  destruct (setValue_frame t pos v) as [Fr Fc].
  destruct (setValue_cells t pos v addr Hp) as [H1 [H2 H3]].
  split; [|split; [exact Fr | split; [exact Fc | split; [exact H2 | exact H3]]]].
  unfold getValue, posToAddr. rewrite Fr, Fc.
  unfold posToAddr in Hp. rewrite Hp. unfold CellStore.get. rewrite H1. reflexivity.
Qed.

Lemma X24_setValue_then_getValue_witness :
  posToAddr Scenario.sumBefore (mkPos 2 1) = Some (mkAddress 1 0)
  /\ getValue (setValue Scenario.sumBefore (mkPos 2 1) 7) (mkPos 2 1) = Some (Num 7).
Proof.
  split; [reflexivity|].
  exact (proj1 (X24_setValue_then_getValue Scenario.sumBefore (mkPos 2 1) 7
                  (mkAddress 1 0) eq_refl)).
Defined.

(** X26 ([Table.setFormula], [DepGraph]).  In a reachable sheet, after
    [setFormula] with a text that parses, the edges of the dependency
    graph are the old edges that touch the cell at neither end,
    together with, when the formula does not read its own cell, one
    edge into the cell from each cell the formula reads.  Every edge
    from the cell to a formula reading it is dropped. *)
Theorem X26_setFormula_edges :
  forall (t : Sheet) (pos : Position) (src : string) (addr : Address) (f : Formula)
         (x : Address) (kF : Key),
    tableReachable t ->
    posToAddr t pos = Some addr ->
    Parser.parseFormula src pos (rows t) (cols t) = Some f ->
    (hasEdge (deps (setFormula t pos src)) x kF
     <-> (x <> addr /\ kF <> addressKey addr /\ hasEdge (deps t) x kF)
         \/ (~ In addr (collectDependencies t f)
             /\ kF = addressKey addr /\ In x (collectDependencies t f))).
Proof.
  intros t pos src addr f x kF Ht Hp Hf. unfold setFormula. rewrite Hp, Hf.
  apply installFormula_edges.
  apply graphReachable_mirrored. apply reachable_graph. exact Ht.
Qed.

Lemma X26_setFormula_edges_witness :
  hasEdge (deps Sample.readerSheet) (mkAddress 0 0) (addressKey (mkAddress 0 1))
  /\ ~ hasEdge (deps (setFormula Sample.readerSheet (mkPos 1 1) "=C1")) (mkAddress 0 0)
         (addressKey (mkAddress 0 1))
  /\ hasEdge (deps (setFormula Sample.readerSheet (mkPos 1 1) "=C1")) (mkAddress 0 2)
       (addressKey (mkAddress 0 0)).
Proof.
  assert (Ht : tableReachable Sample.readerSheet).
  { unfold Sample.readerSheet. apply reach_setFormula, reach_setValue, reach_new. }
  split; [vm_compute; left; reflexivity|]. split.
  - intros H.
    apply (proj1 (X26_setFormula_edges Sample.readerSheet (mkPos 1 1) "=C1" (mkAddress 0 0)
                    (Ref (mkAnchor (mkAddress 0 0) rel rel 0 2))
                    (mkAddress 0 0) (addressKey (mkAddress 0 1)) Ht eq_refl eq_refl)) in H.
    destruct H as [[H _]|[_ [H _]]].
    + apply H. reflexivity.
    + discriminate H.
  - apply (proj2 (X26_setFormula_edges Sample.readerSheet (mkPos 1 1) "=C1" (mkAddress 0 0)
                    (Ref (mkAnchor (mkAddress 0 0) rel rel 0 2))
                    (mkAddress 0 2) (addressKey (mkAddress 0 0)) Ht eq_refl eq_refl)).
    right. split; [|split; [reflexivity | left; reflexivity]].
    intros [H|[]]. discriminate H.
Defined.

(** X27 ([Table.setFormula], [recalc], [applySplice], [getValue]).  In
    every reachable sheet each formula cell has a cached value:
    [getValue] at a formula cell never answers [undefined]. *)
Theorem X27_formula_cells_have_a_value :
  forall (t : Sheet) (pos : Position) (addr : Address) (f : Formula)
         (cached : option Scalar),
    tableReachable t ->
    posToAddr t pos = Some addr ->
    CellStore.get (cells t) addr = Some (CFormula f cached) ->
    exists v, cached = Some v /\ getValue t pos = Some v.
Proof.
  intros t pos addr f cached Ht Hp Hg.
  destruct cached as [v|].
  - exists v. split; [reflexivity|]. unfold getValue. rewrite Hp, Hg. reflexivity.
  - exfalso. apply (reachable_evaluated t Ht (addressKey addr) f). exact Hg.
Qed.

Lemma X27_formula_cells_have_a_value_witness :
  exists v, Some ErrCycle = Some v /\ getValue Scenario.selfRef (mkPos 1 1) = Some v.
Proof.
  apply (X27_formula_cells_have_a_value Scenario.selfRef (mkPos 1 1) (mkAddress 0 0)
           (Ref (mkAnchor (mkAddress 0 0) rel rel 0 0)) (Some ErrCycle)).
  - unfold Scenario.selfRef. apply reach_setFormula, reach_new.
  - reflexivity.
  - reflexivity.
Defined.

(** X29 ([Table.topologicalSort]).  The order computed for a set of
    nodes lists every node of the set exactly once and nothing else,
    and places a node after each node of the set it reads, unless that
    node reads it back through a chain of dependencies. *)
Theorem X29_topologicalSort_puts_dependencies_first :
  forall (g : DepGraph.t) (nodes : list Key),
    NoDup (topologicalSort g nodes)
    /\ (forall k, In k (topologicalSort g nodes) <-> In k nodes)
    /\ (forall k d,
          In k nodes -> In d nodes ->
          In d (DepGraph.getDependencies g (parseAddressKey k)) ->
          ~ readsChain g d k ->
          before (topologicalSort g nodes) d k).
Proof.
  intros g nodes. destruct (topologicalSort_inv g nodes) as [I1 [I2 [I3 I4]]].
  simpl in *. split; [exact I1|]. split.
  - intros k. split; [apply I3 | apply topologicalSort_complete].
  - intros k d Hk Hd Hdep Hno.
    destruct (I4 k d (topologicalSort_complete g nodes k Hk) Hdep Hd) as [B|C].
    + exact B.
    + contradiction.
Qed.

(** X30 ([Sheet.posToAddr], [Table.setValue], [setFormula], [getValue],
    [getSource]).  On a sheet with steady axes, a position outside the
    grid [1..maxPos] of the rows or of the columns is ignored: writing a
    value or a formula there changes nothing, and reading there gives
    [undefined] and the empty text.  The sheet does not grow. *)
Theorem X30_positions_off_the_grid_are_ignored :
  forall (t : Sheet) (pos : Position) (v : Z) (src : string),
    steady (rows t) -> steady (cols t) ->
    ~ (1 <= r pos <= AxisIndex.maxPos (rows t)
       /\ 1 <= c pos <= AxisIndex.maxPos (cols t)) ->
    setValue t pos v = t /\ setFormula t pos src = t
    /\ getValue t pos = None /\ getSource t pos = EmptyString.
Proof.
  intros t pos v src Hr Hc Hout.
  apply (posToAddr_None t pos Hr Hc) in Hout.
  unfold setValue, setFormula, getValue, getSource. rewrite Hout.
  repeat split.
Qed.

Lemma X30_positions_off_the_grid_are_ignored_witness :
  setValue (create 5 3) (mkPos 6 1) 1 = create 5 3
  /\ setFormula (create 5 3) (mkPos 6 1) "=A1" = create 5 3
  /\ getValue (create 5 3) (mkPos 6 1) = None
  /\ getSource (create 5 3) (mkPos 6 1) = EmptyString.
Proof.
  apply (X30_positions_off_the_grid_are_ignored (create 5 3) (mkPos 6 1) 1 "=A1").
  - apply create_steady.
  - apply create_steady.
  - vm_compute. intros [[_ H] _]. apply H. reflexivity.
Defined.

End TableProperties.
